(** * Arcade physics world of the Black engine: pair registry, queries, fixed step

    Shallow embedding of [src/src/physics/arcade/Arcade.js].

    JavaScript objects live in stores indexed by reference (a natural
    number); two references are [===] exactly when the numbers are equal.
    Arrays are lists, mutated in place by re-binding the field that holds
    them.  The [mPairsHash] object is a finite map.  Numbers are IEEE 754
    binary64 values ([PrimFloat.float]), as in JavaScript.

    The world-bounds helpers ([__initBounds], [enableBounds],
    [disableBounds], [setBounds]) only forward to the scene graph and are
    not part of this development. *)

From Stdlib Require Import PrimFloat ZArith.
From stdpp Require Import base option gmap functions.
From stdpp Require Import list.

Open Scope Z_scope.
Open Scope nat_scope.

(** ** JavaScript array primitives used by the source *)

Module JS.

(** How a call ends: normally, or by throwing. *)
Inductive Completion : Type :=
  | Normal
  | Throw_TypeError.

(** [Array.prototype.indexOf]: the first index holding [x], or [-1]. *)
Fixpoint indexOf_from (l : list nat) (x : nat) (i : Z) : Z :=
  match l with
  | [] => (-1)%Z
  | y :: l' => if decide (y = x) then i else indexOf_from l' x (i + 1)%Z
  end.

Definition indexOf (l : list nat) (x : nat) : Z := indexOf_from l x 0%Z.

(** [Array.prototype.splice(start, 1)]: a negative [start] counts from
    the end of the array (clamped at 0), a [start] beyond the end is the
    end; one element is removed there when there is one. *)
Definition splice1 {A : Type} (start : Z) (l : list A) : list A :=
  let len := Z.of_nat (length l) in
  let k := if (start <? 0)%Z then Z.max (len + start) 0 else Z.min start len in
  delete (Z.to_nat k) l.

End JS.

(** ** References and values *)

Abbreviation BodyRef := nat (only parsing).
Abbreviation ColliderRef := nat (only parsing).
Abbreviation PairRef := nat (only parsing).
Abbreviation GameObjectRef := nat (only parsing).

(** The values that reach the dynamically typed parameters of
    [__removeCollider] and [__removePairs]. *)
Inductive jsval : Type :=
| JUndefined
| JGameObject (g : GameObjectRef)
| JCollider (c : ColliderRef).

Global Instance jsval_eq_dec : EqDecision jsval.
Proof. solve_decision. Defined.

(** [instanceof BoxCollider] distinguishes the two collider classes. *)
Inductive ColliderClass : Type := BoxCollider | CircleCollider.

(** The three pair classes, each with a pool of its own. *)
Inductive PairClass : Type := BoxToBoxPair | CircleToCirclePair | BoxToCirclePair.

Global Instance PairClass_eq_dec : EqDecision PairClass.
Proof. solve_decision. Defined.

(** The components [onComponentAdded] / [onComponentRemoved] tell apart. *)
Inductive Component : Type :=
| CRigidBody (b : BodyRef)
| CCollider (c : ColliderRef)
| COther.

Module Vector.
Record t : Type := mk { x : float; y : float }.
(** [Vector.set(x, y)] *)
Definition set (x y : float) (_ : t) : t := mk x y.
End Vector.

Module Collider.
Record t : Type := mk { cls : ColliderClass; mChanged : bool }.

Definition isBox (c : t) : bool :=
  match cls c with BoxCollider => true | CircleCollider => false end.

(** Modelled from the spec: the Collider class is missing from the
    sources.  Its attributes in the data model are the kind tag, the local
    geometry, the dirty flag and the owner; it has no property [a] or
    [b] (those are properties of a Pair), so reading either from a
    collider gives [undefined]. *)
Definition a (c : ColliderRef) : jsval := JUndefined.
Definition b (c : ColliderRef) : jsval := JUndefined.
End Collider.

Module GameObject.
Record t : Type := mk {
  mCollidersCache : list ColliderRef;
  (** what [getComponent(RigidBody)] returns: the body or [null] *)
  rigidBody : option BodyRef
}.
End GameObject.

Module RigidBody.
Record t : Type := mk {
  gameObject : GameObjectRef;
  mCollider : ColliderRef;
  mPairs : list PairRef;
  mPosition : Vector.t;
  mVelocity : Vector.t;
  mForce : Vector.t;
  mInvMass : float;
  frictionAir : float
}.

Definition set_mPairs (l : list PairRef) (b : t) : t :=
  mk (gameObject b) (mCollider b) l (mPosition b) (mVelocity b) (mForce b)
     (mInvMass b) (frictionAir b).
Definition set_mPosition (v : Vector.t) (b : t) : t :=
  mk (gameObject b) (mCollider b) (mPairs b) v (mVelocity b) (mForce b)
     (mInvMass b) (frictionAir b).
Definition set_mVelocity (v : Vector.t) (b : t) : t :=
  mk (gameObject b) (mCollider b) (mPairs b) (mPosition b) v (mForce b)
     (mInvMass b) (frictionAir b).
Definition set_mForce (v : Vector.t) (b : t) : t :=
  mk (gameObject b) (mCollider b) (mPairs b) (mPosition b) (mVelocity b) v
     (mInvMass b) (frictionAir b).
End RigidBody.

Module Pair.
(** The key of [mPairsHash]. *)
Abbreviation Key := (nat * nat)%type (only parsing).

Record t : Type := mk {
  (** the object's class ([pair.constructor]) *)
  constructor : PairClass;
  a : ColliderRef;
  b : ColliderRef;
  bodyA : BodyRef;
  bodyB : BodyRef;
  mInCollision : bool;
  mNormal : Vector.t;
  mOverlap : float;
  mNormalImpulse : float;
  mTangentImpulse : float
}.

(** A newly constructed pair of class [k]. *)
Definition new (k : PairClass) : t :=
  mk k 0 0 0 0 false (Vector.mk 0 0) 0 0 0.

Definition set_mInCollision (v : bool) (p : t) : t :=
  mk (constructor p) (a p) (b p) (bodyA p) (bodyB p) v (mNormal p) (mOverlap p)
     (mNormalImpulse p) (mTangentImpulse p).
Definition set_mNormalImpulse (v : float) (p : t) : t :=
  mk (constructor p) (a p) (b p) (bodyA p) (bodyB p) (mInCollision p) (mNormal p)
     (mOverlap p) v (mTangentImpulse p).
Definition set_mTangentImpulse (v : float) (p : t) : t :=
  mk (constructor p) (a p) (b p) (bodyA p) (bodyB p) (mInCollision p) (mNormal p)
     (mOverlap p) (mNormalImpulse p) v.

(** Modelled from the spec: [Pair.set] is missing from the sources; pairs
    are "initialized via a set(shapeA, shapeB, bodyA, bodyB) contract",
    which stores the two shapes and the two bodies. *)
Definition set (a' b' : ColliderRef) (bodyA' bodyB' : BodyRef) (p : t) : t :=
  mk (constructor p) a' b' bodyA' bodyB' (mInCollision p) (mNormal p) (mOverlap p)
     (mNormalImpulse p) (mTangentImpulse p).

(** Modelled from the spec: [Pair.__id] is missing from the sources; it is
    the "canonical unordered-pair identifier": "compare stable numeric
    ids, always put the smaller first".  The stable numeric id of a
    collider is its reference. *)
Definition __id (a' b' : ColliderRef) : Key :=
  if a' <? b' then (a', b') else (b', a').

(** The same function on arbitrary values: reading the identity of
    [undefined] (or of anything that is not a collider) throws. *)
Definition __id_js (a' b' : jsval) : option Key :=
  match a', b' with
  | JCollider ca, JCollider cb => Some (__id ca cb)
  | _, _ => None
  end.
End Pair.

(** ** The world: the Arcade instance and the objects it points to *)

Record World : Type := mkWorld {
  (** fields of the Arcade instance *)
  mBodies : list BodyRef;
  mPairs : list PairRef;
  mContacts : list PairRef;
  mPairsHash : gmap (nat * nat) PairRef;
  gravity : Vector.t;
  iterations : nat;
  (** object stores *)
  bodies : BodyRef → RigidBody.t;
  pairs : PairRef → Pair.t;
  gameObjects : GameObjectRef → GameObject.t;
  colliders : ColliderRef → Collider.t;
  (** Modelled from the spec: the ObjectPool class is missing from the
      sources; there is "one pooled allocator per pair kind; pairs are
      recycled, never individually freed".  [pool k] is the list of released
      pairs of class [k], [nextPair] the next unused reference. *)
  pool : PairClass → list PairRef;
  nextPair : PairRef
}.

Definition set_mBodies (v : list BodyRef) (w : World) : World :=
  mkWorld v (mPairs w) (mContacts w) (mPairsHash w) (gravity w) (iterations w)
    (bodies w) (pairs w) (gameObjects w) (colliders w) (pool w) (nextPair w).
Definition set_mPairs (v : list PairRef) (w : World) : World :=
  mkWorld (mBodies w) v (mContacts w) (mPairsHash w) (gravity w) (iterations w)
    (bodies w) (pairs w) (gameObjects w) (colliders w) (pool w) (nextPair w).
Definition set_mContacts (v : list PairRef) (w : World) : World :=
  mkWorld (mBodies w) (mPairs w) v (mPairsHash w) (gravity w) (iterations w)
    (bodies w) (pairs w) (gameObjects w) (colliders w) (pool w) (nextPair w).
Definition set_mPairsHash (v : gmap (nat * nat) PairRef) (w : World) : World :=
  mkWorld (mBodies w) (mPairs w) (mContacts w) v (gravity w) (iterations w)
    (bodies w) (pairs w) (gameObjects w) (colliders w) (pool w) (nextPair w).
Definition set_bodies (v : BodyRef → RigidBody.t) (w : World) : World :=
  mkWorld (mBodies w) (mPairs w) (mContacts w) (mPairsHash w) (gravity w) (iterations w)
    v (pairs w) (gameObjects w) (colliders w) (pool w) (nextPair w).
Definition set_pairs (v : PairRef → Pair.t) (w : World) : World :=
  mkWorld (mBodies w) (mPairs w) (mContacts w) (mPairsHash w) (gravity w) (iterations w)
    (bodies w) v (gameObjects w) (colliders w) (pool w) (nextPair w).
Definition set_gameObjects (v : GameObjectRef → GameObject.t) (w : World) : World :=
  mkWorld (mBodies w) (mPairs w) (mContacts w) (mPairsHash w) (gravity w) (iterations w)
    (bodies w) (pairs w) v (colliders w) (pool w) (nextPair w).
Definition set_colliders (v : ColliderRef → Collider.t) (w : World) : World :=
  mkWorld (mBodies w) (mPairs w) (mContacts w) (mPairsHash w) (gravity w) (iterations w)
    (bodies w) (pairs w) (gameObjects w) v (pool w) (nextPair w).
Definition set_pool (v : PairClass → list PairRef) (w : World) : World :=
  mkWorld (mBodies w) (mPairs w) (mContacts w) (mPairsHash w) (gravity w) (iterations w)
    (bodies w) (pairs w) (gameObjects w) (colliders w) v (nextPair w).
Definition set_nextPair (v : PairRef) (w : World) : World :=
  mkWorld (mBodies w) (mPairs w) (mContacts w) (mPairsHash w) (gravity w) (iterations w)
    (bodies w) (pairs w) (gameObjects w) (colliders w) (pool w) v.

(** [body.gameObject.mCollidersCache] *)
Definition collidersCache (w : World) (body : BodyRef) : list ColliderRef :=
  GameObject.mCollidersCache (gameObjects w (RigidBody.gameObject (bodies w body))).

(** [body.mPairs = l] for the body object behind [body]. *)
Definition set_body_mPairs (body : BodyRef) (l : list PairRef) (w : World) : World :=
  set_bodies (<[body := RigidBody.set_mPairs l (bodies w body)]> (bodies w)) w.

(** ** Pools *)

(** [pool.get()]: a released pair when there is one, a new object
    otherwise. *)
Definition pool_get (k : PairClass) (w : World) : PairRef * World :=
  match pool w k with
  | r :: rest => (r, set_pool (<[k := rest]> (pool w)) w)
  | [] =>
      (nextPair w,
       set_nextPair (S (nextPair w))
         (set_pairs (<[nextPair w := Pair.new k]> (pairs w)) w))
  end.

(** [pool.release(pair)] *)
Definition pool_release (k : PairClass) (pr : PairRef) (w : World) : World :=
  set_pool (<[k := pr :: pool w k]> (pool w)) w.

(** ** Pair registry: lines 183-354 *)

(** [__addPair(a, b, bodyA, bodyB)] *)
Definition __addPair (a b : ColliderRef) (bodyA bodyB : BodyRef) (w : World) : World :=
  let isBoxA := Collider.isBox (colliders w a) in
  let isBoxB := Collider.isBox (colliders w b) in
  let '(pr, w, (a, b, bodyA, bodyB)) :=
    if isBoxA && isBoxB then
      let '(pr, w) := pool_get BoxToBoxPair w in (pr, w, (a, b, bodyA, bodyB))
    else if negb isBoxA && negb isBoxB then
      let '(pr, w) := pool_get CircleToCirclePair w in (pr, w, (a, b, bodyA, bodyB))
    else
      let '(pr, w) := pool_get BoxToCirclePair w in
      if isBoxB then (pr, w, (b, a, bodyB, bodyA)) else (pr, w, (a, b, bodyA, bodyB)) in
  let w := set_pairs (<[pr := Pair.set a b bodyA bodyB (pairs w pr)]> (pairs w)) w in
  let w := set_mPairs (mPairs w ++ [pr]) w in
  let w := set_mPairsHash (<[Pair.__id a b := pr]> (mPairsHash w)) w in
  let w := set_body_mPairs bodyA (RigidBody.mPairs (bodies w bodyA) ++ [pr]) w in
  let w := set_body_mPairs bodyB (RigidBody.mPairs (bodies w bodyB) ++ [pr]) w in
  w.

(** The body of the outer loop of [__addPairs], for one [body] of
    [mBodies]. *)
Definition __addPairs_body (collider : ColliderRef) (fromBody : BodyRef)
    (w : World) (body : BodyRef) : World :=
  let colliders := collidersCache w body in
  if decide (body = fromBody) then w
  else if length colliders =? 0 then
    __addPair collider (RigidBody.mCollider (bodies w body)) fromBody body w
  else
    fold_left (fun w c => __addPair collider c fromBody body w) colliders w.

(** [__addPairs(collider, fromBody)] *)
Definition __addPairs (collider : ColliderRef) (fromBody : BodyRef) (w : World) : World :=
  let bodies_ := mBodies w in
  let w := set_colliders
    (<[collider := Collider.mk (Collider.cls (colliders w collider)) true]> (colliders w)) w in
  fold_left (__addPairs_body collider fromBody) bodies_ w.

(** One removal inside [__removePairs]: the pair at index [i] leaves
    [mPairs], goes back to the pool of its class, leaves the hash and the
    pair lists of its two bodies. *)
Definition __removePairs_at (i : nat) (pr : PairRef) (w : World) : World :=
  let w := set_mPairs (JS.splice1 (Z.of_nat i) (mPairs w)) w in
  let w := pool_release (Pair.constructor (pairs w pr)) pr w in
  let w := set_mPairsHash
    (delete (Pair.__id (Pair.a (pairs w pr)) (Pair.b (pairs w pr))) (mPairsHash w)) w in
  let bodyA := Pair.bodyA (pairs w pr) in
  let w := set_body_mPairs bodyA
    (JS.splice1 (JS.indexOf (RigidBody.mPairs (bodies w bodyA)) pr)
       (RigidBody.mPairs (bodies w bodyA))) w in
  let bodyB := Pair.bodyB (pairs w pr) in
  let w := set_body_mPairs bodyB
    (JS.splice1 (JS.indexOf (RigidBody.mPairs (bodies w bodyB)) pr)
       (RigidBody.mPairs (bodies w bodyB))) w in
  w.

(** The loop of [__removePairs]: [n] is [i + 1] for the loop variable
    [i], which runs from [pairs.length - 1] down to [0]. *)
Fixpoint __removePairs_loop (collider : jsval) (n : nat) (w : World) : World :=
  match n with
  | 0 => w
  | S i =>
      let w :=
        match mPairs w !! i with
        | Some pr =>
            if bool_decide (JCollider (Pair.a (pairs w pr)) = collider)
               || bool_decide (JCollider (Pair.b (pairs w pr)) = collider)
            then __removePairs_at i pr w
            else w
        | None => w (* not reached: [i] stays below [pairs.length] *)
        end in
      __removePairs_loop collider i w
  end.

(** [__removePairs(collider)] *)
Definition __removePairs (collider : jsval) (w : World) : World :=
  __removePairs_loop collider (length (mPairs w)) w.

(** [__addBody(body)] *)
Definition __addBody (body : BodyRef) (w : World) : World :=
  let colliders := collidersCache w body in
  let w := set_body_mPairs body [] w in
  let w :=
    if length colliders =? 0 then
      __addPairs (RigidBody.mCollider (bodies w body)) body w
    else
      fold_left (fun w c => __addPairs c body w) colliders w in
  set_mBodies (mBodies w ++ [body]) w.

(** [__removeBody(body)] *)
Definition __removeBody (body : BodyRef) (w : World) : World :=
  let colliders := collidersCache w body in
  let w :=
    if length colliders =? 0 then
      __removePairs (JCollider (RigidBody.mCollider (bodies w body))) w
    else
      fold_left (fun w c => __removePairs (JCollider c) w) colliders w in
  let w := set_body_mPairs body [] w in
  set_mBodies (JS.splice1 (JS.indexOf (mBodies w) body) (mBodies w)) w.

(** [__addCollider(child, collider)], for a [child] that is a game
    object. *)
Definition __addCollider (child : GameObjectRef) (collider : ColliderRef)
    (w : World) : World :=
  match GameObject.rigidBody (gameObjects w child) with
  | Some body =>
      if bool_decide (JS.indexOf (mBodies w) body ≠ (-1)%Z) then
        let w := __addPairs collider body w in
        if length (GameObject.mCollidersCache (gameObjects w child)) =? 1 then
          __removePairs (JCollider (RigidBody.mCollider (bodies w body))) w
        else w
      else w
  | None => w
  end.

(** [__removeCollider(child, collider)].  Both parameters are whatever
    the caller passed.  When [child] is not a game object the call
    [child.getComponent(RigidBody)] throws: colliders are components and
    have no [getComponent], and [undefined] has no properties. *)
Definition __removeCollider (child collider : jsval) (w : World)
    : World * JS.Completion :=
  match child with
  | JGameObject g =>
      match GameObject.rigidBody (gameObjects w g) with
      | Some body =>
          if bool_decide (JS.indexOf (mBodies w) body ≠ (-1)%Z) then
            let w := __removePairs collider w in
            if length (GameObject.mCollidersCache (gameObjects w g)) =? 0 then
              (__addCollider g (RigidBody.mCollider (bodies w body)) w, JS.Normal)
            else (w, JS.Normal)
          else (w, JS.Normal)
      | None => (w, JS.Normal)
      end
  | _ => (w, JS.Throw_TypeError)
  end.

(** [onComponentAdded(child, component)] *)
Definition onComponentAdded (child : GameObjectRef) (component : Component)
    (w : World) : World :=
  match component with
  | CRigidBody body => __addBody body w
  | CCollider c => __addCollider child c w
  | COther => w
  end.

(** [onComponentRemoved(child, component)]: the source calls
    [this.__removeCollider(component)] with one argument, so inside
    [__removeCollider] the parameter [child] is the collider and
    [collider] is [undefined]. *)
Definition onComponentRemoved (child : GameObjectRef) (component : Component)
    (w : World) : World * JS.Completion :=
  match component with
  | CRigidBody body => (__removeBody body w, JS.Normal)
  | CCollider c => __removeCollider (JCollider c) JUndefined w
  | COther => (w, JS.Normal)
  end.

(** ** The scene graph around the world *)

(** Modelled from the spec: the GameObject class is missing from the
    sources.  Attaching a collider component appends it to the game
    object's collider cache before the world hears of it ([__addCollider]
    tests [mCollidersCache.length === 1] for the first explicit collider);
    detaching removes it from the cache before the world hears of it
    ([__removeCollider] tests [length === 0]). *)
Definition attachCollider (g : GameObjectRef) (c : ColliderRef) (w : World) : World :=
  let o := gameObjects w g in
  set_gameObjects
    (<[g := GameObject.mk (GameObject.mCollidersCache o ++ [c]) (GameObject.rigidBody o)]>
       (gameObjects w)) w.

Definition detachCollider (g : GameObjectRef) (c : ColliderRef) (w : World) : World :=
  let o := gameObjects w g in
  set_gameObjects
    (<[g := GameObject.mk (filter (λ x, x ≠ c) (GameObject.mCollidersCache o))
                          (GameObject.rigidBody o)]>
       (gameObjects w)) w.

(** The four registry operations of the spec, as the scene graph drives
    them.  [RemoveShape] is [__removeCollider] called with both of its
    parameters. *)
Inductive Op : Type :=
| AddBody (body : BodyRef)
| RemoveBody (body : BodyRef)
| AddShape (g : GameObjectRef) (c : ColliderRef)
| RemoveShape (g : GameObjectRef) (c : ColliderRef).

Definition apply (w : World) (op : Op) : World :=
  match op with
  | AddBody body => __addBody body w
  | RemoveBody body => __removeBody body w
  | AddShape g c => __addCollider g c (attachCollider g c w)
  | RemoveShape g c =>
      fst (__removeCollider (JGameObject g) (JCollider c) (detachCollider g c w))
  end.

Definition run (ops : list Op) (w : World) : World := fold_left apply ops w.

(** What a maintained pair links: its two shapes and their bodies. *)
Definition pairLinks (w : World) (pr : PairRef) : nat * nat * nat * nat :=
  let p := pairs w pr in (Pair.a p, Pair.b p, Pair.bodyA p, Pair.bodyB p).

(** ** A concrete scene for the examples *)

Module Example.

(** Body [b] sits on game object [2 * b]; its default collider is the box
    [2 * b + 1]; body 2 is static, the others have inverse mass 1.
    Game objects with an odd reference carry no body.
    Colliders with an even reference are explicit ones: circles when the
    reference is 2 modulo 4, boxes otherwise. *)
Definition body0 (b : BodyRef) : RigidBody.t :=
  RigidBody.mk (2 * b) (2 * b + 1) [] (Vector.mk 0 0) (Vector.mk 0 0) (Vector.mk 0 0)
    (if b =? 2 then 0%float else 1%float) 0.

Definition gameObject0 (g : GameObjectRef) : GameObject.t :=
  GameObject.mk [] (if Nat.even g then Some (Nat.div2 g) else None).

Definition collider0 (c : ColliderRef) : Collider.t :=
  Collider.mk (if c mod 4 =? 2 then CircleCollider else BoxCollider) false.

(** The state the constructor leaves: no body, no pair, empty pools. *)
Definition world0 : World :=
  mkWorld [] [] [] ∅ (Vector.mk 0 1000) 1
    body0 (λ _, Pair.new BoxToBoxPair) gameObject0 collider0 (λ _, []) 0.

End Example.

(** ** The fixed step: lines 356-451 *)

(** [pairs[r] = f(pairs[r])]: a mutation of the pair object behind [r]. *)
Definition update_pair (r : PairRef) (f : Pair.t → Pair.t) (w : World) : World :=
  set_pairs (<[r := f (pairs w r)]> (pairs w)) w.

(** A mutation of the body object behind [b]. *)
Definition update_body (b : BodyRef) (f : RigidBody.t → RigidBody.t) (w : World) : World :=
  set_bodies (<[b := f (bodies w b)]> (bodies w)) w.

(** [body.mInvMass === 0] *)
Definition isStatic (body : RigidBody.t) : bool :=
  PrimFloat.eqb (RigidBody.mInvMass body) 0.

(** Lines 414-420: the new velocity of a body that is not skipped. *)
Definition integratedVelocity (gravity : Vector.t) (dt : float) (body : RigidBody.t)
    : Vector.t :=
  let velocity := RigidBody.mVelocity body in
  let invMass := RigidBody.mInvMass body in
  let force := RigidBody.mForce body in
  let damping := (1 - RigidBody.frictionAir body)%float in
  Vector.mk
    ((Vector.x velocity + (Vector.x force * invMass + Vector.x gravity) * dt) * damping)%float
    ((Vector.y velocity + (Vector.y force * invMass + Vector.y gravity) * dt) * damping)%float.

(** Lines 409-421: the first loop of [__solve]. *)
Definition __solve_velocities (dt : float) (w : World) : World :=
  let gravity := gravity w in
  fold_left
    (λ w body,
       if isStatic (bodies w body) then w
       else update_body body
              (λ o, RigidBody.set_mVelocity (integratedVelocity gravity dt o) o) w)
    (mBodies w) w.

(** Lines 439-443: the new position of a body that is not skipped. *)
Definition integratedPosition (unitsPerMeter dt : float) (body : RigidBody.t) : Vector.t :=
  let position := RigidBody.mPosition body in
  let velocity := RigidBody.mVelocity body in
  Vector.mk
    (Vector.x position + Vector.x velocity * dt * unitsPerMeter)%float
    (Vector.y position + Vector.y velocity * dt * unitsPerMeter)%float.

(** Lines 433-444: the fourth loop of [__solve]; the force is cleared for
    every body before the static ones are skipped. *)
Definition __solve_positions (unitsPerMeter dt : float) (w : World) : World :=
  fold_left
    (λ w body,
       let w := update_body body
                  (λ o, RigidBody.set_mForce (Vector.set 0 0 (RigidBody.mForce o)) o) w in
       if isStatic (bodies w body) then w
       else update_body body
              (λ o, RigidBody.set_mPosition (integratedPosition unitsPerMeter dt o) o) w)
    (mBodies w) w.

Section Step.

(** The collaborators of the step that are missing from the sources, taken
    as parameters.  [Scene] is the state of the scene graph the shapes are
    refreshed from (node transforms and cached shape geometry). *)
Variable Scene : Type.

(** [RigidBody.update()]: per the spec it refreshes the body's cached shape
    geometry from the current transform of its node. *)
Variable RigidBody_update : BodyRef → RigidBody.t → Scene → Scene.

(** [Pair.test()]: the narrow-phase test; it reads the shapes and the two
    bodies and writes the pair. *)
Variable Pair_test : Scene → RigidBody.t → RigidBody.t → Pair.t → Pair.t.

(** [Pair.preSolve()]: reads the two bodies, writes the pair. *)
Variable Pair_preSolve : RigidBody.t → RigidBody.t → Pair.t → Pair.t.

(** [Pair.solveVelocity()]: writes the pair and the velocities of
    [bodyA] and [bodyB] (second and third component). *)
Variable Pair_solveVelocity : RigidBody.t → RigidBody.t → Pair.t → Pair.t * Vector.t * Vector.t.

(** [Pair.solvePosition()]: writes the pair and the positions of
    [bodyA] and [bodyB]. *)
Variable Pair_solvePosition : RigidBody.t → RigidBody.t → Pair.t → Pair.t * Vector.t * Vector.t.

(** [Pair.unitsPerMeter] *)
Variable Pair_unitsPerMeter : float.

(** A method call [pairs[r].m()] that writes only the pair. *)
Definition call_pair (m : RigidBody.t → RigidBody.t → Pair.t → Pair.t)
    (w : World) (r : PairRef) : World :=
  let p := pairs w r in
  update_pair r (m (bodies w (Pair.bodyA p)) (bodies w (Pair.bodyB p))) w.

(** [contacts[j].solveVelocity()] *)
Definition call_solveVelocity (w : World) (r : PairRef) : World :=
  let p := pairs w r in
  let '(p', vA, vB) :=
    Pair_solveVelocity (bodies w (Pair.bodyA p)) (bodies w (Pair.bodyB p)) p in
  let w := update_pair r (λ _, p') w in
  let w := update_body (Pair.bodyA p) (RigidBody.set_mVelocity vA) w in
  update_body (Pair.bodyB p) (RigidBody.set_mVelocity vB) w.

(** [contacts[j].solvePosition()] *)
Definition call_solvePosition (w : World) (r : PairRef) : World :=
  let p := pairs w r in
  let '(p', xA, xB) :=
    Pair_solvePosition (bodies w (Pair.bodyA p)) (bodies w (Pair.bodyB p)) p in
  let w := update_pair r (λ _, p') w in
  let w := update_body (Pair.bodyA p) (RigidBody.set_mPosition xA) w in
  update_body (Pair.bodyB p) (RigidBody.set_mPosition xB) w.

(** [for (let i = 0; i < iterations; i++) body] *)
Fixpoint repeat_loop (n : nat) (body : World → World) (w : World) : World :=
  match n with
  | 0 => w
  | S n' => repeat_loop n' body (body w)
  end.

(** [__solve(dt)] *)
Definition __solve (dt : float) (w : World) : World :=
  let iterations := iterations w in
  let contacts := mContacts w in
  let w := __solve_velocities dt w in
  let w := fold_left (call_pair Pair_preSolve) contacts w in
  let w := repeat_loop iterations (λ w, fold_left call_solveVelocity contacts w) w in
  let w := __solve_positions Pair_unitsPerMeter dt w in
  let w := repeat_loop iterations (λ w, fold_left call_solvePosition contacts w) w in
  w.

(** Lines 380-383: [pairs[i].mInCollision && pairs[i].test()] *)
Definition narrow_test (sc : Scene) (w : World) (r : PairRef) : World :=
  if Pair.mInCollision (pairs w r) then call_pair (Pair_test sc) w r else w.

(** Lines 385-392: contacts are collected, the other pairs lose their
    accumulated impulses. *)
Definition collect_contact (w : World) (r : PairRef) : World :=
  if Pair.mInCollision (pairs w r) then set_mContacts (mContacts w ++ [r]) w
  else
    let w := update_pair r (Pair.set_mNormalImpulse 0) w in
    update_pair r (Pair.set_mTangentImpulse 0) w.

(** Lines 360-392 of [onFixedUpdate]: everything before [__solve]. *)
Definition detect (st : World * Scene) : World * Scene :=
  let '(w, sc) := st in
  let pairs_ := mPairs w in
  let w := set_mContacts [] w in
  let sc := fold_left (λ sc b, RigidBody_update b (bodies w b) sc) (mBodies w) sc in
  let w := fold_left (λ w r, update_pair r (Pair.set_mInCollision true) w) pairs_ w in
  let w := fold_left (narrow_test sc) pairs_ w in
  let w := fold_left collect_contact pairs_ w in
  (w, sc).

(** [onFixedUpdate(dt)] *)
Definition onFixedUpdate (dt : float) (st : World * Scene) : World * Scene :=
  let '(w, sc) := detect st in
  (__solve dt w, sc).

(** Any number of fixed steps, one [dt] each. *)
Definition steps (dts : list float) (st : World * Scene) : World * Scene :=
  fold_left (λ st dt, onFixedUpdate dt st) dts st.

End Step.

(** ** Query helpers: lines 63-133 *)

(** One invocation of a callback: [cb.call(ctx, normalX, normalY, overlap, ...args)]. *)
Record CallbackCall : Type := mkCall { normalX : float; normalY : float; overlap : float }.

(** [cb.call(ctx, pair.mNormal.x * sign, pair.mNormal.y * sign, pair.mOverlap, ...args)] *)
Definition report (p : Pair.t) (sign : float) : CallbackCall :=
  mkCall (Vector.x (Pair.mNormal p) * sign)%float
         (Vector.y (Pair.mNormal p) * sign)%float
         (Pair.mOverlap p).

(** [collisionInfo(colliderA, colliderB, cb, ctx, ...args)]: the callback
    invocations made, or [None] when the call throws.  The key is computed
    from [colliderA.a] and [colliderB.b], as the source has it. *)
Definition collisionInfo (colliderA colliderB : ColliderRef) (w : World)
    : option (list CallbackCall) :=
  match Pair.__id_js (Collider.a colliderA) (Collider.b colliderB) with
  | None => None
  | Some key =>
      match mPairsHash w !! key with
      | Some r =>
          let p := pairs w r in
          if Pair.mInCollision p then
            let sign := if decide (Pair.a p = colliderA) then 1%float else (-1)%float in
            Some [report p sign]
          else Some []
      | None => Some []
      end
  end.

(** The loop of [inCollision] over [bodyA.mPairs]; [cb] tells whether a
    callback was passed.  The result is the returned boolean and the
    callback invocations made. *)
Fixpoint inCollision_loop (w : World) (bodyA bodyB : BodyRef) (cb : bool)
    (l : list PairRef) : bool * list CallbackCall :=
  match l with
  | [] => (false, [])
  | r :: l' =>
      let p := pairs w r in
      if negb (Pair.mInCollision p) then inCollision_loop w bodyA bodyB cb l'
      else
        let sign : float :=
          if bool_decide (Pair.bodyA p = bodyA) && bool_decide (Pair.bodyB p = bodyB)
          then 1%float
          else if bool_decide (Pair.bodyA p = bodyB) && bool_decide (Pair.bodyB p = bodyA)
               then (-1)%float else 0%float in
        if PrimFloat.eqb sign 0 then inCollision_loop w bodyA bodyB cb l'
        else (true, if cb then [report p sign] else [])
  end.

(** [inCollision(bodyA, bodyB, cb = null, ctx = null, ...args)] *)
Definition inCollision (bodyA bodyB : BodyRef) (cb : bool) (w : World)
    : bool * list CallbackCall :=
  inCollision_loop w bodyA bodyB cb (RigidBody.mPairs (bodies w bodyA)).

(** ** Predicates of the properties *)

(** A pair connects two bodies when they are its two ends, in either
    order. *)
Definition connects (p : Pair.t) (bodyA bodyB : BodyRef) : Prop :=
  (Pair.bodyA p = bodyA ∧ Pair.bodyB p = bodyB)
  ∨ (Pair.bodyA p = bodyB ∧ Pair.bodyB p = bodyA).

(** What [inCollision] looks for: a pair in collision that connects the
    two bodies. *)
Definition collidingMatch (w : World) (bodyA bodyB : BodyRef) (r : PairRef) : Prop :=
  Pair.mInCollision (pairs w r) = true ∧ connects (pairs w r) bodyA bodyB.

(** What the first loop of [__solve] does to one body object. *)
Definition integrateBody (gravity : Vector.t) (dt : float) (o : RigidBody.t) : RigidBody.t :=
  if isStatic o then o
  else RigidBody.set_mVelocity (integratedVelocity gravity dt o) o.

(** Both accumulated impulses of the pair behind [r] are zero. *)
Definition impulsesZero (w : World) (r : PairRef) : Prop :=
  Pair.mNormalImpulse (pairs w r) = 0%float ∧ Pair.mTangentImpulse (pairs w r) = 0%float.

(** Modelled from the spec: [Pair.solveVelocity] and [Pair.solvePosition]
    are missing from the sources.  Per the spec a static body
    "participates in collisions but is never itself displaced" and the
    position-correction pass works "again skipping static bodies": a
    solver method [m] leaves the [field] it writes as it was for a body
    with inverse mass 0. *)
Definition leavesStatic (field : RigidBody.t → Vector.t)
    (m : RigidBody.t → RigidBody.t → Pair.t → Pair.t * Vector.t * Vector.t) : Prop :=
  ∀ oA oB p,
    (isStatic oA = true → snd (fst (m oA oB p)) = field oA)
    ∧ (isStatic oB = true → snd (m oA oB p) = field oB).

(** Position, velocity and inverse mass of a body object. *)
Definition kinematics (o : RigidBody.t) : Vector.t * Vector.t * float :=
  (RigidBody.mPosition o, RigidBody.mVelocity o, RigidBody.mInvMass o).

(** Body [b] is static and has kinematics [k]. *)
Definition frozen (b : BodyRef) (k : Vector.t * Vector.t * float) (w : World) : Prop :=
  kinematics (bodies w b) = k ∧ PrimFloat.eqb (snd k) 0 = true.

(** ** The pair-uniqueness invariant *)

(** The shapes a body takes part with: its explicit colliders, or its
    default collider when it has none. *)
Definition shapes (w : World) (body : BodyRef) : list ColliderRef :=
  if length (collidersCache w body) =? 0 then [RigidBody.mCollider (bodies w body)]
  else collidersCache w body.

(** A body owns its default collider and the colliders attached to its
    game object. *)
Definition owns (w : World) (body : BodyRef) (c : ColliderRef) : Prop :=
  c = RigidBody.mCollider (bodies w body) ∨ c ∈ collidersCache w body.

(** Two pairs are over the same unordered shape combination. *)
Definition sameShapes (p q : Pair.t) : Prop :=
  (Pair.a p = Pair.a q ∧ Pair.b p = Pair.b q)
  ∨ (Pair.a p = Pair.b q ∧ Pair.b p = Pair.a q).

(** At most one maintained pair per unordered shape combination. *)
Definition pairUnique (w : World) : Prop :=
  ∀ i j r1 r2, mPairs w !! i = Some r1 → mPairs w !! j = Some r2 →
    sameShapes (pairs w r1) (pairs w r2) → i = j.

(** No maintained pair has both of its shapes owned by one body. *)
Definition noSameBodyPair (w : World) : Prop :=
  ∀ r, r ∈ mPairs w →
    ∀ body, ¬ (owns w body (Pair.a (pairs w r)) ∧ owns w body (Pair.b (pairs w r))).

(** The scene graph is well formed: every rigid body is the body of its
    game object, a collider is attached to at most one game object and at
    most once, and default colliders are private to their body. *)
Record SceneWf (w : World) : Prop := mkSceneWf {
  wf_body_attached : ∀ b,
    GameObject.rigidBody (gameObjects w (RigidBody.gameObject (bodies w b))) = Some b;
  wf_body_of_object : ∀ g b,
    GameObject.rigidBody (gameObjects w g) = Some b → RigidBody.gameObject (bodies w b) = g;
  wf_cache_nodup : ∀ g, NoDup (GameObject.mCollidersCache (gameObjects w g));
  wf_cache_disjoint : ∀ g1 g2 c,
    c ∈ GameObject.mCollidersCache (gameObjects w g1) →
    c ∈ GameObject.mCollidersCache (gameObjects w g2) → g1 = g2;
  wf_default_not_cached : ∀ b g,
    RigidBody.mCollider (bodies w b) ∉ GameObject.mCollidersCache (gameObjects w g);
  wf_default_inj : ∀ b1 b2,
    RigidBody.mCollider (bodies w b1) = RigidBody.mCollider (bodies w b2) → b1 = b2
}.

(** The released pairs of the three pools. *)
Definition poolRefs (f : PairClass → list PairRef) : list PairRef :=
  f BoxToBoxPair ++ f CircleToCirclePair ++ f BoxToCirclePair.

(** Every pair object there is: maintained or released. *)
Definition allRefs (w : World) : list PairRef := mPairs w ++ poolRefs (pool w).

(** The pools are well formed: a pair object is either maintained or
    released into one pool, once, and [nextPair] is unused. *)
Definition PoolWf (w : World) : Prop :=
  NoDup (allRefs w) ∧ ∀ r, r ∈ allRefs w → r < nextPair w.

(** When the scene graph may issue an operation. *)
Definition opOk (w : World) (op : Op) : Prop :=
  match op with
  | AddBody body => body ∉ mBodies w
  | RemoveBody body => body ∈ mBodies w
  | AddShape g c =>
      (∀ g', c ∉ GameObject.mCollidersCache (gameObjects w g'))
      ∧ (∀ b, RigidBody.mCollider (bodies w b) ≠ c)
  | RemoveShape g c => c ∈ GameObject.mCollidersCache (gameObjects w g)
  end.

(** Every operation of the sequence is issued when it may be. *)
Fixpoint opsOk (ops : list Op) (w : World) : Prop :=
  match ops with
  | [] => True
  | op :: ops' => opOk w op ∧ opsOk ops' (apply w op)
  end.

(** The maintained pair objects. *)
Definition live (w : World) : list Pair.t := pairs w <$> mPairs w.

(** The hash key of a pair. *)
Definition ukey (p : Pair.t) : nat * nat := Pair.__id (Pair.a p) (Pair.b p).

(** Pair [p] touches shape [c]. *)
Definition touches (p : Pair.t) (c : ColliderRef) : Prop := Pair.a p = c ∨ Pair.b p = c.

(** The test of [__removePairs], negated: the pair stays. *)
Definition stays (collider : jsval) (p : Pair.t) : Prop :=
  JCollider (Pair.a p) ≠ collider ∧ JCollider (Pair.b p) ≠ collider.

Global Instance stays_decision collider p : Decision (stays collider p).
Proof. unfold stays. apply _. Defined.

(** Pair [p] links shape [c] of body [from] with shape [t.1] of body
    [t.2], in either order. *)
Definition linked (c : ColliderRef) (from : BodyRef) (p : Pair.t)
    (t : ColliderRef * BodyRef) : Prop :=
  (Pair.a p = c ∧ Pair.bodyA p = from ∧ Pair.b p = t.1 ∧ Pair.bodyB p = t.2)
  ∨ (Pair.a p = t.1 ∧ Pair.bodyA p = t.2 ∧ Pair.b p = c ∧ Pair.bodyB p = from).

(** The shapes [__addPairs] pairs a collider of [from] with. *)
Definition targets (w : World) (from : BodyRef) : list (ColliderRef * BodyRef) :=
  mBodies w ≫= λ body,
    if decide (body = from) then [] else (λ c, (c, body)) <$> shapes w body.

(** Nothing of the scene graph differs between [w] and [w']. *)
Definition sameScene (w w' : World) : Prop :=
  mBodies w' = mBodies w
  ∧ gameObjects w' = gameObjects w
  ∧ ∀ b, RigidBody.gameObject (bodies w' b) = RigidBody.gameObject (bodies w b)
         ∧ RigidBody.mCollider (bodies w' b) = RigidBody.mCollider (bodies w b).

(** [w'] is [w] with new pairs appended that link [c] with [ts]. *)
Definition Added (c : ColliderRef) (from : BodyRef) (ts : list (ColliderRef * BodyRef))
    (w w' : World) : Prop :=
  sameScene w w' ∧ PoolWf w'
  ∧ (∀ x, Collider.cls (colliders w' x) = Collider.cls (colliders w x))
  ∧ ∃ rs, mPairs w' = mPairs w ++ rs
          ∧ (∀ r, r ∈ mPairs w → pairs w' r = pairs w r)
          ∧ Forall2 (λ r t, linked c from (pairs w' r) t) rs ts.

(** [w'] is [w] without the pairs that touch [collider]. *)
Definition Removed (collider : jsval) (w w' : World) : Prop :=
  sameScene w w' ∧ PoolWf w'
  ∧ pairs w' = pairs w
  ∧ mPairs w' = filter (λ r, stays collider (pairs w r)) (mPairs w).

(** Pair [p] joins two different bodies of [L] through shapes that [S]
    assigns to them. *)
Definition linkOkL (L : list BodyRef) (S : BodyRef → ColliderRef → Prop) (p : Pair.t)
    : Prop :=
  Pair.bodyA p ∈ L ∧ Pair.bodyB p ∈ L
  ∧ Pair.bodyA p ≠ Pair.bodyB p
  ∧ S (Pair.bodyA p) (Pair.a p) ∧ S (Pair.bodyB p) (Pair.b p).

(** A maintained pair joins two different active bodies through shapes
    they take part with. *)
Definition linkOk (w : World) (p : Pair.t) : Prop :=
  linkOkL (mBodies w) (λ body c, c ∈ shapes w body) p.

(** The shapes assigned to the bodies while [__addBody] has paired the
    colliders [done_] of the new body [b]. *)
Definition addBodyShapes (w : World) (b : BodyRef) (done_ : list ColliderRef)
    (b' : BodyRef) (x : ColliderRef) : Prop :=
  if decide (b' = b) then x ∈ done_ else x ∈ shapes w b'.

(** The invariant of the loop of [__addBody]. *)
Definition addBodyInv (w : World) (b : BodyRef) (done_ : list ColliderRef) (w' : World)
    : Prop :=
  sameScene w w' ∧ PoolWf w' ∧ NoDup (ukey <$> live w')
  ∧ Forall (linkOkL (mBodies w ++ [b]) (addBodyShapes w b done_)) (live w').

(** The invariant of the registry between operations. *)
Record Inv (w : World) : Prop := mkInv {
  inv_scene : SceneWf w;
  inv_pool : PoolWf w;
  inv_bodies : NoDup (mBodies w);
  inv_links : Forall (linkOk w) (live w);
  inv_keys : NoDup (ukey <$> live w)
}.

(** ** Example hooks and worlds *)

Module Scenario.

(** A narrow-phase test that finds every pair overlapping by 5 along x. *)
Definition test_overlapping (_ : unit) (_ _ : RigidBody.t) (p : Pair.t) : Pair.t :=
  Pair.mk (Pair.constructor p) (Pair.a p) (Pair.b p) (Pair.bodyA p) (Pair.bodyB p)
    true (Vector.mk 1 0) 5 (Pair.mNormalImpulse p) (Pair.mTangentImpulse p).

(** A narrow-phase test that finds every pair apart. *)
Definition test_apart (_ : unit) (_ _ : RigidBody.t) (p : Pair.t) : Pair.t :=
  Pair.set_mInCollision false p.

(** A scene graph that nothing is read from. *)
Definition update_none (_ : BodyRef) (_ : RigidBody.t) (sc : unit) : unit := sc.

Definition preSolve_none (_ _ : RigidBody.t) (p : Pair.t) : Pair.t := p.

(** A velocity solver that accumulates one unit of normal impulse and
    pushes the bodies that are not static apart along the normal. *)
Definition solveVelocity_push (oA oB : RigidBody.t) (p : Pair.t)
    : Pair.t * Vector.t * Vector.t :=
  let n := Pair.mNormal p in
  let vA := RigidBody.mVelocity oA in
  let vB := RigidBody.mVelocity oB in
  (Pair.set_mNormalImpulse (Pair.mNormalImpulse p + 1)%float p,
   if isStatic oA then vA
   else Vector.mk (Vector.x vA - Vector.x n)%float (Vector.y vA - Vector.y n)%float,
   if isStatic oB then vB
   else Vector.mk (Vector.x vB + Vector.x n)%float (Vector.y vB + Vector.y n)%float).

(** A position solver that moves the bodies that are not static apart by
    the overlap. *)
Definition solvePosition_push (oA oB : RigidBody.t) (p : Pair.t)
    : Pair.t * Vector.t * Vector.t :=
  let n := Pair.mNormal p in
  let d := Pair.mOverlap p in
  let xA := RigidBody.mPosition oA in
  let xB := RigidBody.mPosition oB in
  (p,
   if isStatic oA then xA
   else Vector.mk (Vector.x xA - Vector.x n * d)%float (Vector.y xA - Vector.y n * d)%float,
   if isStatic oB then xB
   else Vector.mk (Vector.x xB + Vector.x n * d)%float (Vector.y xB + Vector.y n * d)%float).

(** Two active bodies, each with its default shape only. *)
Definition two_bodies : World := run [AddBody 1; AddBody 2] Example.world0.

(** The same after the detection phase of a step found the two shapes
    overlapping. *)
Definition two_bodies_colliding : World :=
  fst (detect unit update_none test_overlapping (two_bodies, tt)).

(** The same after the detection phase of a step found them apart. *)
Definition two_bodies_apart : World :=
  fst (detect unit update_none test_apart (two_bodies, tt)).

(** The two bodies after one whole step in which they overlapped: the
    pair has accumulated normal impulse. *)
Definition two_bodies_after_contact : World :=
  fst (onFixedUpdate unit update_none test_overlapping preSolve_none
         solveVelocity_push solvePosition_push 1 1 (two_bodies, tt)).

(** Body 1 got the explicit circle 6, which retired its default box 3. *)
Definition explicit_shape : World :=
  run [AddBody 1; AddBody 2; AddShape 2 6] Example.world0.

End Scenario.


(** * Further properties: definitions *)

(** The registry fields of the world: active bodies, maintained pairs,
    hash index and pools. *)
Definition registry (w : World)
    : list BodyRef * list PairRef * gmap (nat * nat) PairRef
      * (PairClass → list PairRef) * PairRef :=
  (mBodies w, mPairs w, mPairsHash w, pool w, nextPair w).

(** What a step leaves of a body object apart from its motion. *)
Definition bodyIdentity (o : RigidBody.t)
    : GameObjectRef * ColliderRef * list PairRef * float * float :=
  (RigidBody.gameObject o, RigidBody.mCollider o, RigidBody.mPairs o,
   RigidBody.mInvMass o, RigidBody.frictionAir o).

(** Lines 385-392 for one pair object: a pair not in collision loses its
    accumulated impulses. *)
Definition settle (p : Pair.t) : Pair.t :=
  if Pair.mInCollision p then p
  else Pair.set_mTangentImpulse 0 (Pair.set_mNormalImpulse 0 p).

(** Lines 433-444 for one body object: the force is cleared, then a body
    that is not static moves. *)
Definition moveBody (unitsPerMeter dt : float) (o : RigidBody.t) : RigidBody.t :=
  let o := RigidBody.set_mForce (Vector.set 0 0 (RigidBody.mForce o)) o in
  if isStatic o then o
  else RigidBody.set_mPosition (integratedPosition unitsPerMeter dt o) o.

(** What neither phase of the step writes. *)
Definition stepFrame (w w' : World) : Prop :=
  registry w' = registry w
  ∧ gameObjects w' = gameObjects w ∧ colliders w' = colliders w
  ∧ gravity w' = gravity w ∧ iterations w' = iterations w
  ∧ ∀ b, bodyIdentity (bodies w' b) = bodyIdentity (bodies w b).

(** ** The bookkeeping of the registry *)

(** Body [body] is an end of pair [p]. *)
Definition involves (p : Pair.t) (body : BodyRef) : Prop :=
  Pair.bodyA p = body ∨ Pair.bodyB p = body.

Global Instance involves_decision p body : Decision (involves p body).
Proof. unfold involves. apply _. Defined.

(** The hash index holds exactly the maintained pairs, each under the
    identifier of its two shapes. *)
Definition HashOk (w : World) : Prop :=
  ∀ k r, mPairsHash w !! k = Some r ↔ r ∈ mPairs w ∧ ukey (pairs w r) = k.

(** The pair list of every body holds exactly the maintained pairs the
    body is an end of, each once. *)
Definition ListsOk (w : World) : Prop :=
  ∀ body,
    NoDup (RigidBody.mPairs (bodies w body))
    ∧ ∀ r, r ∈ RigidBody.mPairs (bodies w body)
           ↔ r ∈ mPairs w ∧ involves (pairs w r) body.

(** The two ends of every maintained pair are different bodies. *)
Definition DistinctEnds (w : World) : Prop :=
  ∀ r, r ∈ mPairs w → Pair.bodyA (pairs w r) ≠ Pair.bodyB (pairs w r).

(** The pair class for two collider classes (lines 306-312). *)
Definition pairClassOf (ca cb : ColliderClass) : PairClass :=
  match ca, cb with
  | BoxCollider, BoxCollider => BoxToBoxPair
  | CircleCollider, CircleCollider => CircleToCirclePair
  | _, _ => BoxToCirclePair
  end.

(** Pair [p] is of the class of its two shapes, and when the shapes are
    of different classes the box is shape [a]. *)
Definition canonical (w : World) (p : Pair.t) : Prop :=
  let ca := Collider.cls (colliders w (Pair.a p)) in
  let cb := Collider.cls (colliders w (Pair.b p)) in
  Pair.constructor p = pairClassOf ca cb
  ∧ (ca = CircleCollider → cb = CircleCollider).

(** Every maintained pair is canonical and every released pair waits in
    the pool of its own class. *)
Definition ClassOk (w : World) : Prop :=
  (∀ r, r ∈ mPairs w → canonical w (pairs w r))
  ∧ (∀ k r, r ∈ pool w k → Pair.constructor (pairs w r) = k).

(** The part of the invariant that does not depend on the scene graph. *)
Record Bookkeeping (w : World) : Prop := mkBookkeeping {
  bk_pool : PoolWf w;
  bk_hash : HashOk w;
  bk_lists : ListsOk w;
  bk_ends : DistinctEnds w;
  bk_class : ClassOk w
}.

(** Every two shapes of two different active bodies have a maintained
    pair. *)
Definition Complete (w : World) : Prop :=
  ∀ b1 b2 c1 c2,
    b1 ∈ mBodies w → b2 ∈ mBodies w → b1 ≠ b2 →
    c1 ∈ shapes w b1 → c2 ∈ shapes w b2 →
    ∃ r, r ∈ mPairs w ∧ linked c1 b1 (pairs w r) (c2, b2).

(** Between two calls inside one operation: body [b0] counts as active
    and takes part with the shapes [D]; every other body is as the scene
    graph has it. *)
Definition activeOr (w : World) (b0 body : BodyRef) : Prop :=
  body = b0 ∨ body ∈ mBodies w.

Definition shapeOr (w : World) (b0 : BodyRef) (D : ColliderRef → Prop)
    (body : BodyRef) (x : ColliderRef) : Prop :=
  if decide (body = b0) then D x else x ∈ shapes w body.

Record Mid (w : World) (b0 : BodyRef) (D : ColliderRef → Prop) : Prop := mkMid {
  mid_scene : SceneWf w;
  mid_bodies : NoDup (mBodies w);
  mid_book : Bookkeeping w;
  mid_keys : NoDup (ukey <$> live w);
  mid_links : ∀ p, p ∈ live w →
    activeOr w b0 (Pair.bodyA p) ∧ activeOr w b0 (Pair.bodyB p)
    ∧ shapeOr w b0 D (Pair.bodyA p) (Pair.a p)
    ∧ shapeOr w b0 D (Pair.bodyB p) (Pair.b p);
  mid_complete : ∀ b1 b2 c1 c2,
    activeOr w b0 b1 → activeOr w b0 b2 → b1 ≠ b2 →
    shapeOr w b0 D b1 c1 → shapeOr w b0 D b2 c2 →
    ∃ r, r ∈ mPairs w ∧ linked c1 b1 (pairs w r) (c2, b2);
  mid_own : ∀ x b', D x → b' ∈ mBodies w → b' ≠ b0 → x ∉ shapes w b'
}.

(** The invariant of the registry between operations, with its
    bookkeeping and its completeness. *)
Record Full (w : World) : Prop := mkFull {
  full_inv : Inv w;
  full_book : Bookkeeping w;
  full_complete : Complete w
}.

(** The state the constructor leaves over a well-formed scene: nothing
    registered, every body's pair list empty, pools in order. *)
Record Fresh (w : World) : Prop := mkFresh {
  fresh_scene : SceneWf w;
  fresh_bodies : mBodies w = [];
  fresh_pairs : mPairs w = [];
  fresh_hash : mPairsHash w = ∅;
  fresh_lists : ∀ body, RigidBody.mPairs (bodies w body) = [];
  fresh_pool : PoolWf w;
  fresh_pool_class : ∀ k r, r ∈ pool w k → Pair.constructor (pairs w r) = k
}.

(** One call of [__addPair] from [__addPairs]: the collider [c] of body
    [from] against the shape [t.1] of the body [t.2]. *)
Definition addTarget (c : ColliderRef) (from : BodyRef) (w : World)
    (t : ColliderRef * BodyRef) : World :=
  __addPair c t.1 from t.2 w.

(** ** Scene-graph callbacks and examples *)

(** The callback of [onChildrenAdded] (lines 139-145), for one object the
    traversal visits. *)
Definition childAdded (w : World) (object : GameObjectRef) : World :=
  match GameObject.rigidBody (gameObjects w object) with
  | Some body => __addBody body w
  | None => w
  end.

(** [onChildrenAdded(gameObject)].  [GameObject.forEach] is missing from
    the sources; [visited] is the sequence of objects it calls the callback
    with, in its order. *)
Definition onChildrenAdded (visited : list GameObjectRef) (w : World) : World :=
  fold_left childAdded visited w.

(** The callback of [onChildrenRemoved] (lines 152-158). *)
Definition childRemoved (w : World) (object : GameObjectRef) : World :=
  match GameObject.rigidBody (gameObjects w object) with
  | Some body => __removeBody body w
  | None => w
  end.

(** [onChildrenRemoved(gameObject)], with [visited] as above. *)
Definition onChildrenRemoved (visited : list GameObjectRef) (w : World) : World :=
  fold_left childRemoved visited w.

(** The rigid bodies of the visited objects, in order. *)
Definition bodiesOf (w : World) (visited : list GameObjectRef) : list BodyRef :=
  omap (λ g, GameObject.rigidBody (gameObjects w g)) visited.

Global Instance touches_decision p c : Decision (touches p c).
Proof. unfold touches. apply _. Defined.

(** Pair [p] touches none of the shapes [cs]. *)
Definition clearOf (cs : list ColliderRef) (p : Pair.t) : Prop :=
  Forall (λ c, stays (JCollider c) p) cs.

Global Instance clearOf_decision cs p : Decision (clearOf cs p).
Proof. unfold clearOf. apply _. Defined.

(** A sequence of operations on the example world: three bodies come,
    body 1 gets two explicit shapes and loses the first again, body 3
    leaves. *)
Definition example_ops : list Op :=
  [AddBody 1; AddBody 2; AddBody 3; AddShape 2 6; AddShape 2 8;
   RemoveShape 2 6; RemoveBody 3].

Definition example_world : World := run example_ops Example.world0.
(** * Properties *)

(** ** JavaScript array primitives *)

Lemma indexOf_from_ge (l : list nat) (x : nat) (i : Z) :
  (0 ≤ i)%Z → JS.indexOf_from l x i = (-1)%Z ∨ (i ≤ JS.indexOf_from l x i)%Z.
Proof.
  revert i. induction l as [|y l IH]; intros i Hi; simpl; [by left|].
  destruct (decide (y = x)); [right; lia|].
  destruct (IH (i + 1)%Z) as [Heq|?]; [lia|by left|right; lia].
Qed.

Lemma indexOf_from_absent (l : list nat) (x : nat) (i : Z) :
  (0 ≤ i)%Z → JS.indexOf_from l x i = (-1)%Z ↔ x ∉ l.
Proof.
  revert i. induction l as [|y l IH]; intros i Hi; simpl.
  - split; [intros _; apply not_elem_of_nil|done].
  - destruct (decide (y = x)) as [->|Hne].
    + split; [lia|]. intros Hx. exfalso. apply Hx. left.
    + rewrite IH by lia. rewrite not_elem_of_cons. intuition congruence.
Qed.

Lemma indexOf_absent (l : list nat) (x : nat) : JS.indexOf l x = (-1)%Z ↔ x ∉ l.
Proof. apply indexOf_from_absent. lia. Qed.

Lemma indexOf_present (l : list nat) (x : nat) : JS.indexOf l x ≠ (-1)%Z ↔ x ∈ l.
Proof.
  rewrite indexOf_absent. split; [|tauto].
  intros H. destruct (decide (x ∈ l)); tauto.
Qed.

(** [splice(i, 1)] at an index of the array removes the element there. *)
Lemma splice1_index {A} (i : nat) (l : list A) :
  i < length l → JS.splice1 (Z.of_nat i) l = delete i l.
Proof.
  intros Hi. unfold JS.splice1.
  destruct (Z.ltb_spec (Z.of_nat i) 0); [lia|].
  f_equal. lia.
Qed.

(** [splice(-1, 1)] removes the last element of the array. *)
Lemma splice1_minus_one {A} (l : list A) : JS.splice1 (-1) l = removelast l.
Proof.
  unfold JS.splice1.
  destruct l as [|a l _] using rev_ind; [done|].
  rewrite removelast_last, length_app.
  replace (Z.to_nat _) with (length l).
  - rewrite delete_middle. by rewrite app_nil_r.
  - change ((-1 <? 0)%Z) with true. cbv iota. simpl length. lia.
Qed.

(** ** [collisionInfo] *)

(** The key [collisionInfo] computes does not depend on the colliders it
    is given: both operands of [Pair.__id] are [undefined]. *)
Lemma collisionInfo_throws (colliderA colliderB : ColliderRef) (w : World) :
  collisionInfo colliderA colliderB w = None.
Proof. reflexivity. Qed.

(** C3, at the failing input: the pair of the box colliders 5 and 3 is in
    the hash index under their unordered key and is in collision, yet
    [collisionInfo] invokes no callback for them; the lookup key is built
    from [colliderA.a] and [colliderB.b], both [undefined], and computing
    it throws. *)
Theorem collisionInfo_misses_colliding_pair :
  let w := Scenario.two_bodies_colliding in
  mPairsHash w !! Pair.__id 5 3 = Some 0
  ∧ Pair.a (pairs w 0) = 5 ∧ Pair.b (pairs w 0) = 3
  ∧ Pair.mInCollision (pairs w 0) = true
  ∧ collisionInfo 5 3 w = None.
Proof. vm_compute. repeat split. Qed.

(** C4, at the failing input: for the colliding pair of colliders 5 and 3
    neither [collisionInfo(5, 3)] nor [collisionInfo(3, 5)] invokes its
    callback, so no two reports with equal overlap and opposite normals
    are made. *)
Theorem collisionInfo_silent_in_both_orders :
  let w := Scenario.two_bodies_colliding in
  Pair.mInCollision (pairs w 0) = true
  ∧ pairLinks w 0 = (5, 3, 2, 1)
  ∧ collisionInfo 5 3 w = None
  ∧ collisionInfo 3 5 w = None.
Proof. vm_compute. repeat split. Qed.

(** ** Misuse of [__addBody] / [__removeBody] *)

(** C7, at the failing inputs.  With bodies 1 and 2 active and linked by
    one pair: removing body 3, which was never tracked, splices index
    [-1] out of [mBodies] and so drops the last active body 2 while its
    pair stays registered; adding body 2 a second time lists it twice and
    registers a second pair object for the same two shapes. *)
Theorem untracked_remove_and_double_add_corrupt :
  let w := Scenario.two_bodies in
  mBodies w = [1; 2]
  ∧ pairLinks w <$> mPairs w = [(5, 3, 2, 1)]
  ∧ mBodies (__removeBody 3 w) = [1]
  ∧ pairLinks (__removeBody 3 w) <$> mPairs (__removeBody 3 w) = [(5, 3, 2, 1)]
  ∧ mBodies (__addBody 2 w) = [1; 2; 2]
  ∧ mPairs (__addBody 2 w) = [0; 1]
  ∧ pairLinks (__addBody 2 w) <$> mPairs (__addBody 2 w) = [(5, 3, 2, 1); (5, 3, 2, 1)].
Proof. vm_compute. repeat split. Qed.

(** ** Collider events *)

(** Whatever the world, the component-removed handler throws for a
    collider before it touches anything. *)
Lemma onComponentRemoved_collider (child : GameObjectRef) (c : ColliderRef) (w : World) :
  onComponentRemoved child (CCollider c) w = (w, JS.Throw_TypeError).
Proof. reflexivity. Qed.

(** C8, at the failing input.  Body 1 (game object 2) has the explicit
    circle 6 as its only shape, paired with the default box 5 of body 2.
    The scene graph detaches collider 6, so the explicit shape count goes
    from 1 to 0, and notifies the world.  [onComponentRemoved] throws and
    the pair of collider 6 stays; no pair for the default box 3 of body 1
    is made.  [__removeCollider] called with the game object and the
    collider does replace the pair. *)
Theorem component_removed_keeps_pairs_of_collider :
  let w := detachCollider 2 6 Scenario.explicit_shape in
  collidersCache w 1 = []
  ∧ pairLinks w <$> mPairs w = [(5, 6, 2, 1)]
  ∧ snd (onComponentRemoved 2 (CCollider 6) w) = JS.Throw_TypeError
  ∧ (let w' := fst (onComponentRemoved 2 (CCollider 6) w) in
     pairLinks w' <$> mPairs w' = [(5, 6, 2, 1)])
  ∧ (let w' := fst (__removeCollider (JGameObject 2) (JCollider 6) w) in
     pairLinks w' <$> mPairs w' = [(3, 5, 1, 2)]).
Proof. vm_compute. repeat split. Qed.

(** C10: a collider added to or removed from a game object that has no
    rigid body, or whose rigid body is not in [mBodies], leaves the whole
    world as it was: [__addCollider] and [__removeCollider] return it
    unchanged, and so do the two component handlers that dispatch to
    them. *)
Theorem collider_event_without_active_body (w : World) (g : GameObjectRef) (c : ColliderRef) :
  (∀ body, GameObject.rigidBody (gameObjects w g) = Some body → body ∉ mBodies w) →
  __addCollider g c w = w
  ∧ __removeCollider (JGameObject g) (JCollider c) w = (w, JS.Normal)
  ∧ onComponentAdded g (CCollider c) w = w
  ∧ fst (onComponentRemoved g (CCollider c) w) = w.
Proof.
  intros Hbody.
  assert (Hadd : __addCollider g c w = w).
  { unfold __addCollider.
    destruct (GameObject.rigidBody (gameObjects w g)) as [body|] eqn:Hg; [|done].
    rewrite bool_decide_eq_false_2; [done|].
    rewrite indexOf_present. by apply Hbody. }
  repeat split; try done.
  unfold __removeCollider.
  destruct (GameObject.rigidBody (gameObjects w g)) as [body|] eqn:Hg; [|done].
  rewrite bool_decide_eq_false_2; [done|].
  rewrite indexOf_present. by apply Hbody.
Qed.

Lemma collider_event_without_active_body_witness :
  let w := Scenario.two_bodies in
  GameObject.rigidBody (gameObjects w 6) = Some 3
  ∧ __addCollider 6 8 w = w
  ∧ __removeCollider (JGameObject 6) (JCollider 8) w = (w, JS.Normal)
  ∧ onComponentAdded 6 (CCollider 8) w = w
  ∧ fst (onComponentRemoved 6 (CCollider 8) w) = w.
Proof.
  split; [reflexivity|].
  apply (collider_event_without_active_body Scenario.two_bodies 6 8).
  intros body Hbody. vm_compute in Hbody.
  injection Hbody as <-.
  change (mBodies Scenario.two_bodies) with [1; 2].
  rewrite !not_elem_of_cons. repeat split; [lia|lia|apply not_elem_of_nil].
Defined.

(** ** [inCollision] *)

(** C9 as stated fails: after a step that found bodies 1 and 2 apart,
    the pair list of body 1 holds a pair connecting bodies 1 and 2, yet
    [inCollision(1, 2)] returns [false]. *)
Lemma inCollision_false_despite_connecting_pair :
  let w := Scenario.two_bodies_apart in
  (∃ r, r ∈ RigidBody.mPairs (bodies w 1) ∧ connects (pairs w r) 1 2)
  ∧ fst (inCollision 1 2 true w) = false.
Proof.
  split; [|reflexivity].
  exists 0. split; [vm_compute; left|right; split; reflexivity].
Qed.

Lemma inCollision_loop_spec (w : World) (bodyA bodyB : BodyRef) (cb : bool)
    (l : list PairRef) :
  let res := inCollision_loop w bodyA bodyB cb l in
  (fst res = true ↔ ∃ r, r ∈ l ∧ collidingMatch w bodyA bodyB r)
  ∧ (fst res = false → snd res = [])
  ∧ (fst res = true →
     ∃ i r, l !! i = Some r
       ∧ collidingMatch w bodyA bodyB r
       ∧ (∀ j r', j < i → l !! j = Some r' → ¬ collidingMatch w bodyA bodyB r')
       ∧ snd res =
           if cb then
             [report (pairs w r)
                (if decide (Pair.bodyA (pairs w r) = bodyA ∧ Pair.bodyB (pairs w r) = bodyB)
                 then 1%float else (-1)%float)]
           else []).
Proof.
  induction l as [|r l IH]; simpl.
  - split; [|split; [done|done]].
    split; [done|]. intros (r & Hr & _). by apply elem_of_nil in Hr.
  - assert (Hskip : ¬ collidingMatch w bodyA bodyB r →
      let res := inCollision_loop w bodyA bodyB cb l in
      (fst res = true ↔ ∃ r0, r0 ∈ r :: l ∧ collidingMatch w bodyA bodyB r0)
      ∧ (fst res = false → snd res = [])
      ∧ (fst res = true →
         ∃ i r0, (r :: l) !! i = Some r0
           ∧ collidingMatch w bodyA bodyB r0
           ∧ (∀ j r', j < i → (r :: l) !! j = Some r' → ¬ collidingMatch w bodyA bodyB r')
           ∧ snd res =
               if cb then
                 [report (pairs w r0)
                    (if decide (Pair.bodyA (pairs w r0) = bodyA
                                ∧ Pair.bodyB (pairs w r0) = bodyB)
                     then 1%float else (-1)%float)]
               else [])).
    { intros Hno. destruct IH as (IH1 & IH2 & IH3). split; [|split; [done|]].
      - rewrite IH1. split.
        + intros (r0 & Hr0 & Hm). exists r0. split; [by right|done].
        + intros (r0 & Hr0 & Hm). apply elem_of_cons in Hr0 as [->|Hr0]; [done|].
          by exists r0.
      - intros Ht. destruct (IH3 Ht) as (i & r0 & Hi & Hm & Hfirst & Hcalls).
        exists (S i), r0. split; [done|]. split; [done|]. split; [|done].
        intros [|j] r' Hj Hl; simpl in Hl.
        + by injection Hl as <-.
        + apply (Hfirst j r'); [lia|done]. }
    destruct (Pair.mInCollision (pairs w r)) eqn:Hin; simpl.
    2: { apply Hskip. intros [Hc _]. congruence. }
    destruct (bool_decide (Pair.bodyA (pairs w r) = bodyA)) eqn:HA1;
      destruct (bool_decide (Pair.bodyB (pairs w r) = bodyB)) eqn:HB1; simpl;
      try apply bool_decide_eq_true_1 in HA1; try apply bool_decide_eq_true_1 in HB1;
      try apply bool_decide_eq_false_1 in HA1; try apply bool_decide_eq_false_1 in HB1.
    { (* sign = 1 *)
      split; [|split; [done|]].
      - split; [|done]. intros _. exists r. split; [left|]. split; [done|by left].
      - intros _. exists 0, r. split; [done|]. split; [split; [done|by left]|].
        split; [intros; lia|].
        destruct cb; [|done]. by rewrite decide_True. }
    all: destruct (bool_decide (Pair.bodyA (pairs w r) = bodyB)) eqn:HA2;
      destruct (bool_decide (Pair.bodyB (pairs w r) = bodyA)) eqn:HB2; simpl;
      try apply bool_decide_eq_true_1 in HA2; try apply bool_decide_eq_true_1 in HB2;
      try apply bool_decide_eq_false_1 in HA2; try apply bool_decide_eq_false_1 in HB2.
    all: try (apply Hskip; intros [_ [[? ?]|[? ?]]]; congruence).
    all: (split; [|split; [done|]];
      [ split; [|done]; intros _; exists r; split; [left|]; split; [done|by right]
      | intros _; exists 0, r; split; [done|]; split; [split; [done|by right]|];
        split; [intros; lia|];
        destruct cb; [|done]; rewrite decide_False; [done|]; intros [? ?]; congruence ]).
Qed.

(** C9, amended: [inCollision] scans only the pair list of [bodyA]; it
    returns [true] exactly when that list holds a pair that is in
    collision and connects the two bodies in either order; it invokes the
    callback at most once, only when one was passed, for the first such
    pair of the list, with the pair's stored overlap and its normal
    multiplied by 1 when the pair's bodies are in the caller's order and
    by -1 otherwise. *)
Theorem inCollision_first_colliding_match (w : World) (bodyA bodyB : BodyRef) (cb : bool) :
  let l := RigidBody.mPairs (bodies w bodyA) in
  let res := inCollision bodyA bodyB cb w in
  (fst res = true ↔ ∃ r, r ∈ l ∧ collidingMatch w bodyA bodyB r)
  ∧ (fst res = false → snd res = [])
  ∧ (fst res = true →
     ∃ i r, l !! i = Some r
       ∧ collidingMatch w bodyA bodyB r
       ∧ (∀ j r', j < i → l !! j = Some r' → ¬ collidingMatch w bodyA bodyB r')
       ∧ snd res =
           if cb then
             [report (pairs w r)
                (if decide (Pair.bodyA (pairs w r) = bodyA ∧ Pair.bodyB (pairs w r) = bodyB)
                 then 1%float else (-1)%float)]
           else []).
Proof. apply inCollision_loop_spec. Qed.

(** ** Loops *)

Lemma fold_left_preserves {A B} (P : A → Prop) (f : A → B → A) (l : list B) (a : A) :
  (∀ a b, b ∈ l → P a → P (f a b)) → P a → P (fold_left f l a).
Proof.
  revert a. induction l as [|b l IH]; intros a Hf Ha; simpl; [done|].
  apply IH.
  - intros a' b' Hb'. apply Hf. by right.
  - apply Hf; [left|done].
Qed.

Lemma repeat_loop_preserves (P : World → Prop) (n : nat) (body : World → World) (w : World) :
  (∀ w, P w → P (body w)) → P w → P (repeat_loop n body w).
Proof.
  intros Hbody. revert w. induction n as [|n IH]; intros w Hw; simpl; [done|].
  apply IH. by apply Hbody.
Qed.

(** ** Velocity integration *)

Lemma solve_velocities_fold (g : Vector.t) (dt : float) (l : list BodyRef) (w : World) :
  NoDup l →
  let w' :=
    fold_left
      (λ w body,
         if isStatic (bodies w body) then w
         else update_body body
                (λ o, RigidBody.set_mVelocity (integratedVelocity g dt o) o) w) l w in
  (∀ b, b ∈ l → bodies w' b = integrateBody g dt (bodies w b))
  ∧ (∀ b, b ∉ l → bodies w' b = bodies w b).
Proof.
  revert w. induction l as [|b0 l IH]; intros w Hnd; simpl.
  - split; [|done]. intros b Hb. by apply elem_of_nil in Hb.
  - apply list.NoDup_cons in Hnd as [Hb0 Hnd].
    set (w1 := if isStatic (bodies w b0) then w else _).
    assert (H1 : bodies w1 b0 = integrateBody g dt (bodies w b0)).
    { unfold w1, integrateBody. destruct (isStatic (bodies w b0)); [done|].
      simpl. by rewrite fn_lookup_insert. }
    assert (H2 : ∀ b, b ≠ b0 → bodies w1 b = bodies w b).
    { intros b Hne. unfold w1. destruct (isStatic (bodies w b0)); [done|].
      simpl. by rewrite fn_lookup_insert_ne. }
    destruct (IH w1 Hnd) as [IHin IHout]. split.
    + intros b Hb. apply elem_of_cons in Hb as [->|Hb].
      * by rewrite IHout.
      * rewrite IHin by done. rewrite H2; [done|]. by intros ->.
    + intros b Hb. apply not_elem_of_cons in Hb as [Hne Hb].
      rewrite IHout by done. by apply H2.
Qed.

(** C5: in the velocity-integration phase of a step with timestep [dt],
    a body of the active-body list with nonzero inverse mass gets,
    componentwise, the velocity
    [(velocity + (force * inverseMass + gravity) * dt) * (1 - airFriction)];
    a body with inverse mass 0 is skipped: its object is left as it
    was.  The arithmetic is that of IEEE binary64. *)
Theorem velocity_integration (dt : float) (w : World) (b : BodyRef) :
  NoDup (mBodies w) → b ∈ mBodies w →
  let body := bodies w b in
  let body' := bodies (__solve_velocities dt w) b in
  let v := RigidBody.mVelocity body in
  let f := RigidBody.mForce body in
  let g := gravity w in
  let invMass := RigidBody.mInvMass body in
  if PrimFloat.eqb invMass 0 then body' = body
  else
    (Vector.x (RigidBody.mVelocity body')
     = (Vector.x v + (Vector.x f * invMass + Vector.x g) * dt)
       * (1 - RigidBody.frictionAir body))%float
    ∧ (Vector.y (RigidBody.mVelocity body')
       = (Vector.y v + (Vector.y f * invMass + Vector.y g) * dt)
         * (1 - RigidBody.frictionAir body))%float.
Proof.
  intros Hnd Hb. simpl. unfold __solve_velocities.
  destruct (solve_velocities_fold (gravity w) dt (mBodies w) w Hnd) as [Hin _].
  rewrite (Hin b Hb). unfold integrateBody, isStatic.
  destruct (PrimFloat.eqb (RigidBody.mInvMass (bodies w b)) 0); [done|].
  split; reflexivity.
Qed.

Lemma velocity_integration_witness :
  let w := Scenario.two_bodies in
  let body' := bodies (__solve_velocities 2 w) 1 in
  Vector.x (RigidBody.mVelocity body') = 0%float
  ∧ Vector.y (RigidBody.mVelocity body') = 2000%float.
Proof.
  assert (Hnd : NoDup (mBodies Scenario.two_bodies)).
  { change (mBodies Scenario.two_bodies) with [1; 2].
    apply list.NoDup_cons. split; [rewrite list_elem_of_singleton; lia|].
    apply NoDup_singleton. }
  assert (Hb : 1 ∈ mBodies Scenario.two_bodies) by (vm_compute; left).
  pose proof (velocity_integration 2 Scenario.two_bodies 1 Hnd Hb) as H.
  vm_compute in H. vm_compute. exact H.
Defined.

(** ** The detection phase and the solver *)

Section StepProperties.

Variable Scene : Type.
Variable RigidBody_update : BodyRef → RigidBody.t → Scene → Scene.
Variable Pair_test : Scene → RigidBody.t → RigidBody.t → Pair.t → Pair.t.
Variable Pair_preSolve : RigidBody.t → RigidBody.t → Pair.t → Pair.t.
Variable Pair_solveVelocity : RigidBody.t → RigidBody.t → Pair.t → Pair.t * Vector.t * Vector.t.
Variable Pair_solvePosition : RigidBody.t → RigidBody.t → Pair.t → Pair.t * Vector.t * Vector.t.
Variable Pair_unitsPerMeter : float.

Local Abbreviation detect' := (detect Scene RigidBody_update Pair_test).
Local Abbreviation solve' :=
  (__solve Pair_preSolve Pair_solveVelocity Pair_solvePosition Pair_unitsPerMeter).
Local Abbreviation onFixedUpdate' :=
  (onFixedUpdate Scene RigidBody_update Pair_test Pair_preSolve Pair_solveVelocity
     Pair_solvePosition Pair_unitsPerMeter).
Local Abbreviation steps' :=
  (steps Scene RigidBody_update Pair_test Pair_preSolve Pair_solveVelocity
     Pair_solvePosition Pair_unitsPerMeter).

Lemma collect_contact_flag (w : World) (r r' : PairRef) :
  Pair.mInCollision (pairs (collect_contact w r) r') = Pair.mInCollision (pairs w r').
Proof.
  unfold collect_contact. destruct (Pair.mInCollision (pairs w r)) eqn:Hr; [done|].
  simpl. destruct (decide (r = r')) as [<-|Hne].
  - by rewrite !fn_lookup_insert.
  - by rewrite !fn_lookup_insert_ne.
Qed.

Lemma collect_contact_keeps_zero (w : World) (r r' : PairRef) :
  impulsesZero w r' → impulsesZero (collect_contact w r) r'.
Proof.
  unfold collect_contact, impulsesZero.
  destruct (Pair.mInCollision (pairs w r)) eqn:Hr; [done|].
  simpl. destruct (decide (r = r')) as [<-|Hne].
  - by rewrite !fn_lookup_insert.
  - by rewrite !fn_lookup_insert_ne.
Qed.

Lemma collect_contact_resets (w : World) (r : PairRef) :
  Pair.mInCollision (pairs w r) = false → impulsesZero (collect_contact w r) r.
Proof.
  unfold collect_contact, impulsesZero. intros ->. simpl.
  by rewrite !fn_lookup_insert.
Qed.

Lemma collect_contact_contacts (w : World) (r : PairRef) :
  mContacts (collect_contact w r)
  = mContacts w ++ (if Pair.mInCollision (pairs w r) then [r] else []).
Proof.
  unfold collect_contact. destruct (Pair.mInCollision (pairs w r)); simpl; [done|].
  by rewrite app_nil_r.
Qed.

Lemma collect_loop (l : list PairRef) (w : World) :
  let w' := fold_left collect_contact l w in
  (∀ r, Pair.mInCollision (pairs w' r) = Pair.mInCollision (pairs w r))
  ∧ (∀ r, impulsesZero w r → impulsesZero w' r)
  ∧ (∀ r, r ∈ l → Pair.mInCollision (pairs w r) = false → impulsesZero w' r)
  ∧ (∀ r, r ∈ mContacts w' →
       r ∈ mContacts w ∨ Pair.mInCollision (pairs w r) = true).
Proof.
  revert w. induction l as [|r0 l IH]; intros w; simpl.
  - split; [done|]. split; [done|]. split.
    + intros r' Hr. by apply elem_of_nil in Hr.
    + intros r' Hr. by left.
  - destruct (IH (collect_contact w r0)) as (IH1 & IH2 & IH3 & IH4).
    split; [|split; [|split]].
    + intros r. by rewrite IH1, collect_contact_flag.
    + intros r Hr. by apply IH2, collect_contact_keeps_zero.
    + intros r Hr Hflag. apply elem_of_cons in Hr as [->|Hr].
      * by apply IH2, collect_contact_resets.
      * apply IH3; [done|]. by rewrite collect_contact_flag.
    + intros r Hr. destruct (IH4 r Hr) as [Hc|Hc].
      * rewrite collect_contact_contacts in Hc.
        apply elem_of_app in Hc as [Hc|Hc]; [by left|].
        destruct (Pair.mInCollision (pairs w r0)) eqn:Hr0.
        -- apply list_elem_of_singleton in Hc as ->. by right.
        -- by apply elem_of_nil in Hc.
      * right. by rewrite collect_contact_flag in Hc.
Qed.

(** The solver writes no pair outside the contact list. *)
Lemma call_pair_other m (w : World) (r r' : PairRef) :
  r ≠ r' → pairs (call_pair m w r) r' = pairs w r'.
Proof. intros Hne. unfold call_pair. simpl. by rewrite fn_lookup_insert_ne. Qed.

Lemma call_solveVelocity_other (w : World) (r r' : PairRef) :
  r ≠ r' → pairs (call_solveVelocity Pair_solveVelocity w r) r' = pairs w r'.
Proof.
  intros Hne. unfold call_solveVelocity.
  destruct (Pair_solveVelocity _ _ _) as [[p' vA] vB]. simpl.
  by rewrite fn_lookup_insert_ne.
Qed.

Lemma call_solvePosition_other (w : World) (r r' : PairRef) :
  r ≠ r' → pairs (call_solvePosition Pair_solvePosition w r) r' = pairs w r'.
Proof.
  intros Hne. unfold call_solvePosition.
  destruct (Pair_solvePosition _ _ _) as [[p' xA] xB]. simpl.
  by rewrite fn_lookup_insert_ne.
Qed.

Lemma solve_velocities_pairs (dt : float) (w : World) :
  pairs (__solve_velocities dt w) = pairs w.
Proof.
  unfold __solve_velocities.
  apply (fold_left_preserves (λ w', pairs w' = pairs w)); [|done].
  intros w' b _ Hw'. by destruct (isStatic (bodies w' b)).
Qed.

Lemma solve_positions_pairs (u dt : float) (w : World) :
  pairs (__solve_positions u dt w) = pairs w.
Proof.
  unfold __solve_positions.
  apply (fold_left_preserves (λ w', pairs w' = pairs w)); [|done].
  intros w' b _ Hw'. simpl. by destruct (isStatic _).
Qed.

Lemma solve_other_pairs (dt : float) (w : World) (r : PairRef) :
  r ∉ mContacts w → pairs (solve' dt w) r = pairs w r.
Proof.
  intros Hr. unfold __solve.
  set (P := λ w' : World, pairs w' r = pairs w r).
  assert (Hfold : ∀ (f : World → PairRef → World),
            (∀ w' r', r' ≠ r → pairs (f w' r') r = pairs w' r) →
            ∀ w', P w' → P (fold_left f (mContacts w) w')).
  { intros f Hf w' Hw'. apply (fold_left_preserves P); [|done].
    intros w'' r' Hr' Hw''. unfold P. rewrite Hf; [done|]. by intros ->. }
  change (P (repeat_loop (iterations w)
    (λ w0, fold_left (call_solvePosition Pair_solvePosition) (mContacts w) w0)
    (__solve_positions Pair_unitsPerMeter dt
      (repeat_loop (iterations w)
        (λ w0, fold_left (call_solveVelocity Pair_solveVelocity) (mContacts w) w0)
        (fold_left (call_pair Pair_preSolve) (mContacts w) (__solve_velocities dt w)))))).
  apply repeat_loop_preserves.
  { intros w'. apply Hfold. intros; by apply call_solvePosition_other. }
  unfold P. rewrite solve_positions_pairs.
  apply (repeat_loop_preserves P).
  { intros w'. apply Hfold. intros; by apply call_solveVelocity_other. }
  apply Hfold. { intros; by apply call_pair_other. }
  unfold P. by rewrite solve_velocities_pairs.
Qed.

(** C6: a maintained pair that the narrow-phase test of a step leaves
    not in collision has both accumulated impulses set to zero by the
    detection phase of that step, and the solver of the same step does
    not write it, so the impulses are zero when the step ends. *)
Theorem separated_pair_impulses_reset (dt : float) (w : World) (sc : Scene) (r : PairRef) :
  r ∈ mPairs w →
  let detected := fst (detect' (w, sc)) in
  let stepped := fst (onFixedUpdate' dt (w, sc)) in
  Pair.mInCollision (pairs detected r) = false →
  Pair.mNormalImpulse (pairs detected r) = 0%float
  ∧ Pair.mTangentImpulse (pairs detected r) = 0%float
  ∧ pairs stepped r = pairs detected r.
Proof.
  intros Hr. unfold onFixedUpdate, detect. simpl.
  set (sc' := fold_left _ (mBodies w) sc).
  set (w1 := fold_left _ (mPairs w) (set_mContacts [] w)).
  set (w2 := fold_left (narrow_test Scene Pair_test sc') (mPairs w) w1).
  destruct (collect_loop (mPairs w) w2) as (H1 & H2 & H3 & H4).
  intros Hflag. rewrite H1 in Hflag.
  destruct (H3 r Hr Hflag) as [HN HT].
  split; [done|]. split; [done|].
  apply solve_other_pairs. intros Hc.
  destruct (H4 r Hc) as [Hc'|Hc']; [|congruence].
  assert (Hnil : mContacts w2 = []).
  { unfold w2. apply (fold_left_preserves (λ w', mContacts w' = [])).
    - intros w' r' _ Hw'. unfold narrow_test.
      by destruct (Pair.mInCollision (pairs w' r')).
    - unfold w1. apply (fold_left_preserves (λ w', mContacts w' = [])); done. }
  rewrite Hnil in Hc'. by apply elem_of_nil in Hc'.
Qed.

(** *** Static bodies *)

Hypothesis solveVelocity_static : leavesStatic RigidBody.mVelocity Pair_solveVelocity.
Hypothesis solvePosition_static : leavesStatic RigidBody.mPosition Pair_solvePosition.

Lemma frozen_static b k w : frozen b k w → isStatic (bodies w b) = true.
Proof. intros [<- H]. exact H. Qed.

Lemma frozen_same_bodies b k w w' : bodies w' = bodies w → frozen b k w → frozen b k w'.
Proof. unfold frozen. by intros ->. Qed.

Lemma solve_velocities_frozen b k dt w : frozen b k w → frozen b k (__solve_velocities dt w).
Proof.
  intros Hw. unfold __solve_velocities. apply fold_left_preserves; [|done].
  intros w' b' _ Hw'. destruct (isStatic (bodies w' b')) eqn:Hs; [done|].
  unfold frozen. simpl. rewrite fn_lookup_insert_ne; [done|].
  intros ->. apply frozen_static in Hw'. congruence.
Qed.

Lemma solve_positions_frozen b k u dt w :
  frozen b k w → frozen b k (__solve_positions u dt w).
Proof.
  intros Hw. unfold __solve_positions. apply fold_left_preserves; [|done].
  intros w' b' _ Hw'.
  set (w1 := update_body b' _ w').
  assert (H1 : frozen b k w1).
  { unfold frozen, w1. simpl. destruct (decide (b' = b)) as [->|Hne].
    - rewrite fn_lookup_insert. exact Hw'.
    - by rewrite fn_lookup_insert_ne. }
  destruct (isStatic (bodies w1 b')) eqn:Hs; [done|].
  unfold frozen. simpl. rewrite fn_lookup_insert_ne; [exact H1|].
  intros ->. apply frozen_static in H1. congruence.
Qed.

Lemma call_pair_frozen m b k w r : frozen b k w → frozen b k (call_pair m w r).
Proof. by apply frozen_same_bodies. Qed.

Lemma call_solveVelocity_frozen b k w r :
  frozen b k w → frozen b k (call_solveVelocity Pair_solveVelocity w r).
Proof.
  intros Hw. pose proof (frozen_static _ _ _ Hw) as Hs.
  unfold call_solveVelocity.
  destruct (solveVelocity_static (bodies w (Pair.bodyA (pairs w r)))
              (bodies w (Pair.bodyB (pairs w r))) (pairs w r)) as [HA HB].
  destruct (Pair_solveVelocity _ _ _) as [[p' vA] vB]. simpl in *.
  destruct Hw as [Hk H0]. unfold frozen. split; [|done]. simpl.
  destruct (decide (Pair.bodyB (pairs w r) = b)) as [HeB|HneB].
  - rewrite HeB in *. rewrite fn_lookup_insert. rewrite (HB Hs).
    destruct (decide (Pair.bodyA (pairs w r) = b)) as [HeA|HneA].
    + rewrite HeA. rewrite fn_lookup_insert. by rewrite <- Hk.
    + rewrite fn_lookup_insert_ne by done. by rewrite <- Hk.
  - rewrite fn_lookup_insert_ne by done.
    destruct (decide (Pair.bodyA (pairs w r) = b)) as [HeA|HneA].
    + rewrite HeA in *. rewrite fn_lookup_insert. rewrite (HA Hs). by rewrite <- Hk.
    + by rewrite fn_lookup_insert_ne.
Qed.

Lemma call_solvePosition_frozen b k w r :
  frozen b k w → frozen b k (call_solvePosition Pair_solvePosition w r).
Proof.
  intros Hw. pose proof (frozen_static _ _ _ Hw) as Hs.
  unfold call_solvePosition.
  destruct (solvePosition_static (bodies w (Pair.bodyA (pairs w r)))
              (bodies w (Pair.bodyB (pairs w r))) (pairs w r)) as [HA HB].
  destruct (Pair_solvePosition _ _ _) as [[p' xA] xB]. simpl in *.
  destruct Hw as [Hk H0]. unfold frozen. split; [|done]. simpl.
  destruct (decide (Pair.bodyB (pairs w r) = b)) as [HeB|HneB].
  - rewrite HeB in *. rewrite fn_lookup_insert. rewrite (HB Hs).
    destruct (decide (Pair.bodyA (pairs w r) = b)) as [HeA|HneA].
    + rewrite HeA. rewrite fn_lookup_insert. by rewrite <- Hk.
    + rewrite fn_lookup_insert_ne by done. by rewrite <- Hk.
  - rewrite fn_lookup_insert_ne by done.
    destruct (decide (Pair.bodyA (pairs w r) = b)) as [HeA|HneA].
    + rewrite HeA in *. rewrite fn_lookup_insert. rewrite (HA Hs). by rewrite <- Hk.
    + by rewrite fn_lookup_insert_ne.
Qed.

Lemma solve_frozen b k dt w : frozen b k w → frozen b k (solve' dt w).
Proof.
  intros Hw. unfold __solve.
  apply repeat_loop_preserves.
  { intros w' Hw'. apply fold_left_preserves; [|done].
    intros; by apply call_solvePosition_frozen. }
  apply solve_positions_frozen.
  apply repeat_loop_preserves.
  { intros w' Hw'. apply fold_left_preserves; [|done].
    intros; by apply call_solveVelocity_frozen. }
  apply fold_left_preserves; [intros; by apply call_pair_frozen|].
  by apply solve_velocities_frozen.
Qed.

Lemma detect_bodies w sc : bodies (fst (detect' (w, sc))) = bodies w.
Proof.
  unfold detect. simpl.
  apply (fold_left_preserves (λ w', bodies w' = bodies w)).
  { intros w' r _ Hw'. unfold collect_contact.
    by destruct (Pair.mInCollision (pairs w' r)). }
  apply (fold_left_preserves (λ w', bodies w' = bodies w)).
  { intros w' r _ Hw'. unfold narrow_test.
    by destruct (Pair.mInCollision (pairs w' r)). }
  apply (fold_left_preserves (λ w', bodies w' = bodies w)); done.
Qed.

Lemma onFixedUpdate_frozen b k dt w sc :
  frozen b k w → frozen b k (fst (onFixedUpdate' dt (w, sc))).
Proof.
  intros Hw. unfold onFixedUpdate.
  pose proof (detect_bodies w sc) as Hd.
  destruct (detect' (w, sc)) as [w1 sc1]. simpl in *.
  apply solve_frozen. by apply (frozen_same_bodies b k w).
Qed.

(** C2: after any number of fixed-update steps a body whose inverse mass
    is 0 has the position and the velocity it had before them.  The two
    integration loops of [__solve] skip it; the contact methods are the
    spec's, which leave static bodies in place. *)
Theorem static_body_invariance (dts : list float) (w : World) (sc : Scene) (b : BodyRef) :
  PrimFloat.eqb (RigidBody.mInvMass (bodies w b)) 0 = true →
  let w' := fst (steps' dts (w, sc)) in
  RigidBody.mPosition (bodies w' b) = RigidBody.mPosition (bodies w b)
  ∧ RigidBody.mVelocity (bodies w' b) = RigidBody.mVelocity (bodies w b).
Proof.
  intros Hs. simpl.
  assert (Hf : frozen b (kinematics (bodies w b)) (fst (steps' dts (w, sc)))).
  { unfold steps.
    apply (fold_left_preserves (λ st, frozen b (kinematics (bodies w b)) (fst st))).
    - intros [w' sc'] dt _ Hw'. by apply onFixedUpdate_frozen.
    - split; [done|exact Hs]. }
  destruct Hf as [Hk _]. unfold kinematics in Hk.
  injection Hk as Hp Hv _. by rewrite Hp, Hv.
Qed.

End StepProperties.

Lemma separated_pair_impulses_reset_witness :
  let w := Scenario.two_bodies_after_contact in
  let detected := fst (detect unit Scenario.update_none Scenario.test_apart (w, tt)) in
  let stepped :=
    fst (onFixedUpdate unit Scenario.update_none Scenario.test_apart Scenario.preSolve_none
           Scenario.solveVelocity_push Scenario.solvePosition_push 1 1 (w, tt)) in
  Pair.mNormalImpulse (pairs w 0) = 1%float
  ∧ Pair.mNormalImpulse (pairs detected 0) = 0%float
  ∧ Pair.mTangentImpulse (pairs detected 0) = 0%float
  ∧ pairs stepped 0 = pairs detected 0.
Proof.
  split; [reflexivity|].
  apply (separated_pair_impulses_reset unit Scenario.update_none Scenario.test_apart
           Scenario.preSolve_none Scenario.solveVelocity_push Scenario.solvePosition_push
           1 1 Scenario.two_bodies_after_contact tt 0).
  - change (mPairs Scenario.two_bodies_after_contact) with [0]. left.
  - reflexivity.
Defined.

Lemma solveVelocity_push_static :
  leavesStatic RigidBody.mVelocity Scenario.solveVelocity_push.
Proof.
  intros oA oB p. unfold Scenario.solveVelocity_push. simpl.
  split; intros ->; reflexivity.
Qed.

Lemma solvePosition_push_static :
  leavesStatic RigidBody.mPosition Scenario.solvePosition_push.
Proof.
  intros oA oB p. unfold Scenario.solvePosition_push. simpl.
  split; intros ->; reflexivity.
Qed.

Lemma static_body_invariance_witness :
  let w := Scenario.two_bodies in
  let w' :=
    fst (steps unit Scenario.update_none Scenario.test_overlapping Scenario.preSolve_none
           Scenario.solveVelocity_push Scenario.solvePosition_push 1 [1; 2; 1]%float
           (w, tt)) in
  RigidBody.mPosition (bodies w' 2) = RigidBody.mPosition (bodies w 2)
  ∧ RigidBody.mVelocity (bodies w' 2) = RigidBody.mVelocity (bodies w 2).
Proof.
  apply (static_body_invariance unit Scenario.update_none Scenario.test_overlapping
           Scenario.preSolve_none Scenario.solveVelocity_push Scenario.solvePosition_push 1
           solveVelocity_push_static solvePosition_push_static
           [1; 2; 1]%float Scenario.two_bodies tt 2).
  reflexivity.
Defined.


(** ** The registry: frames *)

Lemma sameScene_refl (w : World) : sameScene w w.
Proof. by repeat split. Qed.

Lemma sameScene_trans (w1 w2 w3 : World) :
  sameScene w1 w2 → sameScene w2 w3 → sameScene w1 w3.
Proof.
  intros (Hb & Hg & Hf) (Hb' & Hg' & Hf'). split; [congruence|]. split; [congruence|].
  intros b. destruct (Hf b), (Hf' b). split; congruence.
Qed.

Lemma sameScene_cache (w w' : World) (b : BodyRef) :
  sameScene w w' → collidersCache w' b = collidersCache w b.
Proof.
  intros (_ & Hg & Hf). unfold collidersCache. destruct (Hf b) as [-> _]. by rewrite Hg.
Qed.

Lemma sameScene_shapes (w w' : World) (b : BodyRef) :
  sameScene w w' → shapes w' b = shapes w b.
Proof.
  intros H. unfold shapes. rewrite (sameScene_cache w w' b H).
  destruct H as (_ & _ & Hf). by destruct (Hf b) as [_ ->].
Qed.

Lemma sameScene_targets (w w' : World) (from : BodyRef) :
  sameScene w w' → targets w' from = targets w from.
Proof.
  intros H. unfold targets. destruct H as (Hb & Hrest). rewrite Hb.
  assert (Hs : ∀ b, shapes w' b = shapes w b).
  { intros b. by apply sameScene_shapes. }
  clear Hb. induction (mBodies w) as [|b l IH]; [done|].
  rewrite !bind_cons, IH. f_equal.
  destruct (decide (b = from)); [done|]. by rewrite Hs.
Qed.

Lemma sameScene_wf (w w' : World) : sameScene w w' → SceneWf w → SceneWf w'.
Proof.
  intros (Hb & Hg & Hf) [H1 H2 H3 H4 H5 H6]. split.
  - intros b. destruct (Hf b) as [-> _]. rewrite Hg. apply H1.
  - intros g b. rewrite Hg. destruct (Hf b) as [-> _]. apply H2.
  - intros g. rewrite Hg. apply H3.
  - intros g1 g2 c. rewrite Hg. apply H4.
  - intros b g. destruct (Hf b) as [_ ->]. rewrite Hg. apply H5.
  - intros b1 b2. destruct (Hf b1) as [_ ->], (Hf b2) as [_ ->]. apply H6.
Qed.

Lemma set_body_mPairs_sameScene (b : BodyRef) (l : list PairRef) (w : World) :
  sameScene w (set_body_mPairs b l w).
Proof.
  split; [done|]. split; [done|]. intros b'. simpl.
  destruct (decide (b = b')) as [<-|Hne].
  - by rewrite fn_lookup_insert.
  - by rewrite fn_lookup_insert_ne.
Qed.

(** ** The registry: pools *)

Lemma poolRefs_push (f : PairClass → list PairRef) (k : PairClass) (r : PairRef) :
  poolRefs (<[k := r :: f k]> f) ≡ₚ r :: poolRefs f.
Proof.
  unfold poolRefs. destruct k; simpl.
  - done.
  - symmetry. apply Permutation_middle.
  - rewrite !(assoc_L (++)). symmetry. apply Permutation_middle.
Qed.

Lemma poolRefs_pop (f : PairClass → list PairRef) (k : PairClass) (r : PairRef)
    (rest : list PairRef) :
  f k = r :: rest → poolRefs f ≡ₚ r :: poolRefs (<[k := rest]> f).
Proof.
  intros Hk. unfold poolRefs. destruct k; simpl; rewrite Hk; simpl.
  - done.
  - symmetry. apply Permutation_middle.
  - rewrite !(assoc_L (++)). symmetry. apply Permutation_middle.
Qed.

(** [pool.get()] hands out a pair object that is not maintained. *)
Lemma pool_get_spec (k : PairClass) (w : World) :
  PoolWf w →
  let r := fst (pool_get k w) in
  let w1 := snd (pool_get k w) in
(r ∉ mPairs w)
  ∧ NoDup (r :: allRefs w1)
  ∧ (∀ x, x ∈ r :: allRefs w1 → x < nextPair w1)
  ∧ mPairs w1 = mPairs w
  ∧ (∀ x, x ≠ r → pairs w1 x = pairs w x)
  ∧ bodies w1 = bodies w ∧ mBodies w1 = mBodies w ∧ gameObjects w1 = gameObjects w
  ∧ colliders w1 = colliders w.
Proof.
  intros [Hnd Hlt]. unfold pool_get.
  destruct (pool w k) as [|r rest] eqn:Hk; simpl.
  - assert (Hfresh : nextPair w ∉ allRefs w).
    { intros Hin. apply Hlt in Hin. lia. }
    split; [intros Hin; apply Hfresh, elem_of_app; by left|].
    split; [apply list.NoDup_cons; by split|].
    split; [|by repeat split; try done; intros x Hx; rewrite fn_lookup_insert_ne].
    intros x Hx. apply elem_of_cons in Hx as [->|Hx]; [lia|].
    apply Hlt in Hx. lia.
  - assert (Hperm : allRefs w ≡ₚ r :: allRefs (set_pool (<[k:=rest]> (pool w)) w)).
    { unfold allRefs. simpl. rewrite (poolRefs_pop (pool w) k r rest Hk).
      symmetry. apply Permutation_middle. }
    rewrite Hperm in Hnd.
    split.
    { apply list.NoDup_cons in Hnd as [Hr _]. intros Hin. apply Hr.
      unfold allRefs. simpl. apply elem_of_app. by left. }
    split; [done|].
    split; [|by repeat split].
    intros x Hx. apply Hlt. by rewrite Hperm.
Qed.

(** ** The registry: [__addPair] and [__addPairs] *)

Lemma Forall2_impl_elem {A B} (P Q : A → B → Prop) (l : list A) (k : list B) :
  Forall2 P l k → (∀ x y, x ∈ l → P x y → Q x y) → Forall2 Q l k.
Proof.
  induction 1 as [|x y l k Hxy _ IH]; intros HPQ; constructor.
  - apply HPQ; [left|done].
  - apply IH. intros x' y' Hx'. apply HPQ. by right.
Qed.

(** The part of [__addPair] after the pool handed out [pr]. *)
Lemma addPair_finish (w w1 : World) (pr : PairRef) (a b : ColliderRef) (bA bB : BodyRef)
    (c : ColliderRef) (from : BodyRef) (t : ColliderRef * BodyRef) :
  pr ∉ mPairs w →
  NoDup (pr :: allRefs w1) →
  (∀ x, x ∈ pr :: allRefs w1 → x < nextPair w1) →
  mPairs w1 = mPairs w →
  (∀ x, x ≠ pr → pairs w1 x = pairs w x) →
  bodies w1 = bodies w → mBodies w1 = mBodies w → gameObjects w1 = gameObjects w →
  colliders w1 = colliders w →
  (a = c ∧ bA = from ∧ b = t.1 ∧ bB = t.2) ∨ (a = t.1 ∧ bA = t.2 ∧ b = c ∧ bB = from) →
  Added c from [t] w
    (let w := set_pairs (<[pr := Pair.set a b bA bB (pairs w1 pr)]> (pairs w1)) w1 in
     let w := set_mPairs (mPairs w ++ [pr]) w in
     let w := set_mPairsHash (<[Pair.__id a b := pr]> (mPairsHash w)) w in
     let w := set_body_mPairs bA (RigidBody.mPairs (bodies w bA) ++ [pr]) w in
     let w := set_body_mPairs bB (RigidBody.mPairs (bodies w bB) ++ [pr]) w in
     w).
Proof.
  intros Hfresh Hnd Hlt HmP Hpairs Hbodies HmB Hgo Hcol Hlink.
  cbv zeta. split; [|split; [|split]].
  - (* scene *)
    eapply sameScene_trans; [|apply set_body_mPairs_sameScene].
    eapply sameScene_trans; [|apply set_body_mPairs_sameScene].
    split; [done|]. split; [done|]. intros x. simpl. by rewrite Hbodies.
  - (* pools *)
    assert (Hperm : (mPairs w1 ++ [pr]) ++ poolRefs (pool w1) ≡ₚ pr :: allRefs w1).
    { unfold allRefs. rewrite <- (assoc_L (++)). simpl.
      symmetry. apply Permutation_middle. }
    split; unfold allRefs; simpl.
    + by rewrite Hperm.
    + intros x Hx. apply Hlt. by rewrite <- Hperm.
  - intros x. simpl. by rewrite Hcol.
  - exists [pr]. simpl. split; [by rewrite HmP|]. split.
    + intros x Hx. rewrite fn_lookup_insert_ne; [|by intros ->].
      apply Hpairs. by intros ->.
    + constructor; [|constructor].
      rewrite fn_lookup_insert. unfold linked. simpl. exact Hlink.
Qed.

Lemma addPair_Added (c c' : ColliderRef) (from b' : BodyRef) (w : World) :
  PoolWf w → Added c from [(c', b')] w (__addPair c c' from b' w).
Proof.
  intros Hwf. unfold __addPair.
  destruct (Collider.isBox (colliders w c)), (Collider.isBox (colliders w c')); simpl.
  - pose proof (pool_get_spec BoxToBoxPair w Hwf) as H.
    destruct (pool_get BoxToBoxPair w) as [pr w1]. simpl in H.
    destruct H as (?&?&?&?&?&?&?&?&?). apply addPair_finish; try done. by left.
  - pose proof (pool_get_spec BoxToCirclePair w Hwf) as H.
    destruct (pool_get BoxToCirclePair w) as [pr w1]. simpl in H.
    destruct H as (?&?&?&?&?&?&?&?&?). apply addPair_finish; try done. by left.
  - pose proof (pool_get_spec BoxToCirclePair w Hwf) as H.
    destruct (pool_get BoxToCirclePair w) as [pr w1]. simpl in H.
    destruct H as (?&?&?&?&?&?&?&?&?). apply addPair_finish; try done. by right.
  - pose proof (pool_get_spec CircleToCirclePair w Hwf) as H.
    destruct (pool_get CircleToCirclePair w) as [pr w1]. simpl in H.
    destruct H as (?&?&?&?&?&?&?&?&?). apply addPair_finish; try done. by left.
Qed.

Lemma Added_nil (c : ColliderRef) (from : BodyRef) (w : World) :
  PoolWf w → Added c from [] w w.
Proof.
  intros Hwf. split; [apply sameScene_refl|]. split; [done|]. split; [done|].
  exists []. split; [by rewrite app_nil_r|]. split; [done|constructor].
Qed.

Lemma Added_trans (c : ColliderRef) (from : BodyRef) ts1 ts2 (w1 w2 w3 : World) :
  Added c from ts1 w1 w2 → Added c from ts2 w2 w3 → Added c from (ts1 ++ ts2) w1 w3.
Proof.
  intros (Hs1 & _ & Hc1 & rs1 & Hm1 & Hp1 & Hl1) (Hs2 & Hwf & Hc2 & rs2 & Hm2 & Hp2 & Hl2).
  split; [by eapply sameScene_trans|]. split; [done|].
  split; [intros x; by rewrite Hc2, Hc1|].
  exists (rs1 ++ rs2). split; [by rewrite Hm2, Hm1, (assoc_L (++))|]. split.
  - intros r Hr. rewrite Hp2; [by apply Hp1|]. rewrite Hm1. apply elem_of_app. by left.
  - apply Forall2_app; [|done].
    eapply Forall2_impl_elem; [exact Hl1|].
    intros r t Hr Ht. rewrite Hp2; [done|].
    rewrite Hm1. apply elem_of_app. by right.
Qed.

Lemma Added_PoolWf c from ts w w' : Added c from ts w w' → PoolWf w'.
Proof. by intros (_ & H & _). Qed.

Lemma Added_sameScene c from ts w w' : Added c from ts w w' → sameScene w w'.
Proof. by intros (H & _). Qed.

Lemma addPairs_inner (c : ColliderRef) (from b' : BodyRef) (cs : list ColliderRef)
    (w : World) :
  PoolWf w →
  Added c from ((λ c', (c', b')) <$> cs) w
    (fold_left (λ w c', __addPair c c' from b' w) cs w).
Proof.
  revert w. induction cs as [|c' cs IH]; intros w Hwf; simpl.
  - by apply Added_nil.
  - pose proof (addPair_Added c c' from b' w Hwf) as H1.
    apply (Added_trans c from [(c', b')] _ w _ _ H1).
    apply IH. by eapply Added_PoolWf.
Qed.

Lemma addPairs_body_Added (c : ColliderRef) (from b' : BodyRef) (w : World) :
  PoolWf w →
  Added c from (if decide (b' = from) then [] else (λ c', (c', b')) <$> shapes w b') w
    (__addPairs_body c from w b').
Proof.
  intros Hwf. unfold __addPairs_body, shapes.
  destruct (decide (b' = from)); [by apply Added_nil|].
  destruct (length (collidersCache w b') =? 0).
  - by apply addPair_Added.
  - by apply addPairs_inner.
Qed.

Lemma addPairs_outer (c : ColliderRef) (from : BodyRef) (l : list BodyRef) (w0 w : World) :
  sameScene w0 w → PoolWf w →
  Added c from
    (l ≫= λ body, if decide (body = from) then [] else (λ c', (c', body)) <$> shapes w0 body)
    w (fold_left (__addPairs_body c from) l w).
Proof.
  revert w. induction l as [|b' l IH]; intros w Hs Hwf; simpl.
  - by apply Added_nil.
  - pose proof (addPairs_body_Added c from b' w Hwf) as H1.
    rewrite (sameScene_shapes w0 w b' Hs) in H1.
    eapply Added_trans; [exact H1|].
    apply IH; [|by eapply Added_PoolWf].
    eapply sameScene_trans; [exact Hs|]. by eapply Added_sameScene.
Qed.

(** [__addPairs(collider, fromBody)] appends one pair for every shape of
    every other active body and removes none. *)
Lemma addPairs_Added (c : ColliderRef) (from : BodyRef) (w : World) :
  PoolWf w → Added c from (targets w from) w (__addPairs c from w).
Proof.
  intros Hwf. unfold __addPairs, targets.
  set (w1 := set_colliders _ w).
  assert (H1 : Added c from [] w w1).
  { split; [by repeat split|]. split; [done|]. split.
    - intros x. unfold w1. simpl. destruct (decide (c = x)) as [<-|Hne].
      + by rewrite fn_lookup_insert.
      + by rewrite fn_lookup_insert_ne.
    - exists []. split; [by rewrite app_nil_r|]. split; [done|constructor]. }
  change (mBodies w ≫= _) with ([] ++ (mBodies w ≫= λ body,
    if decide (body = from) then [] else (λ c', (c', body)) <$> shapes w body)).
  eapply Added_trans; [exact H1|].
  apply addPairs_outer; [by eapply Added_sameScene|by eapply Added_PoolWf].
Qed.

(** ** The registry: [__removePairs] *)

Lemma removePairs_at_spec (i : nat) (pr : PairRef) (w : World) :
  mPairs w !! i = Some pr → PoolWf w →
  let w' := __removePairs_at i pr w in
  sameScene w w' ∧ PoolWf w' ∧ pairs w' = pairs w ∧ colliders w' = colliders w
  ∧ mPairs w' = delete i (mPairs w).
Proof.
  intros Hi [Hnd Hlt]. unfold __removePairs_at. cbv zeta.
  assert (Hlen : i < length (mPairs w)) by (apply lookup_lt_is_Some; eauto).
  split; [|split; [|split; [done|split; [done|]]]].
  - eapply sameScene_trans; [|apply set_body_mPairs_sameScene].
    eapply sameScene_trans; [|apply set_body_mPairs_sameScene].
    by repeat split.
  - assert (Hperm : delete i (mPairs w)
        ++ poolRefs (<[Pair.constructor (pairs w pr) := pr :: pool w (Pair.constructor (pairs w pr))]>
                      (pool w))
      ≡ₚ allRefs w).
    { rewrite poolRefs_push. unfold allRefs.
      rewrite (delete_Permutation (mPairs w) i pr Hi) at 2. simpl.
      symmetry. apply Permutation_middle. }
    split; unfold allRefs; simpl; rewrite splice1_index by done.
    + by rewrite Hperm.
    + intros x Hx. apply Hlt. by rewrite <- Hperm.
  - simpl. by rewrite splice1_index.
Qed.

Lemma removePairs_test (collider : jsval) (p : Pair.t) :
  bool_decide (JCollider (Pair.a p) = collider) || bool_decide (JCollider (Pair.b p) = collider)
  = negb (bool_decide (stays collider p)).
Proof.
  unfold stays.
  destruct (decide (JCollider (Pair.a p) = collider)) as [Ha|Ha],
    (decide (JCollider (Pair.b p) = collider)) as [Hb|Hb].
  - rewrite (bool_decide_eq_true_2 _ Ha). simpl.
    rewrite bool_decide_eq_false_2; [done|]. tauto.
  - rewrite (bool_decide_eq_true_2 _ Ha). simpl.
    rewrite bool_decide_eq_false_2; [done|]. tauto.
  - rewrite (bool_decide_eq_false_2 _ Ha), (bool_decide_eq_true_2 _ Hb). simpl.
    rewrite bool_decide_eq_false_2; [done|]. tauto.
  - rewrite (bool_decide_eq_false_2 _ Ha), (bool_decide_eq_false_2 _ Hb). simpl.
    rewrite bool_decide_eq_true_2; [done|]. tauto.
Qed.

Lemma removePairs_loop_spec (collider : jsval) (n : nat) (w : World) :
  n ≤ length (mPairs w) → PoolWf w →
  let w' := __removePairs_loop collider n w in
  sameScene w w' ∧ PoolWf w' ∧ pairs w' = pairs w ∧ colliders w' = colliders w
  ∧ mPairs w' = filter (λ r, stays collider (pairs w r)) (take n (mPairs w))
                ++ drop n (mPairs w).
Proof.
  revert w. induction n as [|i IH]; intros w Hn Hwf; simpl.
  { split; [apply sameScene_refl|]. split; [done|]. split; [done|]. split; [done|].
    reflexivity. }
  destruct (lookup_lt_is_Some_2 (mPairs w) i) as [pr Hi]; [lia|].
  rewrite Hi. rewrite removePairs_test.
  rewrite (take_S_r _ _ _ Hi), filter_app.
  destruct (decide (stays collider (pairs w pr))) as [Hst|Hst].
  - rewrite (bool_decide_eq_true_2 _ Hst). simpl.
    destruct (IH w) as (H1 & H2 & H3 & H4 & H5); [lia|done|].
    split; [done|]. split; [done|]. split; [done|]. split; [done|].
    rewrite H5, (drop_S _ _ _ Hi).
    rewrite (filter_cons_True _ pr []) by done.
    rewrite filter_nil. by rewrite <- (assoc_L (++)).
  - rewrite (bool_decide_eq_false_2 _ Hst). simpl.
    destruct (removePairs_at_spec i pr w Hi Hwf) as (A1 & A2 & A3 & A4 & A5).
    destruct (IH (__removePairs_at i pr w)) as (H1 & H2 & H3 & H4 & H5); [|done|].
    { rewrite A5, length_delete; [|eauto]. lia. }
    split; [by eapply sameScene_trans|]. split; [done|].
    split; [congruence|]. split; [congruence|].
    rewrite H5, A3, A5, delete_take_drop.
    rewrite take_app_length' by (rewrite length_take_le; lia).
    rewrite drop_app_length' by (rewrite length_take_le; lia).
    rewrite (filter_cons_False _ pr []) by done.
    rewrite filter_nil. by rewrite app_nil_r.
Qed.

(** [__removePairs(collider)] drops exactly the maintained pairs that
    touch the collider and changes no pair object. *)
Lemma removePairs_Removed (collider : jsval) (w : World) :
  PoolWf w → Removed collider w (__removePairs collider w).
Proof.
  intros Hwf. unfold __removePairs.
  destruct (removePairs_loop_spec collider (length (mPairs w)) w) as (H1 & H2 & H3 & _ & H5);
    [done|done|].
  split; [done|]. split; [done|]. split; [done|].
  by rewrite H5, take_ge, drop_all, app_nil_r.
Qed.

(** Nothing is a pair of [undefined]: [__removePairs(undefined)] leaves
    the maintained pairs as they are. *)
Lemma removePairs_undefined (w : World) :
  PoolWf w → mPairs (__removePairs JUndefined w) = mPairs w.
Proof.
  intros Hwf. destruct (removePairs_Removed JUndefined w Hwf) as (_ & _ & _ & ->).
  induction (mPairs w) as [|r l IH]; [done|].
  rewrite filter_cons_True; [by rewrite IH|]. by split.
Qed.

(** ** The registry: maintained pairs as a list *)

Lemma Added_live c from ts w w' :
  Added c from ts w w' →
  ∃ ps, live w' = live w ++ ps ∧ Forall2 (linked c from) ps ts.
Proof.
  intros (_ & _ & _ & rs & Hm & Hp & Hl).
  exists (pairs w' <$> rs). split.
  - unfold live. rewrite Hm, fmap_app. f_equal.
    apply list_fmap_ext. intros i r Hr. apply Hp. by eapply list_elem_of_lookup_2.
  - by apply Forall2_fmap_l.
Qed.

Lemma Removed_live collider w w' :
  Removed collider w w' → live w' = filter (stays collider) (live w).
Proof.
  intros (_ & _ & Hp & Hm). unfold live. rewrite Hm, Hp. clear Hm.
  induction (mPairs w) as [|r l IH]; [done|].
  rewrite fmap_cons.
  destruct (decide (stays collider (pairs w r))) as [Hst|Hst].
  - rewrite !filter_cons_True by done. by rewrite fmap_cons, IH.
  - by rewrite !filter_cons_False by done.
Qed.

Lemma id_eq (a b c d : ColliderRef) :
  Pair.__id a b = Pair.__id c d ↔ (a = c ∧ b = d) ∨ (a = d ∧ b = c).
Proof.
  unfold Pair.__id.
  destruct (Nat.ltb_spec a b), (Nat.ltb_spec c d); split.
  all: try (intros [= ? ?]; lia).
  all: intros [[? ?]|[? ?]]; subst; first [reflexivity | lia | (f_equal; lia)].
Qed.

Lemma ukey_eq (p q : Pair.t) : ukey p = ukey q ↔ sameShapes p q.
Proof. apply id_eq. Qed.

Lemma linked_ukey c from p t : linked c from p t → ukey p = Pair.__id c t.1.
Proof.
  unfold ukey. intros [(-> & _ & -> & _)|(-> & _ & -> & _)]; apply id_eq; tauto.
Qed.

Lemma linked_touches c from p t : linked c from p t → touches p c.
Proof. intros [(H & _)|(_ & _ & H & _)]; [by left|by right]. Qed.

Lemma keys_filter (P : Pair.t → Prop) `{∀ p, Decision (P p)} (l : list Pair.t) :
  NoDup (ukey <$> l) → NoDup (ukey <$> filter P l).
Proof.
  induction l as [|p l IH]; [done|].
  rewrite fmap_cons, list.NoDup_cons. intros [Hp Hl].
  destruct (decide (P p)).
  - rewrite filter_cons_True by done. rewrite fmap_cons, list.NoDup_cons.
    split; [|by apply IH]. intros Hin. apply Hp.
    apply list_elem_of_fmap in Hin as (q & Hq & Hin).
    apply list_elem_of_filter in Hin as [_ Hin].
    apply list_elem_of_fmap. by exists q.
  - rewrite filter_cons_False by done. by apply IH.
Qed.

(** New pairs of one fresh collider [c] with distinct other shapes keep
    the keys distinct. *)
Lemma keys_add (c : ColliderRef) (from : BodyRef) (old ps : list Pair.t)
    (ts : list (ColliderRef * BodyRef)) :
  NoDup (ukey <$> old) →
  (∀ p, p ∈ old → ¬ touches p c) →
  Forall2 (linked c from) ps ts →
  NoDup ts.*1 → c ∉ ts.*1 →
  NoDup (ukey <$> (old ++ ps)).
Proof.
  intros Hold Hfresh Hl Hnd Hc.
  assert (Hkeys : ukey <$> ps = Pair.__id c <$> ts.*1).
  { clear -Hl. induction Hl as [|p t ps ts Hpt _ IH]; [done|].
    rewrite !fmap_cons, IH. f_equal. by eapply linked_ukey. }
  rewrite fmap_app. apply NoDup_app. split; [done|]. split.
  - intros k Hk Hk'.
    apply list_elem_of_fmap in Hk as (p & -> & Hp).
    apply list_elem_of_fmap in Hk' as (q & Hpq & Hq).
    apply ukey_eq in Hpq.
    assert (Hqc : touches q c).
    { apply list_elem_of_lookup in Hq as [i Hi].
      destruct (Forall2_lookup_l _ _ _ _ _ Hl Hi) as (t & _ & Ht).
      by eapply linked_touches. }
    apply (Hfresh p Hp). unfold touches in *. destruct Hpq as [[-> ->]|[-> ->]]; tauto.
  - rewrite Hkeys. apply NoDup_fmap_2_strong; [|done].
    intros x y Hx Hy Hxy. apply id_eq in Hxy as [[_ ?]|[-> ->]]; [done|].
    done.
Qed.

(** ** The registry: shapes and their owners *)

Lemma shapes_owns (w : World) (b : BodyRef) (c : ColliderRef) :
  c ∈ shapes w b → owns w b c.
Proof.
  unfold shapes, owns. destruct (length (collidersCache w b) =? 0).
  - rewrite list_elem_of_singleton. by left.
  - by right.
Qed.

Lemma owns_inj (w : World) (b1 b2 : BodyRef) (c : ColliderRef) :
  SceneWf w → owns w b1 c → owns w b2 c → b1 = b2.
Proof.
  intros Hwf [H1|H1] [H2|H2].
  - apply (wf_default_inj w Hwf). congruence.
  - exfalso. apply (wf_default_not_cached w Hwf b1 (RigidBody.gameObject (bodies w b2))).
    by rewrite <- H1.
  - exfalso. apply (wf_default_not_cached w Hwf b2 (RigidBody.gameObject (bodies w b1))).
    by rewrite <- H2.
  - pose proof (wf_cache_disjoint w Hwf _ _ c H1 H2) as Hg.
    pose proof (wf_body_attached w Hwf b1) as Hb1.
    pose proof (wf_body_attached w Hwf b2) as Hb2.
    rewrite Hg in Hb1. congruence.
Qed.

Lemma shapes_inj (w : World) (b1 b2 : BodyRef) (c : ColliderRef) :
  SceneWf w → c ∈ shapes w b1 → c ∈ shapes w b2 → b1 = b2.
Proof. intros Hwf H1 H2. eapply owns_inj; eauto using shapes_owns. Qed.

Lemma shapes_NoDup (w : World) (b : BodyRef) : SceneWf w → NoDup (shapes w b).
Proof.
  intros Hwf. unfold shapes. destruct (length (collidersCache w b) =? 0).
  - apply NoDup_singleton.
  - apply (wf_cache_nodup w Hwf).
Qed.

Lemma targets_elem (w : World) (from : BodyRef) (t : ColliderRef * BodyRef) :
  t ∈ targets w from ↔ t.2 ∈ mBodies w ∧ t.2 ≠ from ∧ t.1 ∈ shapes w t.2.
Proof.
  unfold targets. rewrite list_elem_of_bind. split.
  - intros (b' & Ht & Hb'). destruct (decide (b' = from)); [by apply elem_of_nil in Ht|].
    apply list_elem_of_fmap in Ht as (c' & -> & Hc'). by simpl.
  - intros (Hb & Hne & Hc). exists t.2. split; [|done].
    rewrite decide_False by done. apply list_elem_of_fmap. exists t.1.
    split; [by destruct t|done].
Qed.

Lemma targets_fst_elem (w : World) (from : BodyRef) (x : ColliderRef) :
  x ∈ (targets w from).*1 → ∃ b', b' ∈ mBodies w ∧ b' ≠ from ∧ x ∈ shapes w b'.
Proof.
  intros Hx. apply list_elem_of_fmap in Hx as (t & -> & Ht).
  apply targets_elem in Ht. by exists t.2.
Qed.

Lemma fst_tagged {A B} (b : B) (l : list A) : ((λ c, (c, b)) <$> l).*1 = l.
Proof. induction l as [|x l IH]; [done|]. rewrite !fmap_cons, IH. done. Qed.

Lemma targets_fst_NoDup (w : World) (from : BodyRef) :
  SceneWf w → NoDup (mBodies w) → NoDup (targets w from).*1.
Proof.
  intros Hwf. unfold targets.
  induction (mBodies w) as [|b l IH]; intros Hnd; [constructor|].
  apply list.NoDup_cons in Hnd as [Hb Hnd].
  rewrite bind_cons, fmap_app. apply NoDup_app. split; [|split; [|by apply IH]].
  - destruct (decide (b = from)); [constructor|].
    rewrite fst_tagged. by apply shapes_NoDup.
  - intros x Hx Hx'.
    destruct (decide (b = from)); [by apply elem_of_nil in Hx|].
    apply list_elem_of_fmap in Hx as (t & -> & Ht).
    apply list_elem_of_fmap in Ht as (c' & -> & Hc'). simpl in Hx'.
    apply list_elem_of_fmap in Hx' as (t' & Heq & Ht').
    apply list_elem_of_bind in Ht' as (b' & Ht' & Hb').
    destruct (decide (b' = from)); [by apply elem_of_nil in Ht'|].
    apply list_elem_of_fmap in Ht' as (c'' & -> & Hc''). simpl in Heq. subst c''.
    apply Hb. by rewrite (shapes_inj w b b' c' Hwf Hc' Hc'').
Qed.

(** One call of [__addPairs] for a collider no maintained pair touches. *)
Lemma addPairs_step (c : ColliderRef) (from : BodyRef) (w : World) :
  SceneWf w → PoolWf w → NoDup (mBodies w) → NoDup (ukey <$> live w) →
  (∀ p, p ∈ live w → ¬ touches p c) →
  (∀ b', b' ∈ mBodies w → b' ≠ from → c ∉ shapes w b') →
  let w' := __addPairs c from w in
  sameScene w w' ∧ PoolWf w' ∧ NoDup (ukey <$> live w')
  ∧ ∃ ps, live w' = live w ++ ps
          ∧ Forall (λ p, ∃ t, t ∈ targets w from ∧ linked c from p t) ps.
Proof.
  intros Hwf Hpool Hnd Hkeys Hfresh Hc. simpl.
  pose proof (addPairs_Added c from w Hpool) as Hadd.
  destruct (Added_live _ _ _ _ _ Hadd) as (ps & Hlive & Hl).
  split; [by eapply Added_sameScene|]. split; [by eapply Added_PoolWf|]. split.
  - rewrite Hlive. eapply keys_add; eauto.
    + by apply targets_fst_NoDup.
    + intros Hin. apply targets_fst_elem in Hin as (b' & Hb' & Hne & Hin).
      by apply (Hc b' Hb' Hne).
  - exists ps. split; [done|].
    apply Forall_lookup. intros i p Hi.
    destruct (Forall2_lookup_l _ _ _ _ _ Hl Hi) as (t & Ht & Hpt).
    exists t. split; [|done]. by eapply list_elem_of_lookup_2.
Qed.

Lemma linked_linkOkL (c : ColliderRef) (from : BodyRef) (w : World)
    (L : list BodyRef) (S : BodyRef → ColliderRef → Prop) (p : Pair.t)
    (t : ColliderRef * BodyRef) :
  t ∈ targets w from → linked c from p t →
  from ∈ L → (∀ b', b' ∈ mBodies w → b' ∈ L) →
  S from c → (∀ b' x, b' ∈ mBodies w → b' ≠ from → x ∈ shapes w b' → S b' x) →
  linkOkL L S p.
Proof.
  intros Ht Hl Hfrom HL HSc HS.
  apply targets_elem in Ht as (Hb & Hne & Hx).
  unfold linkOkL.
  destruct Hl as [(Ha & HA & Hb' & HB)|(Ha & HA & Hb' & HB)]; rewrite Ha, HA, Hb', HB.
  - repeat split; auto.
  - repeat split; auto.
Qed.

(** ** The registry: [__addBody] *)

Lemma PoolWf_same (w w' : World) :
  mPairs w' = mPairs w → pool w' = pool w → nextPair w' = nextPair w → PoolWf w → PoolWf w'.
Proof. unfold PoolWf, allRefs. by intros -> -> ->. Qed.

Lemma SceneWf_set_mBodies (l : list BodyRef) (w : World) :
  SceneWf w → SceneWf (set_mBodies l w).
Proof. intros [H1 H2 H3 H4 H5 H6]. by split. Qed.

Lemma shapes_set_mBodies (l : list BodyRef) (w : World) (b : BodyRef) :
  shapes (set_mBodies l w) b = shapes w b.
Proof. done. Qed.

Section AddBody.

Variables (w : World) (b : BodyRef).
Hypothesis Hinv : Inv w.
Hypothesis Hb : b ∉ mBodies w.

Local Abbreviation S_done := (addBodyShapes w b).
Local Abbreviation J := (addBodyInv w b).

Lemma addBody_loop (cs done_ : list ColliderRef) (w' : World) :
  NoDup (done_ ++ cs) → (∀ x, x ∈ done_ ++ cs → x ∈ shapes w b) →
  J done_ w' → J (done_ ++ cs) (fold_left (λ w c, __addPairs c b w) cs w').
Proof.
  revert done_ w'. induction cs as [|c cs IH]; intros done_ w' Hnd Hsh HJ; simpl.
  { by rewrite app_nil_r. }
  destruct HJ as (Hs & Hpool & Hkeys & Hlinks).
  assert (Hwf' : SceneWf w') by (eapply sameScene_wf; [exact Hs|apply Hinv]).
  assert (HmB : mBodies w' = mBodies w) by apply Hs.
  assert (Hcb : c ∈ shapes w b).
  { apply Hsh, elem_of_app. right. left. }
  assert (Hcd : c ∉ done_).
  { apply NoDup_app in Hnd as (_ & Hd & _). intros Hc. apply (Hd c Hc). left. }
  assert (Hfresh : ∀ p, p ∈ live w' → ¬ touches p c).
  { intros p Hp Ht. rewrite Forall_forall in Hlinks.
    destruct (Hlinks p Hp) as (HA & HB & _ & HSa & HSb).
    unfold addBodyShapes in HSa, HSb. destruct Ht as [Ht|Ht]; rewrite Ht in *.
    - destruct (decide (Pair.bodyA p = b)) as [He|Hne]; [done|].
      apply Hne. by apply (shapes_inj w _ _ c (inv_scene w Hinv)).
    - destruct (decide (Pair.bodyB p = b)) as [He|Hne]; [done|].
      apply Hne. by apply (shapes_inj w _ _ c (inv_scene w Hinv)). }
  destruct (addPairs_step c b w' Hwf' Hpool) as (Hs2 & Hpool2 & Hkeys2 & ps & Hlive & Hps);
    try done.
  { rewrite HmB. apply Hinv. }
  { intros b' Hb' Hne Hc. rewrite (sameScene_shapes w w' b' Hs) in Hc.
    apply Hne. by apply (shapes_inj w _ _ c (inv_scene w Hinv)). }
  replace (done_ ++ c :: cs) with ((done_ ++ [c]) ++ cs) in * by (by rewrite <- (assoc_L (++))).
  apply IH; [done|done|].
  split; [by eapply sameScene_trans|]. split; [done|]. split; [done|].
  rewrite Hlive. apply Forall_app. split.
  - eapply Forall_impl; [exact Hlinks|].
    intros p (HA & HB & Hne & HSa & HSb). repeat split; try done.
    + unfold addBodyShapes in *. destruct (decide (Pair.bodyA p = b)); [|done].
      apply elem_of_app. by left.
    + unfold addBodyShapes in *. destruct (decide (Pair.bodyB p = b)); [|done].
      apply elem_of_app. by left.
  - eapply Forall_impl; [exact Hps|].
    intros p (t & Ht & Hl). eapply (linked_linkOkL c b w'); eauto.
    + apply elem_of_app. right. left.
    + intros b' Hb'. rewrite HmB in Hb'. apply elem_of_app. by left.
    + unfold addBodyShapes. rewrite decide_True by done. apply elem_of_app. right. left.
    + intros b' x Hb' Hne Hx. unfold addBodyShapes. rewrite decide_False by done.
      by rewrite <- (sameScene_shapes w w' b' Hs).
Qed.

Lemma addBody_Inv : Inv (__addBody b w).
Proof.
  unfold __addBody.
  set (w0 := set_body_mPairs b [] w).
  assert (Hs0 : sameScene w w0) by apply set_body_mPairs_sameScene.
  assert (HJ0 : J [] w0).
  { split; [done|]. split; [by apply (PoolWf_same w); try done; apply Hinv|].
    split; [apply Hinv|].
    eapply Forall_impl; [apply (inv_links w Hinv)|].
    intros p (HA & HB & Hne & HSa & HSb).
    split; [apply elem_of_app; by left|]. split; [apply elem_of_app; by left|].
    split; [done|]. split.
    - unfold addBodyShapes. rewrite decide_False; [done|]. by intros <-.
    - unfold addBodyShapes. rewrite decide_False; [done|]. by intros <-. }
  assert (Hloop : J (shapes w b)
    (if length (collidersCache w b) =? 0
     then __addPairs (RigidBody.mCollider (bodies w0 b)) b w0
     else fold_left (λ w1 c, __addPairs c b w1) (collidersCache w b) w0)).
  { assert (Hmc : RigidBody.mCollider (bodies w0 b) = RigidBody.mCollider (bodies w b)).
    { destruct Hs0 as (_ & _ & Hf). apply Hf. }
    assert (Heq : (if length (collidersCache w b) =? 0
                   then __addPairs (RigidBody.mCollider (bodies w0 b)) b w0
                   else fold_left (λ w1 c, __addPairs c b w1) (collidersCache w b) w0)
                  = fold_left (λ w1 c, __addPairs c b w1) (shapes w b) w0).
    { rewrite Hmc. unfold shapes. by destruct (length (collidersCache w b) =? 0). }
    rewrite Heq. apply (addBody_loop (shapes w b) [] w0); [|done|done].
    by apply shapes_NoDup, Hinv. }
  destruct Hloop as (Hs & Hpool & Hkeys & Hlinks).
  set (w1 := if length (collidersCache w b) =? 0 then _ else _) in *.
  split.
  - apply SceneWf_set_mBodies. eapply sameScene_wf; [exact Hs|apply Hinv].
  - by apply (PoolWf_same w1).
  - simpl. destruct Hs as (-> & _). apply NoDup_app. split; [apply Hinv|].
    split; [|apply NoDup_singleton].
    intros x Hx Hx'. apply list_elem_of_singleton in Hx' as ->. done.
  - unfold linkOk. simpl.
    change (Forall (linkOkL (mBodies w1 ++ [b]) (λ body c, c ∈ shapes w1 body)) (live w1)).
    destruct Hs as (HmB & Hrest). rewrite HmB.
    eapply Forall_impl; [exact Hlinks|].
    intros p (HA & HB & Hne & HSa & HSb). repeat split; try done.
    + rewrite (sameScene_shapes w w1 _ (conj HmB Hrest)).
      unfold addBodyShapes in HSa. by destruct (decide (Pair.bodyA p = b)) as [->|].
    + rewrite (sameScene_shapes w w1 _ (conj HmB Hrest)).
      unfold addBodyShapes in HSb. by destruct (decide (Pair.bodyB p = b)) as [->|].
  - exact Hkeys.
Qed.

End AddBody.

(** ** The registry: [__removeBody] *)

Lemma stays_collider (c : ColliderRef) (p : Pair.t) : stays (JCollider c) p ↔ ¬ touches p c.
Proof.
  unfold stays, touches. split.
  - intros [Ha Hb] [H|H]; [apply Ha|apply Hb]; by rewrite H.
  - intros H. split; intros [= Heq]; apply H; [by left|by right].
Qed.

(** One call of [__removePairs] for a collider. *)
Lemma removePairs_step (c : ColliderRef) (P : Pair.t → Prop) (w : World) :
  PoolWf w → NoDup (ukey <$> live w) → Forall P (live w) →
  let w' := __removePairs (JCollider c) w in
  sameScene w w' ∧ PoolWf w' ∧ NoDup (ukey <$> live w')
  ∧ Forall (λ p, P p ∧ ¬ touches p c) (live w').
Proof.
  intros Hpool Hkeys HP. simpl.
  pose proof (removePairs_Removed (JCollider c) w Hpool) as Hrem.
  pose proof (Removed_live _ _ _ Hrem) as Hlive.
  destruct Hrem as (Hs & Hpool' & _ & _).
  split; [done|]. split; [done|]. rewrite Hlive. split; [by apply keys_filter|].
  apply Forall_forall. intros p Hp. apply list_elem_of_filter in Hp as [Hst Hp].
  split; [|by apply stays_collider]. rewrite Forall_forall in HP. by apply HP.
Qed.

Lemma removePairs_loop_step (cs : list ColliderRef) (P : Pair.t → Prop) (w : World) :
  PoolWf w → NoDup (ukey <$> live w) → Forall P (live w) →
  let w' := fold_left (λ w c, __removePairs (JCollider c) w) cs w in
  sameScene w w' ∧ PoolWf w' ∧ NoDup (ukey <$> live w')
  ∧ Forall (λ p, P p ∧ ∀ c, c ∈ cs → ¬ touches p c) (live w').
Proof.
  revert P w. induction cs as [|c cs IH]; intros P w Hpool Hkeys HP; simpl.
  - split; [apply sameScene_refl|]. split; [done|]. split; [done|].
    eapply Forall_impl; [exact HP|]. intros p Hp. split; [done|].
    intros c Hc. by apply elem_of_nil in Hc.
  - destruct (removePairs_step c P w Hpool Hkeys HP) as (Hs1 & Hpool1 & Hkeys1 & HP1).
    destruct (IH _ _ Hpool1 Hkeys1 HP1) as (Hs2 & Hpool2 & Hkeys2 & HP2).
    split; [by eapply sameScene_trans|]. split; [done|]. split; [done|].
    eapply Forall_impl; [exact HP2|]. intros p [[Hp Hc] Hcs]. split; [done|].
    intros c' Hc'. apply elem_of_cons in Hc' as [->|Hc']; [done|by apply Hcs].
Qed.

Lemma indexOf_from_lookup (l : list nat) (x : nat) (k : Z) :
  x ∈ l → ∃ i, l !! i = Some x ∧ JS.indexOf_from l x k = (k + Z.of_nat i)%Z.
Proof.
  revert k. induction l as [|y l IH]; intros k Hx; [by apply elem_of_nil in Hx|].
  simpl. destruct (decide (y = x)) as [->|Hne].
  - exists 0. split; [done|lia].
  - apply elem_of_cons in Hx as [->|Hx]; [done|].
    destruct (IH (k + 1)%Z Hx) as (i & Hi & Hk). exists (S i). split; [done|lia].
Qed.

(** [l.splice(l.indexOf(x), 1)] removes [x] from an array that holds it
    once. *)
Lemma splice_indexOf (l : list nat) (x : nat) :
  NoDup l → x ∈ l →
  let l' := JS.splice1 (JS.indexOf l x) l in
  NoDup l' ∧ ∀ y, y ∈ l' ↔ y ∈ l ∧ y ≠ x.
Proof.
  intros Hnd Hx. simpl.
  destruct (indexOf_from_lookup l x 0 Hx) as (i & Hi & Hk).
  unfold JS.indexOf. rewrite Hk, Z.add_0_l.
  rewrite splice1_index by (apply lookup_lt_is_Some; eauto).
  pose proof (delete_Permutation l i x Hi) as Hperm.
  assert (Hmem : ∀ y, y ∈ l ↔ y = x ∨ y ∈ delete i l).
  { intros y. rewrite <- elem_of_cons. by rewrite <- Hperm. }
  rewrite Hperm in Hnd. apply list.NoDup_cons in Hnd as [Hnx Hnd].
  split; [done|]. intros y. rewrite Hmem. split.
  - intros Hy. split; [by right|]. by intros ->.
  - intros [[->|Hy] Hne]; done.
Qed.

Lemma removeBody_Inv (w : World) (b : BodyRef) :
  Inv w → b ∈ mBodies w → Inv (__removeBody b w).
Proof.
  intros Hinv Hb. unfold __removeBody.
  assert (Heq : (if length (collidersCache w b) =? 0
                 then __removePairs (JCollider (RigidBody.mCollider (bodies w b))) w
                 else fold_left (λ w0 c, __removePairs (JCollider c) w0) (collidersCache w b) w)
                = fold_left (λ w0 c, __removePairs (JCollider c) w0) (shapes w b) w).
  { unfold shapes. by destruct (length (collidersCache w b) =? 0). }
  rewrite Heq.
  destruct (removePairs_loop_step (shapes w b) (linkOk w) w)
    as (Hs & Hpool & Hkeys & Hlinks); try apply Hinv.
  set (w1 := fold_left _ (shapes w b) w) in *.
  set (w2 := set_body_mPairs b [] w1).
  assert (Hs2 : sameScene w w2).
  { eapply sameScene_trans; [exact Hs|apply set_body_mPairs_sameScene]. }
  assert (HmB : mBodies w2 = mBodies w) by apply Hs2.
  destruct (splice_indexOf (mBodies w2) b) as [Hnd' Hel]; [rewrite HmB; apply Hinv|by rewrite HmB|].
  split.
  - apply SceneWf_set_mBodies. eapply sameScene_wf; [exact Hs2|apply Hinv].
  - by apply (PoolWf_same w1).
  - exact Hnd'.
  - unfold linkOk. simpl.
    change (Forall (linkOkL (JS.splice1 (JS.indexOf (mBodies w2) b) (mBodies w2))
                      (λ body c, c ∈ shapes w2 body)) (live w1)).
    eapply Forall_impl; [exact Hlinks|].
    intros p [(HA & HB & Hne & HSa & HSb) Hnt].
    assert (HnA : Pair.bodyA p ≠ b).
    { intros He. rewrite He in HSa. apply (Hnt _ HSa). by left. }
    assert (HnB : Pair.bodyB p ≠ b).
    { intros He. rewrite He in HSb. apply (Hnt _ HSb). by right. }
    repeat split; try done.
    + apply Hel. by rewrite HmB.
    + apply Hel. by rewrite HmB.
    + by rewrite (sameScene_shapes w w2 _ Hs2).
    + by rewrite (sameScene_shapes w w2 _ Hs2).
  - exact Hkeys.
Qed.

(** ** The registry: colliders attached and detached *)

Lemma attach_cache (g g' : GameObjectRef) (c : ColliderRef) (w : World) :
  GameObject.mCollidersCache (gameObjects (attachCollider g c w) g')
  = if decide (g = g') then GameObject.mCollidersCache (gameObjects w g) ++ [c]
    else GameObject.mCollidersCache (gameObjects w g').
Proof.
  unfold attachCollider. simpl. destruct (decide (g = g')) as [<-|Hne].
  - by rewrite fn_lookup_insert.
  - by rewrite fn_lookup_insert_ne.
Qed.

Lemma attach_rigidBody (g g' : GameObjectRef) (c : ColliderRef) (w : World) :
  GameObject.rigidBody (gameObjects (attachCollider g c w) g')
  = GameObject.rigidBody (gameObjects w g').
Proof.
  unfold attachCollider. simpl. destruct (decide (g = g')) as [<-|Hne].
  - by rewrite fn_lookup_insert.
  - by rewrite fn_lookup_insert_ne.
Qed.

Lemma detach_cache (g g' : GameObjectRef) (c : ColliderRef) (w : World) :
  GameObject.mCollidersCache (gameObjects (detachCollider g c w) g')
  = if decide (g = g') then filter (λ x, x ≠ c) (GameObject.mCollidersCache (gameObjects w g))
    else GameObject.mCollidersCache (gameObjects w g').
Proof.
  unfold detachCollider. simpl. destruct (decide (g = g')) as [<-|Hne].
  - by rewrite fn_lookup_insert.
  - by rewrite fn_lookup_insert_ne.
Qed.

Lemma detach_rigidBody (g g' : GameObjectRef) (c : ColliderRef) (w : World) :
  GameObject.rigidBody (gameObjects (detachCollider g c w) g')
  = GameObject.rigidBody (gameObjects w g').
Proof.
  unfold detachCollider. simpl. destruct (decide (g = g')) as [<-|Hne].
  - by rewrite fn_lookup_insert.
  - by rewrite fn_lookup_insert_ne.
Qed.

Lemma attach_wf (g : GameObjectRef) (c : ColliderRef) (w : World) :
  SceneWf w → opOk w (AddShape g c) → SceneWf (attachCollider g c w).
Proof.
  intros [H1 H2 H3 H4 H5 H6] [Hc Hd]. split.
  - intros b. rewrite attach_rigidBody. apply H1.
  - intros g' b. rewrite attach_rigidBody. apply H2.
  - intros g'. rewrite attach_cache. destruct (decide (g = g')); [|apply H3].
    apply NoDup_app. split; [apply H3|]. split; [|apply NoDup_singleton].
    intros x Hx Hx'. apply list_elem_of_singleton in Hx' as ->. by apply (Hc g).
  - intros g1 g2 x. rewrite !attach_cache.
    destruct (decide (g = g1)) as [<-|Hn1], (decide (g = g2)) as [<-|Hn2]; try done.
    + intros Hx1 Hx2. apply elem_of_app in Hx1 as [Hx1|Hx1]; [by apply (H4 g g2 x)|].
      apply list_elem_of_singleton in Hx1 as ->. by destruct (Hc g2).
    + intros Hx1 Hx2. apply elem_of_app in Hx2 as [Hx2|Hx2]; [by apply (H4 g1 g x)|].
      apply list_elem_of_singleton in Hx2 as ->. by destruct (Hc g1).
    + apply H4.
  - intros b g'. rewrite attach_cache. destruct (decide (g = g')); [|apply H5].
    intros Hx. apply elem_of_app in Hx as [Hx|Hx]; [by apply (H5 b g)|].
    apply list_elem_of_singleton in Hx. by apply (Hd b).
  - apply H6.
Qed.

Lemma detach_wf (g : GameObjectRef) (c : ColliderRef) (w : World) :
  SceneWf w → SceneWf (detachCollider g c w).
Proof.
  intros [H1 H2 H3 H4 H5 H6]. split.
  - intros b. rewrite detach_rigidBody. apply H1.
  - intros g' b. rewrite detach_rigidBody. apply H2.
  - intros g'. rewrite detach_cache. destruct (decide (g = g')); [|apply H3].
    apply NoDup_filter, H3.
  - intros g1 g2 x. rewrite !detach_cache.
    destruct (decide (g = g1)) as [<-|Hn1], (decide (g = g2)) as [<-|Hn2]; try done.
    + intros Hx1 Hx2. apply list_elem_of_filter in Hx1 as [_ Hx1]. by apply (H4 g g2 x).
    + intros Hx1 Hx2. apply list_elem_of_filter in Hx2 as [_ Hx2]. by apply (H4 g1 g x).
    + apply H4.
  - intros b g'. rewrite detach_cache. destruct (decide (g = g')); [|apply H5].
    intros Hx. apply list_elem_of_filter in Hx as [_ Hx]. by apply (H5 b g).
  - apply H6.
Qed.

Lemma object_of_other_body (w : World) (g : GameObjectRef) (body b' : BodyRef) :
  SceneWf w → GameObject.rigidBody (gameObjects w g) = Some body → b' ≠ body →
  RigidBody.gameObject (bodies w b') ≠ g.
Proof.
  intros Hwf Hg Hne He. pose proof (wf_body_attached w Hwf b') as Hb'.
  rewrite He in Hb'. congruence.
Qed.

Lemma object_without_body (w : World) (g : GameObjectRef) (b' : BodyRef) :
  SceneWf w → GameObject.rigidBody (gameObjects w g) = None →
  RigidBody.gameObject (bodies w b') ≠ g.
Proof.
  intros Hwf Hg He. pose proof (wf_body_attached w Hwf b') as Hb'.
  rewrite He in Hb'. congruence.
Qed.

(** The shapes of a body depend on its default collider and on the cache
    of its game object only. *)
Lemma shapes_ext (w w1 : World) (b : BodyRef) :
  bodies w1 = bodies w →
  GameObject.mCollidersCache (gameObjects w1 (RigidBody.gameObject (bodies w b)))
  = GameObject.mCollidersCache (gameObjects w (RigidBody.gameObject (bodies w b))) →
  shapes w1 b = shapes w b.
Proof. intros Hb Hc. unfold shapes, collidersCache. by rewrite Hb, Hc. Qed.

(** A change of the scene graph that the active bodies do not see keeps
    the invariant. *)
Lemma Inv_scene_change (w w1 : World) :
  SceneWf w1 →
  mBodies w1 = mBodies w → mPairs w1 = mPairs w → pairs w1 = pairs w →
  pool w1 = pool w → nextPair w1 = nextPair w →
  (∀ b, b ∈ mBodies w → shapes w1 b = shapes w b) →
  Inv w → Inv w1.
Proof.
  intros Hwf HmB HmP Hp Hpool Hnext Hsh Hinv.
  assert (Hlive : live w1 = live w) by (unfold live; by rewrite HmP, Hp).
  split; [done|by apply (PoolWf_same w); try done; apply Hinv| | |].
  - rewrite HmB. apply Hinv.
  - rewrite Hlive. unfold linkOk. rewrite HmB.
    eapply Forall_impl; [apply (inv_links w Hinv)|].
    intros p (HA & HB & Hne & HSa & HSb). repeat split; try done.
    + by rewrite Hsh.
    + by rewrite Hsh.
  - rewrite Hlive. apply Hinv.
Qed.

(** No maintained pair touches a collider that is attached nowhere and
    is nobody's default collider. *)
Lemma unattached_untouched (w : World) (c : ColliderRef) (p : Pair.t) :
  Inv w → opOk w (AddShape 0 c) → p ∈ live w → ¬ touches p c.
Proof.
  intros Hinv [Hc Hd] Hp Ht.
  pose proof (inv_links w Hinv) as Hl. rewrite Forall_forall in Hl.
  destruct (Hl p Hp) as (_ & _ & _ & HSa & HSb).
  apply shapes_owns in HSa, HSb.
  destruct Ht as [Ht|Ht]; rewrite Ht in *.
  - destruct HSa as [He|Hin]; [by apply (Hd (Pair.bodyA p))|by apply (Hc _ Hin)].
  - destruct HSb as [He|Hin]; [by apply (Hd (Pair.bodyB p))|by apply (Hc _ Hin)].
Qed.

(** ** The registry: [__addCollider] and [__removeCollider] *)

Lemma addShape_Inv (w : World) (g : GameObjectRef) (c : ColliderRef) :
  Inv w → opOk w (AddShape g c) → Inv (apply w (AddShape g c)).
Proof.
  intros Hinv Hok. simpl. set (w1 := attachCollider g c w).
  pose proof (inv_scene w Hinv) as Hwf.
  assert (Hwf1 : SceneWf w1) by (by apply attach_wf).
  assert (Hb1 : bodies w1 = bodies w) by done.
  assert (Hsh_other : ∀ b', RigidBody.gameObject (bodies w b') ≠ g → shapes w1 b' = shapes w b').
  { intros b' Hne. apply shapes_ext; [done|]. unfold w1. rewrite attach_cache.
    rewrite decide_False; [done|]. congruence. }
  unfold __addCollider.
  rewrite (attach_rigidBody g g c w : GameObject.rigidBody (gameObjects w1 g) = _).
  destruct (GameObject.rigidBody (gameObjects w g)) as [body|] eqn:Hg.
  2: { apply (Inv_scene_change w w1); try done.
       intros b _. apply Hsh_other. by apply object_without_body. }
  destruct (bool_decide (JS.indexOf (mBodies w1) body ≠ (-1)%Z)) eqn:Hact.
  2: { apply bool_decide_eq_false in Hact.
       assert (Hnb : body ∉ mBodies w).
       { intros Hin. apply Hact. by apply indexOf_present. }
       apply (Inv_scene_change w w1); try done.
       intros b Hb. apply Hsh_other. eapply object_of_other_body; eauto.
       by intros ->. }
  apply bool_decide_eq_true in Hact. apply indexOf_present in Hact.
  change (mBodies w1) with (mBodies w) in Hact.
  pose proof (wf_body_of_object w Hwf g body Hg) as Hgo.
  assert (Hsh_body : shapes w1 body = GameObject.mCollidersCache (gameObjects w g) ++ [c]).
  { unfold shapes, collidersCache. rewrite Hb1, Hgo. unfold w1. rewrite attach_cache.
    rewrite decide_True by done. rewrite length_app. simpl.
    by rewrite Nat.add_1_r. }
  assert (Hfresh : ∀ p, p ∈ live w1 → ¬ touches p c).
  { intros p Hp. apply (unattached_untouched w c p Hinv); [exact Hok|exact Hp]. }
  assert (Hother : ∀ b', b' ∈ mBodies w1 → b' ≠ body → c ∉ shapes w1 b').
  { intros b' Hb' Hne Hc. rewrite Hsh_other in Hc by (by eapply object_of_other_body).
    apply shapes_owns in Hc. destruct Hok as [Hc1 Hc2].
    destruct Hc as [He|Hin]; [by apply (Hc2 b')|by apply (Hc1 _ Hin)]. }
  destruct (addPairs_step c body w1 Hwf1) as (Hs2 & Hpool2 & Hkeys2 & ps & Hlive2 & Hps);
    try done; try apply Hinv.
  set (w2 := __addPairs c body w1) in *.
  assert (Hwf2 : SceneWf w2) by (by eapply sameScene_wf).
  assert (HmB2 : mBodies w2 = mBodies w) by apply Hs2.
  assert (Hsh2 : ∀ b', shapes w2 b' = shapes w1 b') by (intros; by apply sameScene_shapes).
  assert (Hc2 : GameObject.mCollidersCache (gameObjects w2 g)
                = GameObject.mCollidersCache (gameObjects w g) ++ [c]).
  { destruct Hs2 as (_ & -> & _). unfold w1. rewrite attach_cache. by rewrite decide_True. }
  assert (Hmc2 : RigidBody.mCollider (bodies w2 body) = RigidBody.mCollider (bodies w body)).
  { destruct Hs2 as (_ & _ & Hf). by destruct (Hf body) as [_ ->]. }
  rewrite Hc2, Hmc2.
  assert (Hold : Forall (linkOk w) (live w1)) by apply Hinv.
  assert (Hnew : ∀ L S, body ∈ L → (∀ b', b' ∈ mBodies w → b' ∈ L) → S body c →
            (∀ b' x, b' ∈ mBodies w → b' ≠ body → x ∈ shapes w b' → S b' x) →
            Forall (linkOkL L S) ps).
  { intros L S HL1 HL2 HS1 HS2. eapply Forall_impl; [exact Hps|].
    intros p (t & Ht & Hl). eapply (linked_linkOkL c body w1); eauto.
    intros b' x Hb' Hne Hx. apply HS2; try done.
    rewrite <- Hsh_other; [done|]. by eapply object_of_other_body. }
  destruct (GameObject.mCollidersCache (gameObjects w g)) as [|c0 rest] eqn:Hcache.
  - (* first explicit collider: the default shape is retired *)
    simpl.
    set (d := RigidBody.mCollider (bodies w body)).
    assert (Hsb : shapes w body = [d]).
    { unfold shapes, collidersCache. by rewrite Hgo, Hcache. }
    destruct (removePairs_step d
               (linkOkL (mBodies w)
                  (λ b' x, if decide (b' = body) then x = c ∨ x = d else x ∈ shapes w b'))
               w2 Hpool2 Hkeys2) as (Hs3 & Hpool3 & Hkeys3 & Hl3).
    { rewrite Hlive2. apply Forall_app. split.
      - eapply Forall_impl; [exact Hold|].
        intros p (HA & HB & Hne & HSa & HSb). repeat split; try done.
        + destruct (decide (Pair.bodyA p = body)) as [He|]; [|done].
          rewrite He, Hsb in HSa. apply list_elem_of_singleton in HSa. by right.
        + destruct (decide (Pair.bodyB p = body)) as [He|]; [|done].
          rewrite He, Hsb in HSb. apply list_elem_of_singleton in HSb. by right.
      - apply Hnew; try done.
        + rewrite decide_True by done. by left.
        + intros b' x Hb' Hne Hx. by rewrite decide_False. }
    set (w3 := __removePairs (JCollider d) w2) in *.
    split.
    + by eapply sameScene_wf.
    + done.
    + destruct Hs3 as (-> & _). rewrite HmB2. apply Hinv.
    + unfold linkOk. destruct Hs3 as (HmB3 & Hrest3). rewrite HmB3, HmB2.
      eapply Forall_impl; [exact Hl3|].
      intros p [(HA & HB & Hne & HSa & HSb) Hnt].
      assert (Hsh3 : ∀ b', shapes w3 b' = shapes w1 b').
      { intros b'. rewrite <- Hsh2. apply sameScene_shapes. by split. }
      repeat split; try done.
      * rewrite Hsh3. destruct (decide (Pair.bodyA p = body)) as [He|Hn].
        -- rewrite He, Hsh_body. simpl. apply list_elem_of_singleton.
           destruct HSa as [?|Hd]; [done|]. exfalso. apply Hnt. by left.
        -- rewrite Hsh_other; [done|]. by eapply object_of_other_body.
      * rewrite Hsh3. destruct (decide (Pair.bodyB p = body)) as [He|Hn].
        -- rewrite He, Hsh_body. simpl. apply list_elem_of_singleton.
           destruct HSb as [?|Hd]; [done|]. exfalso. apply Hnt. by right.
        -- rewrite Hsh_other; [done|]. by eapply object_of_other_body.
    + done.
  - (* one more explicit collider *)
    replace (length ((c0 :: rest) ++ [c]) =? 1) with false
      by (simpl; rewrite length_app; simpl; by rewrite Nat.add_1_r).
    assert (Hsb : shapes w body = c0 :: rest).
    { unfold shapes, collidersCache. by rewrite Hgo, Hcache. }
    split; try done.
    + rewrite HmB2. apply Hinv.
    + unfold linkOk. rewrite HmB2, Hlive2. apply Forall_app. split.
      * eapply Forall_impl; [exact Hold|].
        intros p (HA & HB & Hne & HSa & HSb). repeat split; try done.
        -- rewrite Hsh2. destruct (decide (Pair.bodyA p = body)) as [He|Hn].
           ++ rewrite He, Hsh_body. rewrite He, Hsb in HSa. apply elem_of_app. by left.
           ++ rewrite Hsh_other; [done|]. by eapply object_of_other_body.
        -- rewrite Hsh2. destruct (decide (Pair.bodyB p = body)) as [He|Hn].
           ++ rewrite He, Hsh_body. rewrite He, Hsb in HSb. apply elem_of_app. by left.
           ++ rewrite Hsh_other; [done|]. by eapply object_of_other_body.
      * apply Hnew; try done.
        -- rewrite Hsh2, Hsh_body. apply elem_of_app. right. by apply list_elem_of_singleton.
        -- intros b' x Hb' Hne Hx. rewrite Hsh2, Hsh_other; [done|].
           by eapply object_of_other_body.
Qed.


Lemma removeShape_Inv (w : World) (g : GameObjectRef) (c : ColliderRef) :
  Inv w → opOk w (RemoveShape g c) → Inv (apply w (RemoveShape g c)).
Proof.
  intros Hinv Hok. simpl in Hok.
  change (apply w (RemoveShape g c))
    with (fst (__removeCollider (JGameObject g) (JCollider c) (detachCollider g c w))).
  set (w1 := detachCollider g c w).
  pose proof (inv_scene w Hinv) as Hwf.
  assert (Hwf1 : SceneWf w1) by (by apply detach_wf).
  assert (Hb1 : bodies w1 = bodies w) by done.
  assert (Hsh_other : ∀ b', RigidBody.gameObject (bodies w b') ≠ g → shapes w1 b' = shapes w b').
  { intros b' Hne. apply shapes_ext; [done|]. unfold w1. rewrite detach_cache.
    rewrite decide_False; [done|]. congruence. }
  unfold __removeCollider.
  rewrite (detach_rigidBody g g c w : GameObject.rigidBody (gameObjects w1 g) = _).
  destruct (GameObject.rigidBody (gameObjects w g)) as [body|] eqn:Hg.
  2: { simpl. apply (Inv_scene_change w w1); try done.
       intros b _. apply Hsh_other. by apply object_without_body. }
  destruct (bool_decide (JS.indexOf (mBodies w1) body ≠ (-1)%Z)) eqn:Hact.
  2: { apply bool_decide_eq_false in Hact.
       assert (Hnb : body ∉ mBodies w).
       { intros Hin. apply Hact. by apply indexOf_present. }
       simpl. apply (Inv_scene_change w w1); try done.
       intros b Hb. apply Hsh_other. eapply object_of_other_body; eauto.
       by intros ->. }
  apply bool_decide_eq_true in Hact. apply indexOf_present in Hact.
  change (mBodies w1) with (mBodies w) in Hact.
  pose proof (wf_body_of_object w Hwf g body Hg) as Hgo.
  set (d := RigidBody.mCollider (bodies w body)).
  assert (Hsb : shapes w body = GameObject.mCollidersCache (gameObjects w g)).
  { unfold shapes, collidersCache. rewrite Hgo.
    destruct (GameObject.mCollidersCache (gameObjects w g)); [|done].
    by apply elem_of_nil in Hok. }
  destruct (removePairs_step c (linkOk w) w1) as (Hs2 & Hpool2 & Hkeys2 & Hl2);
    try apply Hinv.
  set (w2 := __removePairs (JCollider c) w1) in *.
  assert (Hwf2 : SceneWf w2) by (by eapply sameScene_wf).
  assert (HmB2 : mBodies w2 = mBodies w) by apply Hs2.
  assert (Hsh2 : ∀ b', shapes w2 b' = shapes w1 b') by (intros; by apply sameScene_shapes).
  assert (Hc2 : GameObject.mCollidersCache (gameObjects w2 g)
                = filter (λ x, x ≠ c) (GameObject.mCollidersCache (gameObjects w g))).
  { destruct Hs2 as (_ & -> & _). unfold w1. rewrite detach_cache. by rewrite decide_True. }
  assert (Hmc2 : RigidBody.mCollider (bodies w2 body) = d).
  { destruct Hs2 as (_ & _ & Hf). by destruct (Hf body) as [_ ->]. }
  assert (Hrb2 : GameObject.rigidBody (gameObjects w2 g) = Some body).
  { destruct Hs2 as (_ & -> & _). unfold w1. by rewrite detach_rigidBody. }
  rewrite Hc2, Hmc2.
  destruct (filter (λ x, x ≠ c) (GameObject.mCollidersCache (gameObjects w g)))
    as [|c0 rest] eqn:Hcache.
  - (* last explicit collider: the default shape comes back *)
    simpl. unfold __addCollider. rewrite Hrb2.
    rewrite bool_decide_eq_true_2 by (apply indexOf_present; by rewrite HmB2).
    assert (Hall : ∀ x, x ∈ shapes w body → x = c).
    { intros x Hx. rewrite Hsb in Hx. destruct (decide (x = c)) as [|Hne]; [done|].
      assert (Hin : x ∈ filter (λ x, x ≠ c) (GameObject.mCollidersCache (gameObjects w g))).
      { by apply list_elem_of_filter. }
      rewrite Hcache in Hin. by apply elem_of_nil in Hin. }
    assert (Hsb2 : shapes w2 body = [d]).
    { rewrite Hsh2. unfold shapes, collidersCache. rewrite Hb1, Hgo.
      unfold w1. rewrite detach_cache, decide_True by done. by rewrite Hcache. }
    assert (Hdc : d ∉ GameObject.mCollidersCache (gameObjects w g)).
    { apply (wf_default_not_cached w Hwf). }
    assert (Hfresh : ∀ p, p ∈ live w2 → ¬ touches p d).
    { intros p Hp Ht. rewrite Forall_forall in Hl2.
      destruct (Hl2 p Hp) as [(HA & HB & Hne & HSa & HSb) Hnt].
      assert (Hown : owns w body d) by (by left).
      destruct Ht as [Ht|Ht]; rewrite Ht in *.
      - pose proof (owns_inj w _ _ d Hwf (shapes_owns _ _ _ HSa) Hown) as He.
        rewrite He, Hsb in HSa. done.
      - pose proof (owns_inj w _ _ d Hwf (shapes_owns _ _ _ HSb) Hown) as He.
        rewrite He, Hsb in HSb. done. }
    assert (Hother : ∀ b', b' ∈ mBodies w2 → b' ≠ body → d ∉ shapes w2 b').
    { intros b' Hb' Hne Hd. rewrite Hsh2, Hsh_other in Hd by (by eapply object_of_other_body).
      apply Hne. eapply (owns_inj w); eauto using shapes_owns. by left. }
    destruct (addPairs_step d body w2 Hwf2 Hpool2) as (Hs3 & Hpool3 & Hkeys3 & ps & Hlive3 & Hps);
      try done.
    { rewrite HmB2. apply Hinv. }
    set (w3 := __addPairs d body w2) in *.
    assert (Hc3 : GameObject.mCollidersCache (gameObjects w3 g) = []).
    { destruct Hs3 as (_ & -> & _). by rewrite Hc2. }
    rewrite Hc3. simpl.
    assert (Hsh3 : ∀ b', shapes w3 b' = shapes w2 b') by (intros; by apply sameScene_shapes).
    split.
    + by eapply sameScene_wf.
    + done.
    + destruct Hs3 as (-> & _). rewrite HmB2. apply Hinv.
    + unfold linkOk. destruct Hs3 as (HmB3 & Hrest3). rewrite HmB3, HmB2, Hlive3.
      apply Forall_app. split.
      * eapply Forall_impl; [exact Hl2|].
        intros p [(HA & HB & Hne & HSa & HSb) Hnt].
        assert (HnA : Pair.bodyA p ≠ body).
        { intros He. rewrite He in HSa. apply Hnt. left. by apply Hall. }
        assert (HnB : Pair.bodyB p ≠ body).
        { intros He. rewrite He in HSb. apply Hnt. right. by apply Hall. }
        repeat split; try done.
        -- rewrite Hsh3, Hsh2, Hsh_other; [done|]. by eapply object_of_other_body.
        -- rewrite Hsh3, Hsh2, Hsh_other; [done|]. by eapply object_of_other_body.
      * eapply Forall_impl; [exact Hps|].
        intros p (t & Ht & Hl). eapply (linked_linkOkL d body w2); eauto.
        -- by rewrite HmB2.
        -- rewrite Hsh3, Hsb2. by apply list_elem_of_singleton.
        -- intros b' x Hb' Hne Hx. by rewrite Hsh3.
    + done.
  - (* other explicit colliders remain *)
    simpl.
    assert (Hsb2 : shapes w2 body = c0 :: rest).
    { rewrite Hsh2. unfold shapes, collidersCache. rewrite Hb1, Hgo.
      unfold w1. rewrite detach_cache, decide_True by done. by rewrite Hcache. }
    split; try done.
    + rewrite HmB2. apply Hinv.
    + unfold linkOk. rewrite HmB2.
      eapply Forall_impl; [exact Hl2|].
      intros p [(HA & HB & Hne & HSa & HSb) Hnt].
      repeat split; try done.
      * destruct (decide (Pair.bodyA p = body)) as [He|Hn].
        -- rewrite He, Hsb2, <- Hcache. rewrite He, Hsb in HSa.
           apply list_elem_of_filter. split; [|done]. intros Heq. apply Hnt. by left.
        -- rewrite Hsh2, Hsh_other; [done|]. by eapply object_of_other_body.
      * destruct (decide (Pair.bodyB p = body)) as [He|Hn].
        -- rewrite He, Hsb2, <- Hcache. rewrite He, Hsb in HSb.
           apply list_elem_of_filter. split; [|done]. intros Heq. apply Hnt. by right.
        -- rewrite Hsh2, Hsh_other; [done|]. by eapply object_of_other_body.
Qed.


(** ** Pair uniqueness *)

Lemma apply_Inv (w : World) (op : Op) : Inv w → opOk w op → Inv (apply w op).
Proof.
  intros Hinv Hok. destruct op as [b|b|g c|g c].
  - by apply addBody_Inv.
  - by apply removeBody_Inv.
  - by apply addShape_Inv.
  - by apply removeShape_Inv.
Qed.

Lemma run_Inv (ops : list Op) (w : World) : Inv w → opsOk ops w → Inv (run ops w).
Proof.
  revert w. induction ops as [|op ops IH]; intros w Hinv Hok; [done|].
  destruct Hok as [Hop Hok]. apply IH; [by apply apply_Inv|done].
Qed.

Lemma Inv_initial (w : World) :
  SceneWf w → PoolWf w → mBodies w = [] → mPairs w = [] → Inv w.
Proof.
  intros Hwf Hpool HmB HmP. split; try done.
  - rewrite HmB. constructor.
  - unfold live. rewrite HmP. constructor.
  - unfold live. rewrite HmP. constructor.
Qed.

Lemma Inv_pairUnique (w : World) : Inv w → pairUnique w.
Proof.
  intros Hinv i j r1 r2 Hi Hj Hsame.
  pose proof (inv_keys w Hinv) as Hnd. rewrite NoDup_alt in Hnd.
  apply (Hnd i j (ukey (pairs w r1))).
  - unfold live. by rewrite !list_lookup_fmap, Hi.
  - unfold live. rewrite !list_lookup_fmap, Hj. simpl. f_equal.
    symmetry. by apply ukey_eq.
Qed.

Lemma Inv_noSameBodyPair (w : World) :
  Inv w →
  noSameBodyPair w
  ∧ ∀ r, r ∈ mPairs w → Pair.bodyA (pairs w r) ≠ Pair.bodyB (pairs w r).
Proof.
  intros Hinv.
  pose proof (inv_links w Hinv) as Hl. rewrite Forall_forall in Hl.
  assert (Hlive : ∀ r, r ∈ mPairs w → pairs w r ∈ live w).
  { intros r Hr. unfold live. by apply list_elem_of_fmap_2. }
  split.
  - intros r Hr body [Ha Hb].
    destruct (Hl _ (Hlive r Hr)) as (_ & _ & Hne & HSa & HSb).
    apply Hne.
    rewrite <- (owns_inj w _ _ _ (inv_scene w Hinv) Ha (shapes_owns _ _ _ HSa)).
    by rewrite <- (owns_inj w _ _ _ (inv_scene w Hinv) Hb (shapes_owns _ _ _ HSb)).
  - intros r Hr. by destruct (Hl _ (Hlive r Hr)) as (_ & _ & Hne & _).
Qed.

(** C1 as stated fails: from the empty registry, adding body 1, body 2
    and body 2 once more leaves two maintained pairs (at indices 0 and 1)
    over the same two shapes. *)
Lemma double_add_duplicates_pair :
  mBodies Example.world0 = [] ∧ mPairs Example.world0 = []
  ∧ ¬ pairUnique (run [AddBody 1; AddBody 2; AddBody 2] Example.world0).
Proof.
  split; [done|]. split; [done|]. intros H.
  specialize (H 0 1 0 1). cut (0 = 1); [discriminate|].
  apply H; [reflexivity|reflexivity|]. left. split; reflexivity.
Qed.

(** C1, amended: starting from an empty registry over a well-formed
    scene, after every sequence of addBody / removeBody / addShape /
    removeShape operations in which a body is added only while inactive,
    removed only while active, a shape is attached only while attached
    nowhere and detached only from the game object that holds it, at most
    one maintained pair exists per unordered shape combination, no
    maintained pair has both shapes owned by one body, and the two bodies
    of a maintained pair differ. *)
Theorem pair_uniqueness (w0 : World) (ops : list Op) :
  SceneWf w0 → PoolWf w0 → mBodies w0 = [] → mPairs w0 = [] →
  opsOk ops w0 →
  let w := run ops w0 in
  pairUnique w
  ∧ noSameBodyPair w
  ∧ ∀ r, r ∈ mPairs w → Pair.bodyA (pairs w r) ≠ Pair.bodyB (pairs w r).
Proof.
  intros Hwf Hpool HmB HmP Hok. simpl.
  assert (Hinv : Inv (run ops w0)).
  { apply run_Inv; [by apply Inv_initial|done]. }
  split; [by apply Inv_pairUnique|]. by apply Inv_noSameBodyPair.
Qed.

Lemma world0_SceneWf : SceneWf Example.world0.
Proof.
  split; simpl.
  - intros b. change (b + (b + 0)) with (2 * b).
    rewrite Nat.even_mul. simpl Nat.even. simpl orb. cbv iota. by rewrite (Nat.div2_double b).
  - intros g b. destruct (Nat.even g) eqn:He; [|done]. intros [= <-].
    apply Nat.even_spec in He as [m ->].
    change (Nat.div2 (2 * m) + (Nat.div2 (2 * m) + 0)) with (2 * Nat.div2 (2 * m)).
    by rewrite Nat.div2_double.
  - intros g. constructor.
  - intros g1 g2 c Hc. by apply elem_of_nil in Hc.
  - intros b g. apply not_elem_of_nil.
  - intros b1 b2. lia.
Qed.

Lemma world0_PoolWf : PoolWf Example.world0.
Proof.
  split.
  - constructor.
  - intros r Hr. by apply elem_of_nil in Hr.
Qed.

Ltac fold_add :=
  change (fix Ffix (x x0 : nat) {struct x} : nat :=
            match x with 0 => x0 | S x1 => S (Ffix x1 x0) end) with Nat.add.

Ltac eval_list :=
  match goal with
  | |- ?x ∉ ?l => let l' := eval vm_compute in l in change (x ∉ l')
  | |- ?x ∈ ?l => let l' := eval vm_compute in l in change (x ∈ l')
  end.

Ltac in_list :=
  eval_list; repeat first [ by left | right ].

Ltac not_in_list :=
  eval_list;
  let H := fresh in
  intros H; repeat (apply elem_of_cons in H as [H|H]; [discriminate|]);
  by apply elem_of_nil in H.

Lemma pair_uniqueness_witness :
  let w := run [AddBody 1; AddBody 2; AddShape 2 6; AddShape 2 8;
                RemoveShape 2 6; RemoveShape 2 8; RemoveBody 1] Example.world0 in
  pairUnique w
  ∧ noSameBodyPair w
  ∧ ∀ r, r ∈ mPairs w → Pair.bodyA (pairs w r) ≠ Pair.bodyB (pairs w r).
Proof.
  apply (pair_uniqueness Example.world0); try done.
  - apply world0_SceneWf.
  - apply world0_PoolWf.
  - cbn [opsOk opOk]. repeat split.
    + not_in_list.
    + not_in_list.
    + intros g'. destruct g' as [|[|[|g']]]; not_in_list.
    + intros b. destruct b as [|[|[|b]]]; vm_compute; fold_add; lia.
    + intros g'. destruct g' as [|[|[|g']]]; not_in_list.
    + intros b. destruct b as [|[|[|b]]]; vm_compute; fold_add; lia.
    + in_list.
    + in_list.
    + in_list.
Defined.

(** ** [__removeBody] on a body that is not tracked *)

Lemma removePairs_fold_mBodies (cs : list ColliderRef) (w : World) :
  PoolWf w →
  mBodies (fold_left (λ w0 c, __removePairs (JCollider c) w0) cs w) = mBodies w.
Proof.
  revert w. induction cs as [|c cs IH]; intros w Hpool; [done|].
  simpl. destruct (removePairs_Removed (JCollider c) w Hpool) as ((HmB & _) & Hpool' & _).
  by rewrite IH.
Qed.

(** Whatever the registry holds, removing a body that is not in
    [mBodies] drops the last body of [mBodies]: [indexOf] gives [-1] and
    [splice(-1, 1)] counts from the end. *)
Lemma removeBody_untracked (w : World) (body : BodyRef) :
  PoolWf w → body ∉ mBodies w →
  mBodies (__removeBody body w) = removelast (mBodies w).
Proof.
  intros Hpool Hb. unfold __removeBody.
  assert (Heq : (if length (collidersCache w body) =? 0
                 then __removePairs (JCollider (RigidBody.mCollider (bodies w body))) w
                 else fold_left (λ w0 c, __removePairs (JCollider c) w0)
                        (collidersCache w body) w)
                = fold_left (λ w0 c, __removePairs (JCollider c) w0) (shapes w body) w).
  { unfold shapes. by destruct (length (collidersCache w body) =? 0). }
  rewrite Heq. simpl. rewrite removePairs_fold_mBodies by done.
  replace (JS.indexOf (mBodies w) body) with (-1)%Z by (symmetry; by apply indexOf_absent).
  apply splice1_minus_one.
Qed.

(** * Further properties of the fixed step *)

Section StepExtras.

Variable Scene : Type.
Variable RigidBody_update : BodyRef → RigidBody.t → Scene → Scene.
Variable Pair_test : Scene → RigidBody.t → RigidBody.t → Pair.t → Pair.t.
Variable Pair_preSolve : RigidBody.t → RigidBody.t → Pair.t → Pair.t.
Variable Pair_solveVelocity : RigidBody.t → RigidBody.t → Pair.t → Pair.t * Vector.t * Vector.t.
Variable Pair_solvePosition : RigidBody.t → RigidBody.t → Pair.t → Pair.t * Vector.t * Vector.t.
Variable Pair_unitsPerMeter : float.

Local Abbreviation detect' := (detect Scene RigidBody_update Pair_test).
Local Abbreviation solve' :=
  (__solve Pair_preSolve Pair_solveVelocity Pair_solvePosition Pair_unitsPerMeter).
Local Abbreviation onFixedUpdate' :=
  (onFixedUpdate Scene RigidBody_update Pair_test Pair_preSolve Pair_solveVelocity
     Pair_solvePosition Pair_unitsPerMeter).

Lemma stepFrame_refl w : stepFrame w w.
Proof. by repeat split. Qed.

Lemma stepFrame_trans w1 w2 w3 : stepFrame w1 w2 → stepFrame w2 w3 → stepFrame w1 w3.
Proof.
  intros (H1 & H2 & H3 & H4 & H5 & H6) (G1 & G2 & G3 & G4 & G5 & G6).
  split; [congruence|]. split; [congruence|]. split; [congruence|].
  split; [congruence|]. split; [congruence|]. intros b. by rewrite G6, H6.
Qed.

Lemma stepFrame_update_pair r f w : stepFrame w (update_pair r f w).
Proof. by repeat split. Qed.

Lemma stepFrame_update_body b f w :
  (∀ o, bodyIdentity (f o) = bodyIdentity o) → stepFrame w (update_body b f w).
Proof.
  intros Hf. repeat split; try done. intros b'. simpl.
  destruct (decide (b = b')) as [<-|Hne].
  - by rewrite fn_lookup_insert.
  - by rewrite fn_lookup_insert_ne.
Qed.

Lemma stepFrame_fold {A} (f : World → A → World) (l : list A) (w : World) :
  (∀ w' a, stepFrame w' (f w' a)) → stepFrame w (fold_left f l w).
Proof.
  intros Hf. apply (fold_left_preserves (stepFrame w)); [|apply stepFrame_refl].
  intros w' a _ Hw'. eapply stepFrame_trans; [exact Hw'|apply Hf].
Qed.

Lemma stepFrame_repeat n (body : World → World) (w : World) :
  (∀ w', stepFrame w' (body w')) → stepFrame w (repeat_loop n body w).
Proof.
  intros Hb. apply (repeat_loop_preserves (stepFrame w)); [|apply stepFrame_refl].
  intros w' Hw'. eapply stepFrame_trans; [exact Hw'|apply Hb].
Qed.

Lemma stepFrame_solve_velocities dt w : stepFrame w (__solve_velocities dt w).
Proof.
  unfold __solve_velocities. apply stepFrame_fold. intros w' b.
  destruct (isStatic (bodies w' b)); [apply stepFrame_refl|].
  by apply stepFrame_update_body.
Qed.


Lemma stepFrame_call_solveVelocity w r :
  stepFrame w (call_solveVelocity Pair_solveVelocity w r).
Proof.
  unfold call_solveVelocity. destruct (Pair_solveVelocity _ _ _) as [[p' vA] vB].
  eapply stepFrame_trans; [|by apply stepFrame_update_body].
  eapply stepFrame_trans; [|by apply stepFrame_update_body].
  apply stepFrame_update_pair.
Qed.



Lemma stepFrame_detect w sc : stepFrame w (fst (detect' (w, sc))).
Proof.
  unfold detect. simpl.
  eapply stepFrame_trans; [|apply stepFrame_fold].
  2: { intros w' r. unfold collect_contact.
       destruct (Pair.mInCollision (pairs w' r)); [by repeat split|].
       eapply stepFrame_trans; apply stepFrame_update_pair. }
  eapply stepFrame_trans; [|apply stepFrame_fold].
  2: { intros w' r. unfold narrow_test.
       destruct (Pair.mInCollision (pairs w' r)); [|apply stepFrame_refl].
       apply stepFrame_update_pair. }
  eapply stepFrame_trans; [|apply stepFrame_fold; intros; apply stepFrame_update_pair].
  by repeat split.
Qed.


(** *** The detection phase, pair by pair *)

Lemma fold_pairs_pointwise (step : World → PairRef → World) (f : Pair.t → Pair.t)
    (l : list PairRef) (w : World) :
  NoDup l →
  (∀ w' r, bodies w' = bodies w →
     bodies (step w' r) = bodies w
     ∧ ∀ r', pairs (step w' r) r' = if decide (r = r') then f (pairs w' r) else pairs w' r') →
  let w'' := fold_left step l w in
  bodies w'' = bodies w
  ∧ ∀ r, pairs w'' r = if decide (r ∈ l) then f (pairs w r) else pairs w r.
Proof.
  intros Hnd Hstep. simpl. revert w Hstep. induction Hnd as [|r0 l Hr0 Hnd IH]; intros w Hstep.
  - split; [done|]. intros r. rewrite decide_False; [done|]. apply not_elem_of_nil.
  - simpl. destruct (Hstep w r0 eq_refl) as [Hb Hp].
    destruct (IH (step w r0)) as [IHb IHp].
    { intros w' r Hw'. rewrite Hb in Hw'. rewrite Hb. by apply Hstep. }
    split; [congruence|]. intros r. rewrite IHp.
    destruct (decide (r ∈ l)) as [Hin|Hnin].
    + rewrite (decide_True (P := r ∈ r0 :: l)) by (by right).
      rewrite Hp. rewrite decide_False; [done|]. by intros ->.
    + rewrite Hp. destruct (decide (r0 = r)) as [<-|Hne].
      * by rewrite (decide_True (P := r0 ∈ r0 :: l)) by left.
      * rewrite (decide_False (P := r ∈ r0 :: l)); [done|].
        apply not_elem_of_cons. split; [by intros ->|done].
Qed.

Lemma collect_loop_contacts (l : list PairRef) (w : World) :
  mContacts (fold_left collect_contact l w)
  = mContacts w ++ filter (λ r, Pair.mInCollision (pairs w r) = true) l.
Proof.
  revert w. induction l as [|r l IH]; intros w; simpl; [by rewrite app_nil_r|].
  rewrite IH, collect_contact_contacts.
  assert (Hf : filter (λ r0, Pair.mInCollision (pairs (collect_contact w r) r0) = true) l
               = filter (λ r0, Pair.mInCollision (pairs w r0) = true) l).
  { apply list_filter_iff. intros r0. by rewrite collect_contact_flag. }
  rewrite Hf. destruct (Pair.mInCollision (pairs w r)) eqn:Hr.
  - rewrite filter_cons_True by done. by rewrite <- (assoc_L (++)).
  - rewrite filter_cons_False by (by rewrite Hr). by rewrite app_nil_r.
Qed.

Lemma detect_contacts (w : World) (sc : Scene) :
  let detected := fst (detect' (w, sc)) in
  mContacts detected
  = filter (λ r, Pair.mInCollision (pairs detected r) = true) (mPairs w).
Proof.
  simpl. unfold detect. simpl.
  set (sc' := fold_left _ (mBodies w) sc).
  set (w1 := fold_left _ (mPairs w) (set_mContacts [] w)).
  set (w2 := fold_left (narrow_test Scene Pair_test sc') (mPairs w) w1).
  rewrite collect_loop_contacts.
  assert (Hnil : mContacts w2 = []).
  { unfold w2. apply (fold_left_preserves (λ w', mContacts w' = [])).
    - intros w' r' _ Hw'. unfold narrow_test.
      by destruct (Pair.mInCollision (pairs w' r')).
    - unfold w1. apply (fold_left_preserves (λ w', mContacts w' = [])); done. }
  rewrite Hnil. simpl. apply list_filter_iff. intros r.
  destruct (collect_loop (mPairs w) w2) as (H1 & _). by rewrite H1.
Qed.

(** X2 (contact list): after the detection phase of a step the contact
    list is the list of maintained pairs that are in collision, in
    registry order; contacts of the previous step are dropped. *)
Theorem contacts_are_colliding_pairs (w : World) (sc : Scene) :
  let detected := fst (detect' (w, sc)) in
  mContacts detected
  = filter (λ r, Pair.mInCollision (pairs detected r) = true) (mPairs w).
Proof. apply detect_contacts. Qed.

(** X3 (narrow phase): with no maintained pair listed twice, the
    detection phase of a step tests every maintained pair exactly once,
    against the refreshed scene, after setting its collision flag; the
    flag the pair had before the step plays no part. *)
Theorem detect_tests_each_pair_once (w : World) (sc : Scene) (r : PairRef) :
  NoDup (mPairs w) → r ∈ mPairs w →
  let detected := fst (detect' (w, sc)) in
  let sc' := snd (detect' (w, sc)) in
  let p := Pair.set_mInCollision true (pairs w r) in
  pairs detected r
  = settle (Pair_test sc' (bodies w (Pair.bodyA p)) (bodies w (Pair.bodyB p)) p).
Proof.
  intros Hnd Hr. unfold detect. simpl.
  set (sc' := fold_left _ (mBodies w) sc).
  destruct (fold_pairs_pointwise
              (λ w r, update_pair r (Pair.set_mInCollision true) w)
              (Pair.set_mInCollision true) (mPairs w) (set_mContacts [] w) Hnd)
    as [Hb1 Hp1].
  { intros w' r0 Hw'. split; [done|]. intros r'. simpl.
    destruct (decide (r0 = r')) as [<-|Hne].
    - by rewrite fn_lookup_insert.
    - by rewrite fn_lookup_insert_ne. }
  set (w1 := fold_left _ (mPairs w) (set_mContacts [] w)) in *.
  set (tested := λ p : Pair.t,
         if Pair.mInCollision p
         then Pair_test sc' (bodies w (Pair.bodyA p)) (bodies w (Pair.bodyB p)) p else p).
  destruct (fold_pairs_pointwise (narrow_test Scene Pair_test sc') tested (mPairs w) w1 Hnd)
    as [Hb2 Hp2].
  { intros w' r0 Hw'. unfold narrow_test, tested.
    destruct (Pair.mInCollision (pairs w' r0)) eqn:Hf.
    - split; [done|]. intros r'. unfold call_pair. simpl. rewrite Hw', Hb1. simpl.
      destruct (decide (r0 = r')) as [<-|Hne].
      + by rewrite fn_lookup_insert.
      + by rewrite fn_lookup_insert_ne.
    - split; [done|]. intros r'. destruct (decide (r0 = r')) as [<-|Hne]; done. }
  set (w2 := fold_left (narrow_test Scene Pair_test sc') (mPairs w) w1) in *.
  destruct (fold_pairs_pointwise collect_contact settle (mPairs w) w2 Hnd) as [Hb3 Hp3].
  { intros w' r0 Hw'. unfold collect_contact, settle.
    destruct (Pair.mInCollision (pairs w' r0)) eqn:Hf.
    - split; [done|]. intros r'. destruct (decide (r0 = r')) as [<-|Hne]; [|done].
      simpl. done.
    - split; [done|]. intros r'. simpl. destruct (decide (r0 = r')) as [<-|Hne].
      + by rewrite !fn_lookup_insert.
      + by rewrite !fn_lookup_insert_ne. }
  rewrite Hp3, Hp2, Hp1. rewrite !decide_True by done. reflexivity.
Qed.

(** *** The integration loops *)

Lemma solve_positions_fold (u dt : float) (l : list BodyRef) (w : World) :
  NoDup l →
  let w' :=
    fold_left
      (λ w body,
         let w := update_body body
                    (λ o, RigidBody.set_mForce (Vector.set 0 0 (RigidBody.mForce o)) o) w in
         if isStatic (bodies w body) then w
         else update_body body
                (λ o, RigidBody.set_mPosition (integratedPosition u dt o) o) w) l w in
  (∀ b, b ∈ l → bodies w' b = moveBody u dt (bodies w b))
  ∧ (∀ b, b ∉ l → bodies w' b = bodies w b).
Proof.
  revert w. induction l as [|b0 l IH]; intros w Hnd; cbn [fold_left].
  - split; [|done]. intros b Hb. by apply elem_of_nil in Hb.
  - apply list.NoDup_cons in Hnd as [Hb0 Hnd]. cbv zeta.
    set (w0 := update_body b0 _ w).
    set (w1 := if isStatic (bodies w0 b0) then w0 else _).
    assert (H1 : bodies w1 b0 = moveBody u dt (bodies w b0)).
    { unfold w1, moveBody, w0. simpl. rewrite fn_lookup_insert.
      set (o1 := RigidBody.set_mForce _ (bodies w b0)).
      destruct (isStatic o1); simpl; by rewrite !fn_lookup_insert. }
    assert (H2 : ∀ b, b ≠ b0 → bodies w1 b = bodies w b).
    { intros b Hne. unfold w1, w0. destruct (isStatic _); simpl;
        by rewrite ?fn_lookup_insert_ne. }
    destruct (IH w1 Hnd) as [IHin IHout]. split.
    + intros b Hb. apply elem_of_cons in Hb as [->|Hb].
      * by rewrite IHout.
      * rewrite IHin by done. rewrite H2; [done|]. by intros ->.
    + intros b Hb. apply not_elem_of_cons in Hb as [Hne Hb].
      rewrite IHout by done. by apply H2.
Qed.

(** X4 (position integration): with no body listed twice, the
    position-integration loop clears the force of every body of the
    active-body list; a body with nonzero inverse mass moves by
    [velocity * dt * unitsPerMeter], one with inverse mass 0 keeps its
    position; velocities are not written. *)
Theorem position_integration (u dt : float) (w : World) (b : BodyRef) :
  NoDup (mBodies w) → b ∈ mBodies w →
  let body := bodies w b in
  let body' := bodies (__solve_positions u dt w) b in
  let x := RigidBody.mPosition body in
  let v := RigidBody.mVelocity body in
  RigidBody.mForce body' = Vector.mk 0 0
  ∧ RigidBody.mVelocity body' = v
  ∧ if PrimFloat.eqb (RigidBody.mInvMass body) 0 then RigidBody.mPosition body' = x
    else RigidBody.mPosition body'
         = Vector.mk (Vector.x x + Vector.x v * dt * u)%float
                     (Vector.y x + Vector.y v * dt * u)%float.
Proof.
  intros Hnd Hb body body' x v.
  assert (Hb' : body' = moveBody u dt body).
  { by apply (solve_positions_fold u dt (mBodies w) w Hnd). }
  rewrite Hb'. unfold moveBody, isStatic. simpl.
  by destruct (PrimFloat.eqb (RigidBody.mInvMass body) 0).
Qed.

Lemma solve_positions_clears_force (u dt : float) (w : World) (b : BodyRef) :
  b ∈ mBodies w → RigidBody.mForce (bodies (__solve_positions u dt w) b) = Vector.mk 0 0.
Proof.
  unfold __solve_positions. generalize (mBodies w) as l. intros l Hb.
  revert w. induction l as [|b0 l IH]; intros w; [by apply elem_of_nil in Hb|].
  cbn [fold_left]. cbv zeta. set (w0 := update_body b0 _ w).
  set (w1 := if isStatic (bodies w0 b0) then w0 else _).
  destruct (decide (b ∈ l)) as [Hin|Hnin]; [by apply IH|].
  apply elem_of_cons in Hb as [->|Hb]; [|done].
  assert (H1 : RigidBody.mForce (bodies w1 b0) = Vector.mk 0 0).
  { unfold w1, w0. simpl. rewrite fn_lookup_insert.
    set (o1 := RigidBody.set_mForce _ (bodies w b0)).
    destruct (isStatic o1); simpl; by rewrite !fn_lookup_insert. }
  clearbody w1. clear IH w0.
  revert w1 H1. induction l as [|b1 l IH]; intros w1 H1; [done|].
  apply not_elem_of_cons in Hnin as [Hne Hnin]. cbn [fold_left]. apply IH; [done|].
  cbv zeta. destruct (isStatic _); simpl; by rewrite ?fn_lookup_insert_ne.
Qed.

Lemma call_solveVelocity_force (w : World) (r : PairRef) (b : BodyRef) :
  RigidBody.mForce (bodies (call_solveVelocity Pair_solveVelocity w r) b)
  = RigidBody.mForce (bodies w b).
Proof.
  unfold call_solveVelocity. destruct (Pair_solveVelocity _ _ _) as [[p' vA] vB]. simpl.
  destruct (decide (Pair.bodyB (pairs w r) = b)) as [<-|HnB].
  - rewrite fn_lookup_insert. simpl.
    destruct (decide (Pair.bodyA (pairs w r) = Pair.bodyB (pairs w r))) as [->|HnA].
    + by rewrite fn_lookup_insert.
    + by rewrite fn_lookup_insert_ne.
  - rewrite fn_lookup_insert_ne by done.
    destruct (decide (Pair.bodyA (pairs w r) = b)) as [<-|HnA].
    + by rewrite fn_lookup_insert.
    + by rewrite fn_lookup_insert_ne.
Qed.

Lemma call_solvePosition_force (w : World) (r : PairRef) (b : BodyRef) :
  RigidBody.mForce (bodies (call_solvePosition Pair_solvePosition w r) b)
  = RigidBody.mForce (bodies w b).
Proof.
  unfold call_solvePosition. destruct (Pair_solvePosition _ _ _) as [[p' vA] vB]. simpl.
  destruct (decide (Pair.bodyB (pairs w r) = b)) as [<-|HnB].
  - rewrite fn_lookup_insert. simpl.
    destruct (decide (Pair.bodyA (pairs w r) = Pair.bodyB (pairs w r))) as [->|HnA].
    + by rewrite fn_lookup_insert.
    + by rewrite fn_lookup_insert_ne.
  - rewrite fn_lookup_insert_ne by done.
    destruct (decide (Pair.bodyA (pairs w r) = b)) as [<-|HnA].
    + by rewrite fn_lookup_insert.
    + by rewrite fn_lookup_insert_ne.
Qed.

(** X5 (forces): when a fixed step ends, the accumulated force of every
    body of the active-body list is zero, static or not. *)
Theorem step_clears_forces (dt : float) (w : World) (sc : Scene) (b : BodyRef) :
  b ∈ mBodies w →
  RigidBody.mForce (bodies (fst (onFixedUpdate' dt (w, sc))) b) = Vector.mk 0 0.
Proof.
  intros Hb. unfold onFixedUpdate.
  pose proof (stepFrame_detect w sc) as Hd.
  destruct (detect' (w, sc)) as [w1 sc1]. simpl in *.
  unfold __solve.
  set (P := λ w' : World, RigidBody.mForce (bodies w' b) = Vector.mk 0 0).
  apply (repeat_loop_preserves P).
  { intros w' Hw'. apply (fold_left_preserves P); [|done].
    intros w'' r _ Hw''. unfold P. by rewrite call_solvePosition_force. }
  unfold P.
  set (w2 := repeat_loop _ _ _).
  assert (Hf : stepFrame w1 w2).
  { unfold w2.
    eapply stepFrame_trans; [|apply stepFrame_repeat; intros; apply stepFrame_fold;
                              apply stepFrame_call_solveVelocity].
    eapply stepFrame_trans; [|apply stepFrame_fold; intros; apply stepFrame_update_pair].
    apply stepFrame_solve_velocities. }
  apply solve_positions_clears_force.
  destruct Hf as (Hr2 & _), Hd as (Hr1 & _). unfold registry in *.
  injection Hr2 as -> _ _ _ _. injection Hr1 as -> _ _ _ _. done.
Qed.

(** *** A step in which nothing collides *)

Lemma solve_velocities_ext (dt : float) (w1 w2 : World) :
  mBodies w1 = mBodies w2 → gravity w1 = gravity w2 → bodies w1 = bodies w2 →
  bodies (__solve_velocities dt w1) = bodies (__solve_velocities dt w2).
Proof.
  intros HmB Hg Hb. unfold __solve_velocities. rewrite HmB, Hg.
  generalize (gravity w2) as g. intros g. clear HmB Hg.
  generalize (mBodies w2) as l. intros l.
  revert w1 w2 Hb. induction l as [|b l IH]; intros w1 w2 Hb; [done|].
  cbn [fold_left]. apply IH. rewrite Hb.
  destruct (isStatic (bodies w2 b)); [done|]. simpl. by rewrite Hb.
Qed.

Lemma solve_positions_ext (u dt : float) (w1 w2 : World) :
  mBodies w1 = mBodies w2 → bodies w1 = bodies w2 →
  bodies (__solve_positions u dt w1) = bodies (__solve_positions u dt w2).
Proof.
  intros HmB Hb. unfold __solve_positions. rewrite HmB. clear HmB.
  generalize (mBodies w2) as l. intros l.
  revert w1 w2 Hb. induction l as [|b l IH]; intros w1 w2 Hb; [done|].
  cbn [fold_left]. apply IH. cbv zeta. simpl. rewrite Hb, !fn_lookup_insert.
  set (o1 := RigidBody.set_mForce _ (bodies w2 b)).
  destruct (isStatic o1); simpl; by rewrite ?Hb.
Qed.

Lemma repeat_loop_nil {A} (f : World → A → World) (n : nat) (w : World) :
  repeat_loop n (λ w, fold_left f [] w) w = w.
Proof. induction n as [|n IH]; [done|]. exact IH. Qed.

Lemma solve_no_contacts (dt : float) (w : World) :
  mContacts w = [] →
  solve' dt w = __solve_positions Pair_unitsPerMeter dt (__solve_velocities dt w).
Proof.
  intros Hc. unfold __solve. rewrite Hc. by rewrite !repeat_loop_nil.
Qed.

(** X6 (a step without collisions): when the narrow phase of a step
    leaves no maintained pair in collision, the step moves the bodies by
    integration alone: the body objects after the step are those the two
    integration loops produce from the body objects before it. *)
Theorem step_without_collisions (dt : float) (w : World) (sc : Scene) :
  (∀ r, r ∈ mPairs w → Pair.mInCollision (pairs (fst (detect' (w, sc))) r) = false) →
  bodies (fst (onFixedUpdate' dt (w, sc)))
  = bodies (__solve_positions Pair_unitsPerMeter dt (__solve_velocities dt w)).
Proof.
  intros Hfree.
  pose proof (detect_contacts w sc) as Hc. cbv zeta in Hc.
  pose proof (stepFrame_detect w sc) as Hd.
  pose proof (detect_bodies Scene RigidBody_update Pair_test w sc) as Hb.
  unfold onFixedUpdate. destruct (detect' (w, sc)) as [w1 sc1]. simpl in *.
  assert (Hnil : mContacts w1 = []).
  { rewrite Hc. clear Hc. induction (mPairs w) as [|r l IH]; [done|].
    rewrite filter_cons_False.
    - apply IH. intros r' Hr'. apply Hfree. by right.
    - rewrite Hfree; [done|left]. }
  rewrite (solve_no_contacts dt w1 Hnil).
  destruct Hd as (Hr & _ & _ & Hg & _). unfold registry in Hr.
  injection Hr as HmB _ _ _ _.
  apply solve_positions_ext.
  - pose proof (stepFrame_solve_velocities dt w1) as (Hr1 & _).
    pose proof (stepFrame_solve_velocities dt w) as (Hr2 & _).
    unfold registry in *. injection Hr1 as -> _ _ _ _. injection Hr2 as -> _ _ _ _. done.
  - by apply solve_velocities_ext.
Qed.

End StepExtras.

(** ** The step properties on the example worlds *)

Lemma detect_tests_each_pair_once_witness :
  let w := Scenario.two_bodies in
  let st := detect unit Scenario.update_none Scenario.test_overlapping (w, tt) in
  let p := Pair.set_mInCollision true (pairs w 0) in
  pairs (fst st) 0
  = settle (Scenario.test_overlapping (snd st)
              (bodies w (Pair.bodyA p)) (bodies w (Pair.bodyB p)) p).
Proof.
  apply (detect_tests_each_pair_once unit Scenario.update_none Scenario.test_overlapping
           Scenario.two_bodies tt 0).
  - apply (bool_decide_unpack _). by vm_compute.
  - in_list.
Defined.

Lemma position_integration_witness :
  let w := Scenario.two_bodies_after_contact in
  let body := bodies w 1 in
  let body' := bodies (__solve_positions 1 1 w) 1 in
  let x := RigidBody.mPosition body in
  let v := RigidBody.mVelocity body in
  RigidBody.mForce body' = Vector.mk 0 0
  ∧ RigidBody.mVelocity body' = v
  ∧ if PrimFloat.eqb (RigidBody.mInvMass body) 0 then RigidBody.mPosition body' = x
    else RigidBody.mPosition body'
         = Vector.mk (Vector.x x + Vector.x v * 1 * 1)%float
                     (Vector.y x + Vector.y v * 1 * 1)%float.
Proof.
  apply (position_integration 1 1 Scenario.two_bodies_after_contact 1).
  - apply (bool_decide_unpack _). by vm_compute.
  - in_list.
Defined.

Lemma step_clears_forces_witness :
  RigidBody.mForce
    (bodies (fst (onFixedUpdate unit Scenario.update_none Scenario.test_overlapping
                    Scenario.preSolve_none Scenario.solveVelocity_push
                    Scenario.solvePosition_push 1 1 (Scenario.two_bodies, tt))) 2)
  = Vector.mk 0 0.
Proof.
  apply (step_clears_forces unit Scenario.update_none Scenario.test_overlapping
           Scenario.preSolve_none Scenario.solveVelocity_push
           Scenario.solvePosition_push 1 1 Scenario.two_bodies tt 2).
  in_list.
Defined.

Lemma step_without_collisions_witness :
  bodies (fst (onFixedUpdate unit Scenario.update_none Scenario.test_apart
                 Scenario.preSolve_none Scenario.solveVelocity_push
                 Scenario.solvePosition_push 1 1 (Scenario.two_bodies, tt)))
  = bodies (__solve_positions 1 1 (__solve_velocities 1 Scenario.two_bodies)).
Proof.
  apply (step_without_collisions unit Scenario.update_none Scenario.test_apart
           Scenario.preSolve_none Scenario.solveVelocity_push
           Scenario.solvePosition_push 1 1 Scenario.two_bodies tt).
  intros r Hr.
  assert (r = 0) as ->.
  { revert Hr. change (mPairs Scenario.two_bodies) with [0].
    by intros ->%list_elem_of_singleton. }
  reflexivity.
Defined.
(** * The bookkeeping of the registry *)

(** ** [__addPair] *)

Lemma pool_get_class (k : PairClass) (w : World) :
  PoolWf w → (∀ k r, r ∈ pool w k → Pair.constructor (pairs w r) = k) →
  let r := fst (pool_get k w) in
  let w1 := snd (pool_get k w) in
  Pair.constructor (pairs w1 r) = k
  ∧ (∀ k' r', r' ∈ pool w1 k' → r' ∈ pool w k')
  ∧ mPairsHash w1 = mPairsHash w.
Proof.
  intros Hwf Hcls. unfold pool_get.
  destruct (pool w k) as [|r rest] eqn:Hk; simpl.
  - split; [by rewrite fn_lookup_insert|]. by split.
  - split; [apply Hcls; rewrite Hk; left|]. split; [|done].
    intros k' r'. destruct (decide (k = k')) as [<-|Hne].
    + rewrite fn_lookup_insert, Hk. by right.
    + by rewrite fn_lookup_insert_ne.
Qed.

Lemma poolRefs_elem (f : PairClass → list PairRef) (k : PairClass) (r : PairRef) :
  r ∈ f k → r ∈ poolRefs f.
Proof.
  unfold poolRefs. rewrite !elem_of_app. destruct k; tauto.
Qed.

(** The part of [__addPair] after the pool handed out [pr]. *)
Lemma addPair_finish_book (w w1 : World) (pr : PairRef) (a b : ColliderRef)
    (bA bB : BodyRef) :
  Bookkeeping w →
  pr ∉ mPairs w →
  NoDup (pr :: allRefs w1) →
  mPairs w1 = mPairs w →
  (∀ x, x ≠ pr → pairs w1 x = pairs w x) →
  bodies w1 = bodies w → colliders w1 = colliders w →
  mPairsHash w1 = mPairsHash w →
  (∀ k' r', r' ∈ pool w1 k' → r' ∈ pool w k') →
  Pair.constructor (pairs w1 pr)
    = pairClassOf (Collider.cls (colliders w a)) (Collider.cls (colliders w b)) →
  (Collider.cls (colliders w a) = CircleCollider →
   Collider.cls (colliders w b) = CircleCollider) →
  bA ≠ bB →
  (∀ p, p ∈ live w → ukey p ≠ Pair.__id a b) →
  let w' :=
    (let w := set_pairs (<[pr := Pair.set a b bA bB (pairs w1 pr)]> (pairs w1)) w1 in
     let w := set_mPairs (mPairs w ++ [pr]) w in
     let w := set_mPairsHash (<[Pair.__id a b := pr]> (mPairsHash w)) w in
     let w := set_body_mPairs bA (RigidBody.mPairs (bodies w bA) ++ [pr]) w in
     let w := set_body_mPairs bB (RigidBody.mPairs (bodies w bB) ++ [pr]) w in
     w) in
  PoolWf w' → Bookkeeping w'.
Proof.
  intros [Hpool Hhash Hlists Hends [Hcan Hpc]] Hfresh Hnd HmP Hpairs Hbodies Hcol Hh
    Hpl Hk Hord Hne Hkey w' Hpool'.
  assert (Hold : ∀ r, r ∈ mPairs w → r ≠ pr) by (intros r Hr ->; done).
  assert (HmP' : mPairs w' = mPairs w ++ [pr]) by (unfold w'; simpl; by rewrite HmP).
  assert (Hp_old : ∀ r, r ≠ pr → pairs w' r = pairs w r).
  { intros r Hr. unfold w'. simpl. rewrite fn_lookup_insert_ne by done. by apply Hpairs. }
  assert (Hp_new : pairs w' pr = Pair.set a b bA bB (pairs w1 pr)).
  { unfold w'. simpl. by rewrite fn_lookup_insert. }
  assert (Hcol' : colliders w' = colliders w) by (unfold w'; simpl; done).
  assert (Hh' : mPairsHash w' = <[Pair.__id a b := pr]> (mPairsHash w)).
  { unfold w'. simpl. by rewrite Hh. }
  assert (Hpl' : pool w' = pool w1) by done.
  split; [done| | | |].
  - (* hash *)
    intros k r. rewrite Hh', HmP'.
    destruct (decide (Pair.__id a b = k)) as [<-|Hnk].
    + rewrite lookup_insert_eq. split.
      * intros [= <-]. split; [apply elem_of_app; right; left|].
        by rewrite Hp_new.
      * intros [Hr Hkr]. apply elem_of_app in Hr as [Hr|Hr].
        -- exfalso. apply (Hkey (pairs w r)).
           ++ apply list_elem_of_fmap. by exists r.
           ++ rewrite <- Hkr, Hp_old; [done|]. by apply Hold.
        -- apply list_elem_of_singleton in Hr. by subst.
    + rewrite lookup_insert_ne by done. rewrite (Hhash k r). split.
      * intros [Hr Hkr]. split; [apply elem_of_app; by left|].
        rewrite Hp_old; [done|]. by apply Hold.
      * intros [Hr Hkr]. apply elem_of_app in Hr as [Hr|Hr].
        -- split; [done|]. rewrite <- Hp_old; [done|]. by apply Hold.
        -- apply list_elem_of_singleton in Hr. subst r. rewrite Hp_new in Hkr.
           by destruct Hnk.
  - (* pair lists *)
    assert (HL : ∀ body, RigidBody.mPairs (bodies w' body)
      = RigidBody.mPairs (bodies w body)
        ++ (if decide (bA = body ∨ bB = body) then [pr] else [])).
    { intros body. unfold w', set_body_mPairs. simpl. rewrite Hbodies.
      destruct (decide (bB = body)) as [<-|HB].
      - rewrite fn_lookup_insert. simpl. rewrite fn_lookup_insert_ne by done.
        rewrite decide_True; [done|]. by right.
      - rewrite fn_lookup_insert_ne by done.
        destruct (decide (bA = body)) as [<-|HA].
        + rewrite fn_lookup_insert. simpl. rewrite decide_True; [done|]. by left.
        + rewrite fn_lookup_insert_ne by done. rewrite decide_False; [|tauto].
          by rewrite app_nil_r. }
    intros body. rewrite HL. destruct (Hlists body) as [HndL HinL].
    assert (HprL : pr ∉ RigidBody.mPairs (bodies w body)).
    { intros Hin. apply HinL in Hin as [Hin _]. done. }
    split.
    + apply NoDup_app. split; [done|]. split.
      * intros x Hx Hx'. destruct (decide _); [|by apply elem_of_nil in Hx'].
        apply list_elem_of_singleton in Hx'. by subst.
      * destruct (decide _); [apply NoDup_singleton|constructor].
    + intros r. rewrite HmP', !elem_of_app, HinL. split.
      * intros [[Hr Hi]|Hr].
        -- split; [by left|]. rewrite Hp_old; [done|]. by apply Hold.
        -- destruct (decide _) as [Hd|Hd]; [|by apply elem_of_nil in Hr].
           apply list_elem_of_singleton in Hr. subst r.
           split; [right; left|]. rewrite Hp_new. exact Hd.
      * intros [[Hr|Hr] Hi].
        -- left. split; [done|]. rewrite <- Hp_old; [done|]. by apply Hold.
        -- apply list_elem_of_singleton in Hr. subst r. right.
           rewrite Hp_new in Hi. rewrite decide_True; [left|exact Hi].
  - (* ends *)
    intros r. rewrite HmP'. intros Hr. apply elem_of_app in Hr as [Hr|Hr].
    + rewrite Hp_old; [by apply Hends|]. by apply Hold.
    + apply list_elem_of_singleton in Hr. subst r. by rewrite Hp_new.
  - (* classes *)
    split.
    + intros r. rewrite HmP'. intros Hr. unfold canonical. rewrite Hcol'.
      apply elem_of_app in Hr as [Hr|Hr].
      * rewrite Hp_old; [by apply Hcan|]. by apply Hold.
      * apply list_elem_of_singleton in Hr. subst r. rewrite Hp_new. simpl.
        by split.
    + intros k r Hr.
      rewrite Hpl' in Hr.
      assert (r ≠ pr).
      { intros ->. apply list.NoDup_cons in Hnd as [Hnd _]. apply Hnd.
        unfold allRefs. apply elem_of_app. right. by eapply poolRefs_elem. }
      rewrite Hp_old by done. by apply Hpc, Hpl.
Qed.

Lemma id_comm (a b : ColliderRef) : Pair.__id a b = Pair.__id b a.
Proof. apply id_eq. by right. Qed.

(** [__addPair] keeps the books when the two bodies differ and no
    maintained pair is over the two shapes yet. *)
Lemma addPair_book (a b : ColliderRef) (bA bB : BodyRef) (w : World) :
  Bookkeeping w → bA ≠ bB →
  (∀ p, p ∈ live w → ukey p ≠ Pair.__id a b) →
  Bookkeeping (__addPair a b bA bB w).
Proof.
  intros Hbk Hne Hkey.
  pose proof (bk_pool w Hbk) as Hwf.
  pose proof (Added_PoolWf _ _ _ _ _ (addPair_Added a b bA bB w Hwf)) as Hwf'.
  destruct (bk_class w Hbk) as [_ Hpc].
  revert Hwf'. unfold __addPair, Collider.isBox.
  destruct (Collider.cls (colliders w a)) eqn:Ea,
    (Collider.cls (colliders w b)) eqn:Eb; simpl.
  - pose proof (pool_get_spec BoxToBoxPair w Hwf) as H.
    pose proof (pool_get_class BoxToBoxPair w Hwf Hpc) as H'.
    destruct (pool_get BoxToBoxPair w) as [pr w1]. simpl in H, H'.
    destruct H as (?&?&?&?&?&?&?&?&?). destruct H' as (?&?&?).
    apply (addPair_finish_book w); try done; by rewrite ?Ea, ?Eb.
  - pose proof (pool_get_spec BoxToCirclePair w Hwf) as H.
    pose proof (pool_get_class BoxToCirclePair w Hwf Hpc) as H'.
    destruct (pool_get BoxToCirclePair w) as [pr w1]. simpl in H, H'.
    destruct H as (?&?&?&?&?&?&?&?&?). destruct H' as (?&?&?).
    apply (addPair_finish_book w); try done; by rewrite ?Ea, ?Eb.
  - pose proof (pool_get_spec BoxToCirclePair w Hwf) as H.
    pose proof (pool_get_class BoxToCirclePair w Hwf Hpc) as H'.
    destruct (pool_get BoxToCirclePair w) as [pr w1]. simpl in H, H'.
    destruct H as (?&?&?&?&?&?&?&?&?). destruct H' as (?&?&?).
    apply (addPair_finish_book w); try done; try (by rewrite ?Ea, ?Eb).
    intros p Hp. rewrite id_comm. by apply Hkey.
  - pose proof (pool_get_spec CircleToCirclePair w Hwf) as H.
    pose proof (pool_get_class CircleToCirclePair w Hwf Hpc) as H'.
    destruct (pool_get CircleToCirclePair w) as [pr w1]. simpl in H, H'.
    destruct H as (?&?&?&?&?&?&?&?&?). destruct H' as (?&?&?).
    apply (addPair_finish_book w); try done; by rewrite ?Ea, ?Eb.
Qed.

(** ** [__addPairs] as one loop over its targets *)

Lemma fold_left_bind {A B C} (g : A → C → A) (F : B → list C) (l : list B) (x : A) :
  fold_left g (l ≫= F) x = fold_left (λ x b, fold_left g (F b) x) l x.
Proof.
  revert x. induction l as [|b l IH]; intros x; [done|].
  rewrite bind_cons, fold_left_app. simpl. apply IH.
Qed.

Lemma fold_left_fmap {A B C} (g : A → C → A) (f : B → C) (l : list B) (x : A) :
  fold_left g (f <$> l) x = fold_left (λ x b, g x (f b)) l x.
Proof. revert x. induction l as [|b l IH]; intros x; [done|]. simpl. apply IH. Qed.

Lemma addPairs_body_flat (c : ColliderRef) (from b' : BodyRef) (w : World) :
  __addPairs_body c from w b'
  = fold_left (addTarget c from)
      (if decide (b' = from) then [] else (λ c', (c', b')) <$> shapes w b') w.
Proof.
  unfold __addPairs_body, shapes.
  destruct (decide (b' = from)); [done|].
  destruct (length (collidersCache w b') =? 0); [done|].
  by rewrite fold_left_fmap.
Qed.

Lemma addTargets_Added (c : ColliderRef) (from : BodyRef)
    (ts : list (ColliderRef * BodyRef)) (w : World) :
  PoolWf w → Added c from ts w (fold_left (addTarget c from) ts w).
Proof.
  revert w. induction ts as [|[c' b'] ts IH]; intros w Hwf; simpl.
  - by apply Added_nil.
  - pose proof (addPair_Added c c' from b' w Hwf) as H1.
    apply (Added_trans c from [(c', b')] _ w _ _ H1).
    apply IH. by eapply Added_PoolWf.
Qed.

Lemma addPairs_outer_flat (c : ColliderRef) (from : BodyRef) (l : list BodyRef)
    (w0 w : World) :
  sameScene w0 w → PoolWf w →
  fold_left (__addPairs_body c from) l w
  = fold_left (addTarget c from)
      (l ≫= λ body,
         if decide (body = from) then [] else (λ c', (c', body)) <$> shapes w0 body) w.
Proof.
  revert w. induction l as [|b' l IH]; intros w Hs Hwf; [done|].
  rewrite bind_cons, fold_left_app. simpl.
  rewrite addPairs_body_flat, (sameScene_shapes w0 w b' Hs).
  set (ts := if decide (b' = from) then [] else _).
  pose proof (addTargets_Added c from ts w Hwf) as Hadd.
  apply IH; [|by eapply Added_PoolWf].
  eapply sameScene_trans; [exact Hs|]. by eapply Added_sameScene.
Qed.

(** [__addPairs(collider, fromBody)] calls [__addPair] once for every
    shape of every other active body, in the order of [mBodies]. *)
Lemma addPairs_flat (c : ColliderRef) (from : BodyRef) (w : World) :
  PoolWf w →
  __addPairs c from w
  = fold_left (addTarget c from) (targets w from)
      (set_colliders
         (<[c := Collider.mk (Collider.cls (colliders w c)) true]> (colliders w)) w).
Proof.
  intros Hwf. unfold __addPairs, targets.
  set (w1 := set_colliders _ w).
  apply (addPairs_outer_flat c from (mBodies w) w w1); [|done].
  by repeat split.
Qed.

Lemma set_changed_book (c : ColliderRef) (w : World) :
  Bookkeeping w →
  Bookkeeping (set_colliders
    (<[c := Collider.mk (Collider.cls (colliders w c)) true]> (colliders w)) w).
Proof.
  intros [H1 H2 H3 H4 [H5 H6]]. split; try done. split; [|done].
  intros r Hr. specialize (H5 r Hr). unfold canonical in *. simpl.
  assert (Hcls : ∀ x, Collider.cls ((<[c := Collider.mk (Collider.cls (colliders w c)) true]>
      (colliders w)) x) = Collider.cls (colliders w x)).
  { intros x. destruct (decide (c = x)) as [<-|Hne].
    - by rewrite fn_lookup_insert.
    - by rewrite fn_lookup_insert_ne. }
  by rewrite !Hcls.
Qed.

Lemma addTargets_book (c : ColliderRef) (from : BodyRef)
    (ts : list (ColliderRef * BodyRef)) (w : World) :
  Bookkeeping w →
  NoDup ts.*1 → c ∉ ts.*1 →
  (∀ t, t ∈ ts → t.2 ≠ from) →
  (∀ p, p ∈ live w → ¬ touches p c) →
  Bookkeeping (fold_left (addTarget c from) ts w).
Proof.
  intros Hbk Hnd Hc Hfrom Hfresh.
  assert (Hkey : ∀ t p, t ∈ ts → p ∈ live w → ukey p ≠ Pair.__id c t.1).
  { intros t p _ Hp Heq. apply (Hfresh p Hp). unfold ukey in Heq.
    apply id_eq in Heq. unfold touches. tauto. }
  clear Hfresh. revert w Hbk Hkey.
  induction ts as [|[c' b'] ts IH]; intros w Hbk Hkey; [done|].
  simpl in *. apply list.NoDup_cons in Hnd as [Hc' Hnd].
  apply not_elem_of_cons in Hc as [Hcc' Hc].
  pose proof (addPair_Added c c' from b' w (bk_pool w Hbk)) as Hadd.
  destruct (Added_live _ _ _ _ _ Hadd) as (ps & Hlive & Hl).
  apply IH; try done.
  - intros t Ht. apply Hfrom. by right.
  - apply addPair_book; [done| |].
    + intros Heq. apply (Hfrom (c', b')); [left|done].
    + intros p Hp. apply (Hkey (c', b') p); [left|done].
  - intros t p Ht Hp. unfold addTarget in Hp. simpl in Hp. rewrite Hlive in Hp.
    apply elem_of_app in Hp as [Hp|Hp].
    + apply Hkey; [by right|done].
    + apply list_elem_of_lookup in Hp as [i Hi].
      destruct (Forall2_lookup_l _ _ _ _ _ Hl Hi) as (t' & Ht' & Hpt).
      destruct i; [|by destruct i]. injection Ht' as <-.
      rewrite (linked_ukey _ _ _ _ Hpt). simpl. intros Heq.
      apply id_eq in Heq as [[_ Heq]|[Heq _]].
      * apply Hc'. rewrite Heq. apply list_elem_of_fmap. by exists t.
      * apply Hc. rewrite Heq. apply list_elem_of_fmap. by exists t.
Qed.

(** [__addPairs] keeps the books when no maintained pair touches the
    collider yet. *)
Lemma addPairs_book (c : ColliderRef) (from : BodyRef) (w : World) :
  SceneWf w → NoDup (mBodies w) → Bookkeeping w →
  (∀ p, p ∈ live w → ¬ touches p c) →
  (∀ b', b' ∈ mBodies w → b' ≠ from → c ∉ shapes w b') →
  Bookkeeping (__addPairs c from w).
Proof.
  intros Hwf Hnd Hbk Hfresh Hc.
  rewrite addPairs_flat by apply (bk_pool w Hbk).
  apply addTargets_book.
  - by apply set_changed_book.
  - by apply targets_fst_NoDup.
  - intros Hin. apply targets_fst_elem in Hin as (b' & Hb' & Hne & Hin).
    by apply (Hc b' Hb' Hne).
  - intros t Ht. apply targets_elem in Ht. tauto.
  - exact Hfresh.
Qed.

(** ** [__removePairs] *)

Lemma PoolWf_mPairs (w : World) : PoolWf w → NoDup (mPairs w).
Proof. intros [Hnd _]. unfold allRefs in Hnd. by apply NoDup_app in Hnd as [? _]. Qed.

Lemma elem_of_delete_NoDup (l : list nat) (i x y : nat) :
  NoDup l → l !! i = Some x → y ∈ delete i l ↔ y ∈ l ∧ y ≠ x.
Proof.
  intros Hnd Hi. pose proof (delete_Permutation l i x Hi) as Hperm.
  assert (Hmem : ∀ z, z ∈ l ↔ z = x ∨ z ∈ delete i l).
  { intros z. rewrite <- elem_of_cons. by rewrite <- Hperm. }
  rewrite Hperm in Hnd. apply list.NoDup_cons in Hnd as [Hnx Hnd].
  rewrite Hmem. split.
  - intros Hy. split; [by right|]. by intros ->.
  - intros [[->|Hy] Hne]; done.
Qed.

(** The hash index determines the maintained pair of a key. *)
Lemma HashOk_key_inj (w : World) (r1 r2 : PairRef) :
  HashOk w → r1 ∈ mPairs w → r2 ∈ mPairs w →
  ukey (pairs w r1) = ukey (pairs w r2) → r1 = r2.
Proof.
  intros Hh H1 H2 Hk.
  assert (E1 : mPairsHash w !! ukey (pairs w r1) = Some r1) by by apply Hh.
  assert (E2 : mPairsHash w !! ukey (pairs w r1) = Some r2) by by apply Hh.
  congruence.
Qed.

(** One removal inside [__removePairs] keeps the books. *)
Lemma removePairs_at_book (i : nat) (pr : PairRef) (w : World) :
  mPairs w !! i = Some pr → Bookkeeping w → Bookkeeping (__removePairs_at i pr w).
Proof.
  intros Hi [Hpool Hhash Hlists Hends [Hcan Hpc]].
  destruct (removePairs_at_spec i pr w Hi Hpool) as (_ & Hpool' & Hp & Hcol & Hm).
  set (w' := __removePairs_at i pr w) in *.
  assert (Hpr : pr ∈ mPairs w) by by eapply list_elem_of_lookup_2.
  pose proof (Hends pr Hpr) as Hne.
  pose proof (PoolWf_mPairs w Hpool) as Hnd.
  assert (Hmem : ∀ r, r ∈ mPairs w' ↔ r ∈ mPairs w ∧ r ≠ pr).
  { intros r. rewrite Hm. by apply elem_of_delete_NoDup. }
  assert (Hh' : mPairsHash w' = delete (ukey (pairs w pr)) (mPairsHash w)) by done.
  assert (Hpl' : pool w' = <[Pair.constructor (pairs w pr) :=
                               pr :: pool w (Pair.constructor (pairs w pr))]> (pool w))
    by done.
  set (bA := Pair.bodyA (pairs w pr)) in *.
  set (bB := Pair.bodyB (pairs w pr)) in *.
  assert (HL : ∀ body, RigidBody.mPairs (bodies w' body)
    = if decide (involves (pairs w pr) body)
      then JS.splice1 (JS.indexOf (RigidBody.mPairs (bodies w body)) pr)
             (RigidBody.mPairs (bodies w body))
      else RigidBody.mPairs (bodies w body)).
  { intros body. unfold w', __removePairs_at, set_body_mPairs, involves. cbn.
    fold bA bB.
    destruct (decide (bB = body)) as [<-|HB].
    - rewrite fn_lookup_insert. cbn. rewrite fn_lookup_insert_ne by done.
      rewrite decide_True; [done|]. by right.
    - rewrite fn_lookup_insert_ne by done.
      destruct (decide (bA = body)) as [<-|HA].
      + rewrite fn_lookup_insert. cbn. rewrite decide_True; [done|]. by left.
      + rewrite fn_lookup_insert_ne by done. rewrite decide_False; [done|tauto]. }
  split; [done| | | |].
  - intros k r. rewrite Hh', lookup_delete_Some, (Hhash k r), Hmem, Hp. split.
    + intros (Hk & Hr & Hkr). split; [|done]. split; [done|].
      intros ->. by destruct Hk.
    + intros ((Hr & Hrp) & Hkr). split; [|done].
      intros Hk. apply Hrp. apply (HashOk_key_inj w); try done. congruence.
  - intros body. rewrite HL. destruct (Hlists body) as [HndL HinL].
    destruct (decide (involves (pairs w pr) body)) as [Hinv|Hinv].
    + destruct (splice_indexOf (RigidBody.mPairs (bodies w body)) pr HndL) as [Hnd' Hel].
      { by apply HinL. }
      split; [done|]. intros r. rewrite Hel, HinL, Hmem, Hp. tauto.
    + split; [done|]. intros r. rewrite HinL, Hmem, Hp. split; [|tauto].
      intros [Hr Hi']. split; [|done]. split; [done|]. by intros ->.
  - intros r Hr. rewrite Hp. apply Hends. by apply Hmem.
  - split.
    + intros r Hr. unfold canonical. rewrite Hcol, Hp. apply Hcan. by apply Hmem.
    + intros k r. rewrite Hpl', Hp.
      destruct (decide (Pair.constructor (pairs w pr) = k)) as [<-|Hk].
      * rewrite fn_lookup_insert. intros Hr. apply elem_of_cons in Hr as [->|Hr]; [done|].
        by apply Hpc.
      * rewrite fn_lookup_insert_ne by done. apply Hpc.
Qed.

Lemma removePairs_loop_book (collider : jsval) (n : nat) (w : World) :
  Bookkeeping w → Bookkeeping (__removePairs_loop collider n w).
Proof.
  revert w. induction n as [|i IH]; intros w Hbk; [done|]. simpl.
  destruct (mPairs w !! i) as [pr|] eqn:Hi; [|by apply IH].
  destruct (_ || _); [|by apply IH].
  apply IH. by apply removePairs_at_book.
Qed.

(** [__removePairs] keeps the books, whatever it is called with. *)
Lemma removePairs_book (collider : jsval) (w : World) :
  Bookkeeping w → Bookkeeping (__removePairs collider w).
Proof. apply removePairs_loop_book. Qed.

(** * The registry inside one operation *)

Lemma linked_sym (c c' : ColliderRef) (b b' : BodyRef) (p : Pair.t) :
  linked c b p (c', b') → linked c' b' p (c, b).
Proof. unfold linked. simpl. tauto. Qed.

Lemma live_elem (w : World) (p : Pair.t) :
  p ∈ live w ↔ ∃ r, r ∈ mPairs w ∧ p = pairs w r.
Proof.
  unfold live. rewrite list_elem_of_fmap. split; intros (r & H1 & H2); exists r; tauto.
Qed.

Lemma Mid_ext (w : World) (b0 : BodyRef) (D D' : ColliderRef → Prop) :
  (∀ x, D x ↔ D' x) → Mid w b0 D → Mid w b0 D'.
Proof.
  intros HD [H1 H2 H3 H4 H5 H6 H7].
  assert (HS : ∀ b x, shapeOr w b0 D b x ↔ shapeOr w b0 D' b x).
  { intros b x. unfold shapeOr. destruct (decide (b = b0)); [apply HD|done]. }
  split; try done.
  - intros p Hp. destruct (H5 p Hp) as (?&?&?&?). rewrite <- !HS. done.
  - intros b1 b2 c1 c2 ? ? ? ? ?. apply H6; try done; by apply HS.
  - intros x b' Hx. apply H7. by apply HD.
Qed.

(** No maintained pair touches a collider that takes part nowhere. *)
Lemma Mid_untouched (w : World) (b0 : BodyRef) (D : ColliderRef → Prop)
    (c : ColliderRef) (p : Pair.t) :
  Mid w b0 D → ¬ D c →
  (∀ b', b' ∈ mBodies w → b' ≠ b0 → c ∉ shapes w b') →
  p ∈ live w → ¬ touches p c.
Proof.
  intros Hmid HD Hc Hp Ht.
  destruct (mid_links w b0 D Hmid p Hp) as (HA & HB & HSa & HSb).
  unfold shapeOr, activeOr in *.
  destruct Ht as [Ht|Ht]; rewrite Ht in *.
  - destruct (decide (Pair.bodyA p = b0)); [done|].
    destruct HA as [?|HA]; [done|]. by apply (Hc _ HA).
  - destruct (decide (Pair.bodyB p = b0)); [done|].
    destruct HB as [?|HB]; [done|]. by apply (Hc _ HB).
Qed.

(** One call of [__addPairs] for a collider of [b0] that takes part
    nowhere yet: the collider joins the shapes of [b0]. *)
Lemma addPairs_Mid (c : ColliderRef) (b0 : BodyRef) (D : ColliderRef → Prop)
    (w : World) :
  Mid w b0 D → ¬ D c →
  (∀ b', b' ∈ mBodies w → b' ≠ b0 → c ∉ shapes w b') →
  Mid (__addPairs c b0 w) b0 (λ x, D x ∨ x = c) ∧ sameScene w (__addPairs c b0 w).
Proof.
  intros Hmid HD Hc.
  assert (Hfresh' : ∀ p, p ∈ live w → ¬ touches p c).
  { intros p. by apply (Mid_untouched w b0 D c). }
  destruct Hmid as [Hwf Hnd Hbk Hkeys Hlinks Hcomp Hown].
  pose proof (addPairs_Added c b0 w (bk_pool w Hbk)) as Hadd.
  pose proof (addPairs_book c b0 w Hwf Hnd Hbk Hfresh' Hc) as Hbk'.
  destruct (Added_live _ _ _ _ _ Hadd) as (ps & Hlive & Hl).
  destruct Hadd as (Hs & _ & _ & rs & Hm & Hp & Hrs).
  set (w' := __addPairs c b0 w) in *.
  assert (HmB : mBodies w' = mBodies w) by apply Hs.
  assert (Hsh : ∀ b, shapes w' b = shapes w b).
  { intros b. by apply sameScene_shapes. }
  split; [|done]. split.
  - by eapply sameScene_wf.
  - by rewrite HmB.
  - done.
  - rewrite Hlive. eapply keys_add; eauto.
    + by apply targets_fst_NoDup.
    + intros Hin. apply targets_fst_elem in Hin as (b' & Hb' & Hne & Hin).
      by apply (Hc b' Hb' Hne).
  - intros p. rewrite Hlive, elem_of_app. unfold activeOr, shapeOr.
    rewrite HmB. intros [Hp'|Hp'].
    + destruct (Hlinks p Hp') as (HA & HB & HSa & HSb).
      split; [done|]. split; [done|]. unfold shapeOr in *. rewrite !Hsh.
      destruct (decide (Pair.bodyA p = b0)), (decide (Pair.bodyB p = b0)); tauto.
    + apply list_elem_of_lookup in Hp' as [i Hi].
      destruct (Forall2_lookup_l _ _ _ _ _ Hl Hi) as (t & Ht & Hpt).
      apply list_elem_of_lookup_2, targets_elem in Ht as (Hb & Hne & Hx).
      rewrite !Hsh.
      destruct Hpt as [(Ha & HA & Hb' & HB)|(Ha & HA & Hb' & HB)];
        rewrite Ha, HA, Hb', HB.
      * split; [by left|]. split; [by right|].
        rewrite decide_True by done. rewrite decide_False by done. split; [by right|done].
      * split; [by right|]. split; [by left|].
        rewrite decide_False by done. rewrite decide_True by done. split; [done|by right].
  - assert (Hnew : ∀ b2 c2, b2 ∈ mBodies w → b2 ≠ b0 → c2 ∈ shapes w b2 →
        ∃ r, r ∈ mPairs w' ∧ linked c b0 (pairs w' r) (c2, b2)).
    { intros b2 c2 Hb2 Hne Hc2.
      assert (Ht : (c2, b2) ∈ targets w b0) by (by apply targets_elem).
      apply list_elem_of_lookup in Ht as [i Hi].
      destruct (Forall2_lookup_r _ _ _ _ _ Hrs Hi) as (r & Hr & Hlk).
      exists r. split; [|done]. rewrite Hm. apply elem_of_app. right.
      by eapply list_elem_of_lookup_2. }
    assert (Hold : ∀ b1 b2 c1 c2, activeOr w b0 b1 → activeOr w b0 b2 → b1 ≠ b2 →
        shapeOr w b0 D b1 c1 → shapeOr w b0 D b2 c2 →
        ∃ r, r ∈ mPairs w' ∧ linked c1 b1 (pairs w' r) (c2, b2)).
    { intros b1 b2 c1 c2 H1 H2 H3 H4 H5.
      destruct (Hcomp b1 b2 c1 c2 H1 H2 H3 H4 H5) as (r & Hr & Hlk).
      exists r. split; [rewrite Hm; apply elem_of_app; by left|]. by rewrite Hp. }
    intros b1 b2 c1 c2. unfold activeOr at 1 2. rewrite HmB.
    intros H1 H2 Hne HS1 HS2. unfold shapeOr in HS1, HS2. rewrite Hsh in HS1, HS2.
    destruct (decide (b1 = b0)) as [->|Hn1], (decide (b2 = b0)) as [->|Hn2]; [done| | |].
    + destruct H2 as [?|H2]; [done|].
      destruct HS1 as [HS1| ->].
      * apply Hold; try done; unfold shapeOr.
        -- by right.
        -- by rewrite decide_True.
        -- by rewrite decide_False.
      * by apply Hnew.
    + destruct H1 as [?|H1]; [done|].
      destruct HS2 as [HS2| ->].
      * apply Hold; try done; unfold shapeOr.
        -- by right.
        -- by rewrite decide_False.
        -- by rewrite decide_True.
      * destruct (Hnew b1 c1 H1 Hn1 HS1) as (r & Hr & Hlk).
        exists r. split; [done|]. by apply linked_sym.
    + apply Hold; try done; unfold shapeOr; by rewrite decide_False.
  - intros x b'. rewrite HmB, Hsh. intros [Hx| ->]; [by apply Hown|apply Hc].
Qed.

(** One call of [__removePairs] for a collider of [b0]: the collider
    leaves the shapes of [b0]. *)
Lemma removePairs_Mid (c : ColliderRef) (b0 : BodyRef) (D : ColliderRef → Prop)
    (w : World) :
  Mid w b0 D →
  (∀ b', b' ∈ mBodies w → b' ≠ b0 → c ∉ shapes w b') →
  Mid (__removePairs (JCollider c) w) b0 (λ x, D x ∧ x ≠ c)
  ∧ sameScene w (__removePairs (JCollider c) w).
Proof.
  intros [Hwf Hnd Hbk Hkeys Hlinks Hcomp Hown] Hc.
  pose proof (removePairs_Removed (JCollider c) w (bk_pool w Hbk)) as Hrem.
  pose proof (removePairs_book (JCollider c) w Hbk) as Hbk'.
  pose proof (Removed_live _ _ _ Hrem) as Hlive.
  destruct Hrem as (Hs & _ & Hp & Hm).
  set (w' := __removePairs (JCollider c) w) in *.
  assert (HmB : mBodies w' = mBodies w) by apply Hs.
  assert (Hsh : ∀ b, shapes w' b = shapes w b).
  { intros b. by apply sameScene_shapes. }
  split; [|done]. split.
  - by eapply sameScene_wf.
  - by rewrite HmB.
  - done.
  - rewrite Hlive. by apply keys_filter.
  - intros p. rewrite Hlive, list_elem_of_filter, stays_collider.
    intros [Hnt Hp']. destruct (Hlinks p Hp') as (HA & HB & HSa & HSb).
    unfold activeOr, shapeOr in *. rewrite HmB, !Hsh.
    split; [done|]. split; [done|]. unfold touches in Hnt.
    destruct (decide (Pair.bodyA p = b0)), (decide (Pair.bodyB p = b0)); tauto.
  - intros b1 b2 c1 c2. unfold activeOr at 1 2. rewrite HmB.
    intros H1 H2 Hne HS1 HS2. unfold shapeOr in HS1, HS2. rewrite Hsh in HS1, HS2.
    assert (Hc1 : c1 ≠ c ∧ shapeOr w b0 D b1 c1).
    { unfold shapeOr. destruct (decide (b1 = b0)); [tauto|].
      split; [|done]. intros ->. destruct H1 as [?|H1]; [done|]. by apply (Hc b1). }
    assert (Hc2 : c2 ≠ c ∧ shapeOr w b0 D b2 c2).
    { unfold shapeOr. destruct (decide (b2 = b0)); [tauto|].
      split; [|done]. intros ->. destruct H2 as [?|H2]; [done|]. by apply (Hc b2). }
    destruct Hc1 as [Hc1 HS1'], Hc2 as [Hc2 HS2'].
    destruct (Hcomp b1 b2 c1 c2 H1 H2 Hne HS1' HS2') as (r & Hr & Hlk).
    exists r. rewrite Hp. split; [|done]. rewrite Hm.
    apply list_elem_of_filter. split; [|done]. apply stays_collider.
    unfold touches. destruct Hlk as [(Ha & _ & Hb & _)|(Ha & _ & Hb & _)];
      simpl in *; rewrite Ha, Hb; tauto.
  - intros x b'. rewrite HmB, Hsh. intros [Hx _]. by apply Hown.
Qed.

(** * The registry between operations *)

Lemma Bookkeeping_same (w w' : World) :
  mPairs w' = mPairs w → pairs w' = pairs w → mPairsHash w' = mPairsHash w →
  pool w' = pool w → nextPair w' = nextPair w → bodies w' = bodies w →
  colliders w' = colliders w →
  Bookkeeping w → Bookkeeping w'.
Proof.
  intros HmP Hp Hh Hpl Hn Hb Hc [H1 H2 H3 H4 [H5 H6]]. split.
  - by apply (PoolWf_same w).
  - unfold HashOk. by rewrite Hh, HmP, Hp.
  - unfold ListsOk. by rewrite Hb, HmP, Hp.
  - unfold DistinctEnds. by rewrite HmP, Hp.
  - split.
    + unfold canonical. by rewrite HmP, Hp, Hc.
    + by rewrite Hpl, Hp.
Qed.

Lemma live_same (w w' : World) :
  mPairs w' = mPairs w → pairs w' = pairs w → live w' = live w.
Proof. unfold live. by intros -> ->. Qed.

(** A change of the scene graph that no other active body sees. *)
Lemma Mid_scene_change (w w1 : World) (b0 : BodyRef) (D : ColliderRef → Prop) :
  SceneWf w1 →
  mBodies w1 = mBodies w → mPairs w1 = mPairs w → pairs w1 = pairs w →
  mPairsHash w1 = mPairsHash w → pool w1 = pool w → nextPair w1 = nextPair w →
  bodies w1 = bodies w → colliders w1 = colliders w →
  (∀ b, b ∈ mBodies w → b ≠ b0 → shapes w1 b = shapes w b) →
  Mid w b0 D → Mid w1 b0 D.
Proof.
  intros Hwf HmB HmP Hp Hh Hpl Hn Hb Hc Hsh [H1 H2 H3 H4 H5 H6 H7].
  assert (Hlive : live w1 = live w) by by apply live_same.
  assert (HS : ∀ b x, activeOr w b0 b → shapeOr w1 b0 D b x ↔ shapeOr w b0 D b x).
  { intros b x Hact. unfold shapeOr. destruct (decide (b = b0)); [done|].
    destruct Hact as [?|Hact]; [done|]. by rewrite Hsh. }
  split.
  - done.
  - by rewrite HmB.
  - by apply (Bookkeeping_same w).
  - by rewrite Hlive.
  - intros p. rewrite Hlive. intros Hp'. destruct (H5 p Hp') as (HA & HB & HSa & HSb).
    unfold activeOr. rewrite HmB. split; [done|]. split; [done|].
    split; by apply HS.
  - intros b1 b2 c1 c2. unfold activeOr at 1 2. rewrite HmB, HmP, Hp.
    intros HA HB Hne HS1 HS2. apply H6; try done; by apply HS.
  - intros x b'. rewrite HmB. intros Hx Hb' Hne. rewrite Hsh by done. by apply H7.
Qed.

Lemma Full_scene_change (w w1 : World) :
  SceneWf w1 →
  mBodies w1 = mBodies w → mPairs w1 = mPairs w → pairs w1 = pairs w →
  mPairsHash w1 = mPairsHash w → pool w1 = pool w → nextPair w1 = nextPair w →
  bodies w1 = bodies w → colliders w1 = colliders w →
  (∀ b, b ∈ mBodies w → shapes w1 b = shapes w b) →
  Full w → Full w1.
Proof.
  intros Hwf HmB HmP Hp Hh Hpl Hn Hb Hc Hsh [H1 H2 H3]. split.
  - by apply (Inv_scene_change w).
  - by apply (Bookkeeping_same w).
  - intros b1 b2 c1 c2. rewrite HmB, HmP, Hp. intros Hb1 Hb2.
    rewrite !Hsh by done. by apply H3.
Qed.

(** Entering an operation on an active body. *)
Lemma Full_Mid (w : World) (b0 : BodyRef) :
  Full w → b0 ∈ mBodies w → Mid w b0 (λ x, x ∈ shapes w b0).
Proof.
  intros [Hinv Hbk Hcomp] Hb0. destruct Hinv as [Hwf Hpool Hnd Hlinks Hkeys].
  rewrite Forall_forall in Hlinks.
  assert (HS : ∀ b x, shapeOr w b0 (λ x, x ∈ shapes w b0) b x ↔ x ∈ shapes w b).
  { intros b x. unfold shapeOr. by destruct (decide (b = b0)) as [->|]. }
  assert (HA : ∀ b, activeOr w b0 b ↔ b ∈ mBodies w).
  { intros b. unfold activeOr. split; [by intros [->|]|by right]. }
  split; try done.
  - intros p Hp. destruct (Hlinks p Hp) as (H1 & H2 & _ & H3 & H4).
    rewrite !HA, !HS. done.
  - intros b1 b2 c1 c2. rewrite !HA, !HS. apply Hcomp.
  - intros x b' Hx Hb' Hne Hx'. apply Hne. by apply (shapes_inj w b' b0 x).
Qed.

Lemma Mid_distinct (w : World) (b0 : BodyRef) (D : ColliderRef → Prop) (p : Pair.t) :
  Mid w b0 D → p ∈ live w → Pair.bodyA p ≠ Pair.bodyB p.
Proof.
  intros Hmid Hp. apply live_elem in Hp as (r & Hr & ->).
  by apply (bk_ends w (mid_book w b0 D Hmid)).
Qed.

(** Leaving an operation on an active body. *)
Lemma Mid_Full (w : World) (b0 : BodyRef) (D : ColliderRef → Prop) :
  Mid w b0 D → b0 ∈ mBodies w → (∀ x, D x ↔ x ∈ shapes w b0) → Full w.
Proof.
  intros Hmid Hb0 HD.
  pose proof (λ p, Mid_distinct w b0 D p Hmid) as Hdist.
  destruct Hmid as [Hwf Hnd Hbk Hkeys Hlinks Hcomp Hown].
  assert (HS : ∀ b x, shapeOr w b0 D b x ↔ x ∈ shapes w b).
  { intros b x. unfold shapeOr. destruct (decide (b = b0)) as [->|]; [apply HD|done]. }
  assert (HA : ∀ b, activeOr w b0 b ↔ b ∈ mBodies w).
  { intros b. unfold activeOr. split; [by intros [->|]|by right]. }
  split; [split|done|]; try done.
  - apply Hbk.
  - apply Forall_forall. intros p Hp. destruct (Hlinks p Hp) as (H1 & H2 & H3 & H4).
    rewrite !HA in *. rewrite !HS in *. split; [done|]. split; [done|].
    split; [by apply Hdist|done].
  - intros b1 b2 c1 c2 H1 H2 Hne H3 H4. apply Hcomp; try done.
    all: by first [apply HA | apply HS].
Qed.

(** No maintained pair has an inactive body as an end. *)
Lemma Full_inactive (w : World) (b0 : BodyRef) (r : PairRef) :
  Full w → b0 ∉ mBodies w → r ∈ mPairs w → ¬ involves (pairs w r) b0.
Proof.
  intros [Hinv _ _] Hb0 Hr Hi.
  pose proof (inv_links w Hinv) as Hl. rewrite Forall_forall in Hl.
  destruct (Hl (pairs w r)) as (HA & HB & _); [apply live_elem; eauto|].
  destruct Hi as [<-|<-]; done.
Qed.

(** The pair list of an inactive body is empty. *)
Lemma Full_inactive_list (w : World) (b0 : BodyRef) :
  Full w → b0 ∉ mBodies w → RigidBody.mPairs (bodies w b0) = [].
Proof.
  intros Hfull Hb0. destruct (bk_lists w (full_book w Hfull) b0) as [_ Hin].
  apply elem_of_nil_inv. intros r Hr. apply Hin in Hr as [Hr Hi].
  by apply (Full_inactive w b0 r).
Qed.


(** ** [__addBody] *)

(** Entering [__addBody]: the new body takes part with no shape yet. *)
Lemma Full_Mid_new (w : World) (b0 : BodyRef) :
  Full w → b0 ∉ mBodies w → Mid (set_body_mPairs b0 [] w) b0 (λ _, False).
Proof.
  intros Hfull Hb0.
  pose proof (λ r, Full_inactive w b0 r Hfull Hb0) as Hnone.
  destruct Hfull as [Hinv Hbk Hcomp]. destruct Hinv as [Hwf Hpool Hnd Hlinks Hkeys].
  rewrite Forall_forall in Hlinks.
  set (w0 := set_body_mPairs b0 [] w).
  assert (Hs : sameScene w w0) by apply set_body_mPairs_sameScene.
  assert (Hsh : ∀ b, shapes w0 b = shapes w b) by (intros; by apply sameScene_shapes).
  assert (Hlive : live w0 = live w) by done.
  split.
  - by eapply sameScene_wf.
  - done.
  - destruct Hbk as [H1 H2 H3 H4 H5]. split; try done.
    intros body. unfold w0, set_body_mPairs. cbn.
    destruct (decide (b0 = body)) as [<-|Hne].
    + rewrite fn_lookup_insert. cbn. split; [constructor|].
      intros r. split; [by intros ?%elem_of_nil|]. intros [Hr Hi].
      by destruct (Hnone r Hr).
    + rewrite fn_lookup_insert_ne by done. apply H3.
  - done.
  - intros p. rewrite Hlive. intros Hp.
    destruct (Hlinks p Hp) as (HA & HB & _ & HSa & HSb).
    unfold activeOr, shapeOr. rewrite !Hsh.
    change (mBodies w0) with (mBodies w).
    split; [by right|]. split; [by right|].
    rewrite !decide_False; [done| |]; by intros <-.
  - intros b1 b2 c1 c2. unfold activeOr, shapeOr. rewrite !Hsh.
    change (mBodies w0) with (mBodies w). change (mPairs w0) with (mPairs w).
    change (pairs w0) with (pairs w).
    destruct (decide (b1 = b0)); [done|]. destruct (decide (b2 = b0)); [done|].
    intros [?|H1] [?|H2]; try done. by apply Hcomp.
  - done.
Qed.

(** The loop of [__addBody] and the single call of [__addCollider]. *)
Lemma addPairs_loop_Mid (b0 : BodyRef) (cs : list ColliderRef)
    (D : ColliderRef → Prop) (w : World) :
  Mid w b0 D → NoDup cs → (∀ c, c ∈ cs → ¬ D c) →
  (∀ c b', c ∈ cs → b' ∈ mBodies w → b' ≠ b0 → c ∉ shapes w b') →
  let w' := fold_left (λ w c, __addPairs c b0 w) cs w in
  Mid w' b0 (λ x, D x ∨ x ∈ cs) ∧ sameScene w w'.
Proof.
  revert D w. induction cs as [|c cs IH]; intros D w Hmid Hnd HD Hc; simpl.
  - split; [|apply sameScene_refl]. eapply Mid_ext; [|exact Hmid].
    intros x. split; [by left|]. intros [?|?%elem_of_nil]; done.
  - apply list.NoDup_cons in Hnd as [Hc' Hnd].
    destruct (addPairs_Mid c b0 D w Hmid) as [Hmid1 Hs1].
    { apply HD. left. }
    { intros b'. apply Hc. left. }
    destruct (IH (λ x, D x ∨ x = c) (__addPairs c b0 w) Hmid1 Hnd) as [Hmid2 Hs2].
    { intros c'' Hc'' [HDc| ->]; [|done]. apply (HD c''); [by right|done]. }
    { intros c'' b' Hc'' Hb'. destruct Hs1 as (HmB & Hrest).
      rewrite HmB in Hb'. rewrite (sameScene_shapes w _ b' (conj HmB Hrest)).
      apply Hc; [by right|done]. }
    split; [|by eapply sameScene_trans].
    eapply Mid_ext; [|exact Hmid2]. intros x. simpl. rewrite elem_of_cons. tauto.
Qed.

(** Leaving [__addBody]: the body becomes active. *)
Lemma Mid_Full_new (w : World) (b0 : BodyRef) (D : ColliderRef → Prop) :
  Mid w b0 D → b0 ∉ mBodies w → (∀ x, D x ↔ x ∈ shapes w b0) →
  Full (set_mBodies (mBodies w ++ [b0]) w).
Proof.
  intros Hmid Hb0 HD.
  pose proof (λ p, Mid_distinct w b0 D p Hmid) as Hdist.
  destruct Hmid as [Hwf Hnd Hbk Hkeys Hlinks Hcomp Hown].
  assert (HS : ∀ b x, shapeOr w b0 D b x ↔ x ∈ shapes w b).
  { intros b x. unfold shapeOr. destruct (decide (b = b0)) as [->|]; [apply HD|done]. }
  assert (HA : ∀ b, activeOr w b0 b ↔ b ∈ mBodies w ++ [b0]).
  { intros b. unfold activeOr. rewrite elem_of_app, list_elem_of_singleton. tauto. }
  split; [split| |].
  - by apply SceneWf_set_mBodies.
  - apply (PoolWf_same w); try done. apply Hbk.
  - simpl. apply NoDup_app. split; [done|]. split; [|apply NoDup_singleton].
    intros x Hx Hx'. apply list_elem_of_singleton in Hx' as ->. done.
  - apply Forall_forall. intros p Hp. destruct (Hlinks p Hp) as (H1 & H2 & H3 & H4).
    rewrite !HA in *. rewrite !HS in *. split; [done|]. split; [done|].
    split; [by apply Hdist|done].
  - done.
  - by apply (Bookkeeping_same w).
  - intros b1 b2 c1 c2 H1 H2 Hne H3 H4. apply Hcomp; try done.
    all: by first [apply HA | apply HS].
Qed.

Lemma addBody_shapes_fold (w w0 : World) (b : BodyRef) :
  RigidBody.mCollider (bodies w0 b) = RigidBody.mCollider (bodies w b) →
  (if length (collidersCache w b) =? 0
   then __addPairs (RigidBody.mCollider (bodies w0 b)) b w0
   else fold_left (λ w1 c, __addPairs c b w1) (collidersCache w b) w0)
  = fold_left (λ w1 c, __addPairs c b w1) (shapes w b) w0.
Proof.
  intros ->. unfold shapes. by destruct (length (collidersCache w b) =? 0).
Qed.

Lemma addBody_Full (w : World) (b : BodyRef) :
  Full w → b ∉ mBodies w → Full (__addBody b w).
Proof.
  intros Hfull Hb. unfold __addBody.
  pose proof (inv_scene w (full_inv w Hfull)) as Hwf.
  pose proof (Full_Mid_new w b Hfull Hb) as Hmid0.
  set (w0 := set_body_mPairs b [] w) in *.
  assert (Hs0 : sameScene w w0) by apply set_body_mPairs_sameScene.
  rewrite addBody_shapes_fold by (destruct Hs0 as (_ & _ & Hf); apply Hf).
  destruct (addPairs_loop_Mid b (shapes w b) (λ _, False) w0 Hmid0) as [Hmid1 Hs1].
  { by apply shapes_NoDup. }
  { tauto. }
  { intros c b' Hc Hb' Hne Hc'. rewrite (sameScene_shapes w w0 b' Hs0) in Hc'.
    apply Hne. by apply (shapes_inj w b' b c). }
  set (w1 := fold_left _ (shapes w b) w0) in *.
  assert (Hs : sameScene w w1) by by eapply sameScene_trans.
  apply (Mid_Full_new w1 b _ Hmid1).
  - by destruct Hs as (-> & _).
  - intros x. rewrite (sameScene_shapes w w1 b Hs). tauto.
Qed.

(** ** [__removeBody] *)

Lemma removePairs_loop_Mid (b0 : BodyRef) (cs : list ColliderRef)
    (D : ColliderRef → Prop) (w : World) :
  Mid w b0 D →
  (∀ c b', c ∈ cs → b' ∈ mBodies w → b' ≠ b0 → c ∉ shapes w b') →
  let w' := fold_left (λ w c, __removePairs (JCollider c) w) cs w in
  Mid w' b0 (λ x, D x ∧ x ∉ cs) ∧ sameScene w w'.
Proof.
  revert D w. induction cs as [|c cs IH]; intros D w Hmid Hc; simpl.
  - split; [|apply sameScene_refl]. eapply Mid_ext; [|exact Hmid].
    intros x. split; [|tauto]. intros Hx. split; [done|]. by intros ?%elem_of_nil.
  - destruct (removePairs_Mid c b0 D w Hmid) as [Hmid1 Hs1].
    { intros b'. apply Hc. left. }
    destruct (IH (λ x, D x ∧ x ≠ c) (__removePairs (JCollider c) w) Hmid1) as [Hmid2 Hs2].
    { intros c'' b' Hc'' Hb'. destruct Hs1 as (HmB & Hrest).
      rewrite HmB in Hb'. rewrite (sameScene_shapes w _ b' (conj HmB Hrest)).
      apply Hc; [by right|done]. }
    split; [|by eapply sameScene_trans].
    eapply Mid_ext; [|exact Hmid2]. intros x. simpl. rewrite not_elem_of_cons. tauto.
Qed.

(** Leaving [__removeBody]: the body, left without shapes, stops being
    active. *)
Lemma Mid_Full_gone (w : World) (b0 : BodyRef) (D : ColliderRef → Prop) :
  Mid w b0 D → b0 ∈ mBodies w → (∀ x, ¬ D x) →
  let w2 := set_body_mPairs b0 [] w in
  Full (set_mBodies (JS.splice1 (JS.indexOf (mBodies w2) b0) (mBodies w2)) w2).
Proof.
  intros Hmid Hb0 HD w2.
  pose proof (λ p, Mid_distinct w b0 D p Hmid) as Hdist.
  destruct Hmid as [Hwf Hnd Hbk Hkeys Hlinks Hcomp Hown].
  assert (Hs : sameScene w w2) by apply set_body_mPairs_sameScene.
  assert (Hsh : ∀ b, shapes w2 b = shapes w b) by (intros; by apply sameScene_shapes).
  change (mBodies w2) with (mBodies w).
  destruct (splice_indexOf (mBodies w) b0 Hnd Hb0) as [Hnd' Hel].
  set (l' := JS.splice1 _ _) in *.
  assert (Hends : ∀ p, p ∈ live w →
    Pair.bodyA p ∈ l' ∧ Pair.bodyB p ∈ l'
    ∧ Pair.a p ∈ shapes w (Pair.bodyA p) ∧ Pair.b p ∈ shapes w (Pair.bodyB p)).
  { intros p Hp. destruct (Hlinks p Hp) as (HA & HB & HSa & HSb).
    unfold activeOr, shapeOr in *. rewrite !Hel.
    destruct (decide (Pair.bodyA p = b0)); [by destruct (HD (Pair.a p))|].
    destruct (decide (Pair.bodyB p = b0)); [by destruct (HD (Pair.b p))|].
    destruct HA as [?|HA]; [done|]. destruct HB as [?|HB]; [done|]. done. }
  split; [split| |].
  - apply SceneWf_set_mBodies. by eapply sameScene_wf.
  - apply (PoolWf_same w); try done. apply Hbk.
  - done.
  - apply Forall_forall. intros p Hp. destruct (Hends p Hp) as (H1 & H2 & H3 & H4).
    split; [done|]. split; [done|]. split; [by apply Hdist|].
    change (Pair.a p ∈ shapes w2 (Pair.bodyA p) ∧ Pair.b p ∈ shapes w2 (Pair.bodyB p)).
    by rewrite !Hsh.
  - done.
  - destruct Hbk as [H1 H2 H3 H4 H5]. split; try done.
    intros body. cbn.
    destruct (decide (b0 = body)) as [<-|Hne].
    + rewrite fn_lookup_insert. cbn. split; [constructor|].
      intros r. split; [by intros ?%elem_of_nil|]. intros [Hr Hi]. exfalso.
      destruct (Hends (pairs w r)) as (HA & HB & _); [apply live_elem; eauto|].
      apply Hel in HA as [_ HA]. apply Hel in HB as [_ HB].
      destruct Hi as [Hi|Hi]; done.
    + rewrite fn_lookup_insert_ne by done. apply H3.
  - intros b1 b2 c1 c2. cbn. fold l'. rewrite !Hel.
    change (shapes (set_mBodies l' w2) b1) with (shapes w2 b1).
    change (shapes (set_mBodies l' w2) b2) with (shapes w2 b2).
    rewrite !Hsh. intros [H1 Hn1] [H2 Hn2] Hne H3 H4.
    apply Hcomp; try done; unfold activeOr, shapeOr.
    + by right.
    + by right.
    + by rewrite decide_False.
    + by rewrite decide_False.
Qed.

Lemma removeBody_shapes_fold (w : World) (b : BodyRef) :
  (if length (collidersCache w b) =? 0
   then __removePairs (JCollider (RigidBody.mCollider (bodies w b))) w
   else fold_left (λ w0 c, __removePairs (JCollider c) w0) (collidersCache w b) w)
  = fold_left (λ w0 c, __removePairs (JCollider c) w0) (shapes w b) w.
Proof. unfold shapes. by destruct (length (collidersCache w b) =? 0). Qed.

Lemma removeBody_Full (w : World) (b : BodyRef) :
  Full w → b ∈ mBodies w → Full (__removeBody b w).
Proof.
  intros Hfull Hb. unfold __removeBody. rewrite removeBody_shapes_fold.
  pose proof (inv_scene w (full_inv w Hfull)) as Hwf.
  pose proof (Full_Mid w b Hfull Hb) as Hmid0.
  destruct (removePairs_loop_Mid b (shapes w b) _ w Hmid0) as [Hmid1 Hs1].
  { intros c b' Hc Hb' Hne Hc'. apply Hne. by apply (shapes_inj w b' b c). }
  set (w1 := fold_left _ (shapes w b) w) in *.
  apply (Mid_Full_gone w1 b _ Hmid1).
  - by destruct Hs1 as (-> & _).
  - tauto.
Qed.

(** ** [__addCollider] and [__removeCollider] *)

Lemma addShape_Full (w : World) (g : GameObjectRef) (c : ColliderRef) :
  Full w → opOk w (AddShape g c) → Full (apply w (AddShape g c)).
Proof.
  intros Hfull Hok. simpl. set (w1 := attachCollider g c w).
  pose proof (inv_scene w (full_inv w Hfull)) as Hwf.
  assert (Hwf1 : SceneWf w1) by (by apply attach_wf).
  assert (Hb1 : bodies w1 = bodies w) by done.
  assert (Hsh_other : ∀ b', RigidBody.gameObject (bodies w b') ≠ g → shapes w1 b' = shapes w b').
  { intros b' Hne. apply shapes_ext; [done|]. unfold w1. rewrite attach_cache.
    rewrite decide_False; [done|]. congruence. }
  unfold __addCollider.
  rewrite (attach_rigidBody g g c w : GameObject.rigidBody (gameObjects w1 g) = _).
  destruct (GameObject.rigidBody (gameObjects w g)) as [body|] eqn:Hg.
  2: { apply (Full_scene_change w w1); try done.
       intros b _. apply Hsh_other. by apply object_without_body. }
  destruct (bool_decide (JS.indexOf (mBodies w1) body ≠ (-1)%Z)) eqn:Hact.
  2: { apply bool_decide_eq_false in Hact.
       assert (Hnb : body ∉ mBodies w).
       { intros Hin. apply Hact. by apply indexOf_present. }
       apply (Full_scene_change w w1); try done.
       intros b Hb. apply Hsh_other. eapply object_of_other_body; eauto.
       by intros ->. }
  apply bool_decide_eq_true in Hact. apply indexOf_present in Hact.
  change (mBodies w1) with (mBodies w) in Hact.
  pose proof (wf_body_of_object w Hwf g body Hg) as Hgo.
  assert (Hsh_body : shapes w1 body = GameObject.mCollidersCache (gameObjects w g) ++ [c]).
  { unfold shapes, collidersCache. rewrite Hb1, Hgo. unfold w1. rewrite attach_cache.
    rewrite decide_True by done. rewrite length_app. simpl.
    by rewrite Nat.add_1_r. }
  assert (Hcfresh : ∀ b', c ∉ shapes w b').
  { intros b' Hc. apply shapes_owns in Hc. destruct Hok as [Hc1 Hc2].
    destruct Hc as [He|Hin]; [by apply (Hc2 b')|by apply (Hc1 _ Hin)]. }
  assert (Hmid1 : Mid w1 body (λ x, x ∈ shapes w body)).
  { apply (Mid_scene_change w w1); try done; [|by apply Full_Mid].
    intros b' Hb' Hne. apply Hsh_other. by eapply object_of_other_body. }
  destruct (addPairs_Mid c body _ w1 Hmid1) as [Hmid2 Hs2].
  { apply Hcfresh. }
  { intros b' Hb' Hne. rewrite Hsh_other by (by eapply object_of_other_body).
    apply Hcfresh. }
  set (w2 := __addPairs c body w1) in *.
  assert (HmB2 : mBodies w2 = mBodies w) by apply Hs2.
  assert (Hsh2 : ∀ b', shapes w2 b' = shapes w1 b') by (intros; by apply sameScene_shapes).
  assert (Hc2 : GameObject.mCollidersCache (gameObjects w2 g)
                = GameObject.mCollidersCache (gameObjects w g) ++ [c]).
  { destruct Hs2 as (_ & -> & _). unfold w1. rewrite attach_cache. by rewrite decide_True. }
  assert (Hmc2 : RigidBody.mCollider (bodies w2 body) = RigidBody.mCollider (bodies w body)).
  { destruct Hs2 as (_ & _ & Hf). by destruct (Hf body) as [_ ->]. }
  rewrite Hc2, Hmc2.
  destruct (GameObject.mCollidersCache (gameObjects w g)) as [|c0 rest] eqn:Hcache.
  - (* first explicit collider: the default shape is retired *)
    simpl.
    set (d := RigidBody.mCollider (bodies w body)).
    assert (Hsb : shapes w body = [d]).
    { unfold shapes, collidersCache. by rewrite Hgo, Hcache. }
    destruct (removePairs_Mid d body _ w2 Hmid2) as [Hmid3 Hs3].
    { intros b' Hb' Hne. apply (mid_own w2 body _ Hmid2); try done.
      left. rewrite Hsb. left. }
    set (w3 := __removePairs (JCollider d) w2) in *.
    apply (Mid_Full w3 body _ Hmid3).
    + destruct Hs3 as (-> & _). by rewrite HmB2.
    + intros x. rewrite (sameScene_shapes w2 w3 body Hs3), Hsh2, Hsh_body, Hsb.
      simpl. rewrite !list_elem_of_singleton. split; [tauto|].
      intros ->. split; [by right|]. destruct Hok as [_ Hd]. intros He.
      by apply (Hd body).
  - (* one more explicit collider *)
    replace (length ((c0 :: rest) ++ [c]) =? 1) with false
      by (simpl; rewrite length_app; simpl; by rewrite Nat.add_1_r).
    assert (Hsb : shapes w body = c0 :: rest).
    { unfold shapes, collidersCache. by rewrite Hgo, Hcache. }
    apply (Mid_Full w2 body _ Hmid2).
    + by rewrite HmB2.
    + intros x. rewrite Hsh2, Hsh_body, Hsb, elem_of_app, list_elem_of_singleton. tauto.
Qed.

Lemma removeShape_Full (w : World) (g : GameObjectRef) (c : ColliderRef) :
  Full w → opOk w (RemoveShape g c) → Full (apply w (RemoveShape g c)).
Proof.
  intros Hfull Hok. simpl in Hok.
  change (apply w (RemoveShape g c))
    with (fst (__removeCollider (JGameObject g) (JCollider c) (detachCollider g c w))).
  set (w1 := detachCollider g c w).
  pose proof (inv_scene w (full_inv w Hfull)) as Hwf.
  assert (Hwf1 : SceneWf w1) by (by apply detach_wf).
  assert (Hb1 : bodies w1 = bodies w) by done.
  assert (Hsh_other : ∀ b', RigidBody.gameObject (bodies w b') ≠ g → shapes w1 b' = shapes w b').
  { intros b' Hne. apply shapes_ext; [done|]. unfold w1. rewrite detach_cache.
    rewrite decide_False; [done|]. congruence. }
  unfold __removeCollider.
  rewrite (detach_rigidBody g g c w : GameObject.rigidBody (gameObjects w1 g) = _).
  destruct (GameObject.rigidBody (gameObjects w g)) as [body|] eqn:Hg.
  2: { simpl. apply (Full_scene_change w w1); try done.
       intros b _. apply Hsh_other. by apply object_without_body. }
  destruct (bool_decide (JS.indexOf (mBodies w1) body ≠ (-1)%Z)) eqn:Hact.
  2: { apply bool_decide_eq_false in Hact.
       assert (Hnb : body ∉ mBodies w).
       { intros Hin. apply Hact. by apply indexOf_present. }
       simpl. apply (Full_scene_change w w1); try done.
       intros b Hb. apply Hsh_other. eapply object_of_other_body; eauto.
       by intros ->. }
  apply bool_decide_eq_true in Hact. apply indexOf_present in Hact.
  change (mBodies w1) with (mBodies w) in Hact.
  pose proof (wf_body_of_object w Hwf g body Hg) as Hgo.
  set (d := RigidBody.mCollider (bodies w body)).
  assert (Hsb : shapes w body = GameObject.mCollidersCache (gameObjects w g)).
  { unfold shapes, collidersCache. rewrite Hgo.
    destruct (GameObject.mCollidersCache (gameObjects w g)); [|done].
    by apply elem_of_nil in Hok. }
  assert (Hmid1 : Mid w1 body (λ x, x ∈ shapes w body)).
  { apply (Mid_scene_change w w1); try done; [|by apply Full_Mid].
    intros b' Hb' Hne. apply Hsh_other. by eapply object_of_other_body. }
  destruct (removePairs_Mid c body _ w1 Hmid1) as [Hmid2 Hs2].
  { intros b' Hb' Hne. apply (mid_own w1 body _ Hmid1); try done. by rewrite Hsb. }
  set (w2 := __removePairs (JCollider c) w1) in *.
  assert (HmB2 : mBodies w2 = mBodies w) by apply Hs2.
  assert (Hsh2 : ∀ b', shapes w2 b' = shapes w1 b') by (intros; by apply sameScene_shapes).
  assert (Hc2 : GameObject.mCollidersCache (gameObjects w2 g)
                = filter (λ x, x ≠ c) (GameObject.mCollidersCache (gameObjects w g))).
  { destruct Hs2 as (_ & -> & _). unfold w1. rewrite detach_cache. by rewrite decide_True. }
  assert (Hmc2 : RigidBody.mCollider (bodies w2 body) = d).
  { destruct Hs2 as (_ & _ & Hf). by destruct (Hf body) as [_ ->]. }
  assert (Hrb2 : GameObject.rigidBody (gameObjects w2 g) = Some body).
  { destruct Hs2 as (_ & -> & _). unfold w1. by rewrite detach_rigidBody. }
  rewrite Hc2, Hmc2.
  destruct (filter (λ x, x ≠ c) (GameObject.mCollidersCache (gameObjects w g)))
    as [|c0 rest] eqn:Hcache.
  - (* last explicit collider: the default shape comes back *)
    simpl. unfold __addCollider. rewrite Hrb2.
    rewrite bool_decide_eq_true_2 by (apply indexOf_present; by rewrite HmB2).
    assert (Hall : ∀ x, x ∈ shapes w body → x = c).
    { intros x Hx. rewrite Hsb in Hx. destruct (decide (x = c)) as [|Hne]; [done|].
      assert (Hin : x ∈ filter (λ x, x ≠ c) (GameObject.mCollidersCache (gameObjects w g))).
      { by apply list_elem_of_filter. }
      rewrite Hcache in Hin. by apply elem_of_nil in Hin. }
    assert (Hsb2 : shapes w2 body = [d]).
    { rewrite Hsh2. unfold shapes, collidersCache. rewrite Hb1, Hgo.
      unfold w1. rewrite detach_cache, decide_True by done. by rewrite Hcache. }
    assert (Hdc : d ∉ GameObject.mCollidersCache (gameObjects w g)).
    { apply (wf_default_not_cached w Hwf). }
    destruct (addPairs_Mid d body _ w2 Hmid2) as [Hmid3 Hs3].
    { rewrite Hsb. tauto. }
    { intros b' Hb' Hne Hd. rewrite Hsh2, Hsh_other in Hd by (by eapply object_of_other_body).
      apply Hne. eapply (owns_inj w); eauto using shapes_owns. by left. }
    set (w3 := __addPairs d body w2) in *.
    assert (Hc3 : GameObject.mCollidersCache (gameObjects w3 g) = []).
    { destruct Hs3 as (_ & -> & _). by rewrite Hc2. }
    rewrite Hc3. simpl.
    apply (Mid_Full w3 body _ Hmid3).
    + destruct Hs3 as (-> & _). by rewrite HmB2.
    + intros x. rewrite (sameScene_shapes w2 w3 body Hs3), Hsb2, list_elem_of_singleton.
      split; [|tauto]. intros [[Hx Hne]|Hx]; [|done]. by destruct (Hne (Hall x Hx)).
  - (* other explicit colliders remain *)
    simpl.
    assert (Hsb2 : shapes w2 body = c0 :: rest).
    { rewrite Hsh2. unfold shapes, collidersCache. rewrite Hb1, Hgo.
      unfold w1. rewrite detach_cache, decide_True by done. by rewrite Hcache. }
    apply (Mid_Full w2 body _ Hmid2).
    + by rewrite HmB2.
    + intros x. rewrite Hsb2, <- Hcache, list_elem_of_filter, Hsb. tauto.
Qed.

(** ** Sequences of operations *)

Lemma apply_Full (w : World) (op : Op) : Full w → opOk w op → Full (apply w op).
Proof.
  intros Hfull Hok. destruct op as [b|b|g c|g c].
  - by apply addBody_Full.
  - by apply removeBody_Full.
  - by apply addShape_Full.
  - by apply removeShape_Full.
Qed.

Lemma run_Full (ops : list Op) (w : World) : Full w → opsOk ops w → Full (run ops w).
Proof.
  revert w. induction ops as [|op ops IH]; intros w Hfull Hok; [done|].
  destruct Hok as [Hop Hok]. apply IH; [by apply apply_Full|done].
Qed.

Lemma Fresh_Full (w : World) : Fresh w → Full w.
Proof.
  intros [Hwf HmB HmP Hh Hl Hpool Hpc]. split.
  - by apply Inv_initial.
  - split; try done.
    + intros k r. rewrite Hh, HmP, lookup_empty. split; [done|].
      by intros [?%elem_of_nil _].
    + intros body. rewrite Hl, HmP. split; [constructor|].
      intros r. split; [by intros ?%elem_of_nil|by intros [?%elem_of_nil _]].
    + intros r. rewrite HmP. by intros ?%elem_of_nil.
    + split; [|done]. intros r. rewrite HmP. by intros ?%elem_of_nil.
  - intros b1 b2 c1 c2. rewrite HmB. by intros ?%elem_of_nil.
Qed.
(** * Consequences *)

Lemma filter_all {A} (P : A → Prop) `{∀ x, Decision (P x)} (l : list A) :
  (∀ x, x ∈ l → P x) → filter P l = l.
Proof.
  induction l as [|x l IH]; intros HP; [done|].
  rewrite filter_cons_True by (apply HP; left). f_equal. apply IH.
  intros y Hy. apply HP. by right.
Qed.

Lemma filter_none {A} (P : A → Prop) `{∀ x, Decision (P x)} (l : list A) :
  (∀ x, x ∈ l → ¬ P x) → filter P l = [].
Proof.
  induction l as [|x l IH]; intros HP; [done|].
  rewrite filter_cons_False by (apply HP; left). apply IH.
  intros y Hy. apply HP. by right.
Qed.

Lemma filter_ext_elem {A} (P Q : A → Prop) `{∀ x, Decision (P x)} `{∀ x, Decision (Q x)}
    (l : list A) :
  (∀ x, x ∈ l → P x ↔ Q x) → filter P l = filter Q l.
Proof.
  induction l as [|x l IH]; intros HPQ; [done|].
  assert (Hx : P x ↔ Q x) by (apply HPQ; left).
  assert (IH' : filter P l = filter Q l).
  { apply IH. intros y Hy. apply HPQ. by right. }
  destruct (decide (P x)) as [HP|HP].
  - rewrite !filter_cons_True by tauto. by rewrite IH'.
  - rewrite !filter_cons_False by tauto. done.
Qed.

(** ** [__removePairs] twice *)

Lemma removePairs_loop_nothing (collider : jsval) (n : nat) (w : World) :
  (∀ r, r ∈ mPairs w → stays collider (pairs w r)) →
  __removePairs_loop collider n w = w.
Proof.
  intros Hst. induction n as [|i IH]; [done|]. simpl.
  destruct (mPairs w !! i) as [pr|] eqn:Hi; [|done].
  rewrite removePairs_test.
  rewrite bool_decide_eq_true_2; [done|].
  apply Hst. by eapply list_elem_of_lookup_2.
Qed.

(** ** [__addBody] followed by [__removeBody] *)

Lemma addPairs_loop_grown (b : BodyRef) (cs : list ColliderRef) (w : World) :
  PoolWf w →
  let w' := fold_left (λ w c, __addPairs c b w) cs w in
  PoolWf w' ∧ sameScene w w'
  ∧ ∃ rs, mPairs w' = mPairs w ++ rs
          ∧ (∀ r, r ∈ mPairs w → pairs w' r = pairs w r)
          ∧ (∀ r, r ∈ rs → involves (pairs w' r) b).
Proof.
  revert w. induction cs as [|c cs IH]; intros w Hpool; simpl.
  - split; [done|]. split; [apply sameScene_refl|].
    exists []. split; [by rewrite app_nil_r|]. split; [done|].
    by intros r ?%elem_of_nil.
  - destruct (addPairs_Added c b w Hpool) as (Hs1 & Hpool1 & _ & rs1 & Hm1 & Hp1 & Hl1).
    destruct (IH (__addPairs c b w) Hpool1) as (Hpool2 & Hs2 & rs2 & Hm2 & Hp2 & Hi2).
    split; [done|]. split; [by eapply sameScene_trans|]. exists (rs1 ++ rs2).
    split; [by rewrite Hm2, Hm1, (assoc_L (++))|]. split.
    + intros r Hr. rewrite Hp2; [by apply Hp1|]. rewrite Hm1. apply elem_of_app. by left.
    + intros r Hr. apply elem_of_app in Hr as [Hr|Hr]; [|by apply Hi2].
      rewrite Hp2 by (rewrite Hm1; apply elem_of_app; by right).
      apply list_elem_of_lookup in Hr as [i Hi].
      destruct (Forall2_lookup_l _ _ _ _ _ Hl1 Hi) as (t & _ & Hlk).
      unfold involves. destruct Hlk as [(_ & ? & _)|(_ & _ & _ & ?)]; tauto.
Qed.

Lemma removePairs_loop_filter (cs : list ColliderRef) (w : World) :
  PoolWf w →
  let w' := fold_left (λ w c, __removePairs (JCollider c) w) cs w in
  PoolWf w' ∧ pairs w' = pairs w
  ∧ mPairs w' = filter (λ r, clearOf cs (pairs w r)) (mPairs w).
Proof.
  revert w. induction cs as [|c cs IH]; intros w Hpool; simpl.
  - split; [done|]. split; [done|]. symmetry. apply filter_all.
    intros r _. constructor.
  - destruct (removePairs_Removed (JCollider c) w Hpool) as (_ & Hpool1 & Hp1 & Hm1).
    destruct (IH (__removePairs (JCollider c) w) Hpool1) as (Hpool2 & Hp2 & Hm2).
    split; [done|]. split; [congruence|].
    rewrite Hm2, Hm1, Hp1, list_filter_filter. apply filter_ext_elem.
    intros r _. unfold clearOf. rewrite Forall_cons. tauto.
Qed.

Lemma splice_indexOf_last (l : list nat) (x : nat) :
  x ∉ l → JS.splice1 (JS.indexOf (l ++ [x]) x) (l ++ [x]) = l.
Proof.
  intros Hx.
  assert (Hin : x ∈ l ++ [x]) by (apply elem_of_app; right; left).
  destruct (indexOf_from_lookup (l ++ [x]) x 0 Hin) as (i & Hi & Hk).
  unfold JS.indexOf. rewrite Hk, Z.add_0_l.
  rewrite splice1_index by (apply lookup_lt_is_Some; eauto).
  assert (i = length l) as ->.
  { destruct (decide (i < length l)) as [Hlt|Hge].
    - rewrite lookup_app_l in Hi by done. destruct Hx. by eapply list_elem_of_lookup_2.
    - apply lookup_lt_Some in Hi. rewrite length_app in Hi. simpl in Hi. lia. }
  rewrite delete_middle. by rewrite app_nil_r.
Qed.

(** In a registry in order, a maintained pair touches a shape of an
    active body exactly when that body is one of its ends. *)
Lemma Full_clearOf (w : World) (b : BodyRef) (r : PairRef) :
  Full w → b ∈ mBodies w → r ∈ mPairs w →
  clearOf (shapes w b) (pairs w r) ↔ ¬ involves (pairs w r) b.
Proof.
  intros [Hinv _ _] Hb Hr.
  pose proof (inv_scene w Hinv) as Hwf.
  pose proof (inv_links w Hinv) as Hl. rewrite Forall_forall in Hl.
  destruct (Hl (pairs w r)) as (HA & HB & _ & HSa & HSb); [apply live_elem; eauto|].
  unfold clearOf, involves. rewrite Forall_forall. split.
  - intros Hcl [He|He].
    + rewrite He in HSa. destruct (Hcl _ HSa) as [Ha _]. done.
    + rewrite He in HSb. destruct (Hcl _ HSb) as [_ Hb']. done.
  - intros Hni c Hc. apply stays_collider. intros [Ht|Ht]; apply Hni.
    + left. rewrite Ht in HSa. by apply (shapes_inj w _ _ c).
    + right. rewrite Ht in HSb. by apply (shapes_inj w _ _ c).
Qed.

(** What [__addBody] does to the registry lists. *)
Lemma addBody_grown (w : World) (b : BodyRef) :
  PoolWf w →
  let w' := __addBody b w in
  mBodies w' = mBodies w ++ [b]
  ∧ ∃ rs, mPairs w' = mPairs w ++ rs
          ∧ (∀ r, r ∈ mPairs w → pairs w' r = pairs w r)
          ∧ (∀ r, r ∈ rs → involves (pairs w' r) b).
Proof.
  intros Hpool. unfold __addBody.
  set (w0 := set_body_mPairs b [] w).
  assert (Hs0 : sameScene w w0) by apply set_body_mPairs_sameScene.
  rewrite addBody_shapes_fold by (destruct Hs0 as (_ & _ & Hf); apply Hf).
  assert (Hpool0 : PoolWf w0) by by apply (PoolWf_same w).
  destruct (addPairs_loop_grown b (shapes w b) w0 Hpool0) as (_ & Hs & rs & Hm & Hp & Hi).
  set (w1 := fold_left _ (shapes w b) w0) in *.
  split.
  - simpl. by destruct Hs as (-> & _).
  - exists rs. done.
Qed.

(** ** The example world *)

Lemma world0_Fresh : Fresh Example.world0.
Proof.
  split; try done.
  - apply world0_SceneWf.
  - apply world0_PoolWf.
  - intros k r Hr. by apply elem_of_nil in Hr.
Qed.

Lemma example_ops_ok : opsOk example_ops Example.world0.
Proof.
  unfold example_ops. cbn [opsOk opOk]. repeat split.
  - not_in_list.
  - not_in_list.
  - not_in_list.
  - intros g'. destruct g' as [|[|[|g']]]; not_in_list.
  - intros b. destruct b as [|[|[|[|b]]]]; vm_compute; fold_add; lia.
  - intros g'. destruct g' as [|[|[|g']]]; not_in_list.
  - intros b. destruct b as [|[|[|[|b]]]]; vm_compute; fold_add; lia.
  - in_list.
  - in_list.
Qed.

Lemma example_Full : Full example_world.
Proof. apply run_Full; [apply Fresh_Full, world0_Fresh|apply example_ops_ok]. Qed.

(** * Further properties of the registry *)

(** X7 (registry completeness): after any sequence of operations the scene
    graph may issue on a newly constructed world, every two shapes of two
    different active bodies have exactly one maintained pair, and it
    links the two shapes with their bodies. *)
Theorem registry_complete (w0 : World) (ops : list Op) :
  Fresh w0 → opsOk ops w0 →
  let w := run ops w0 in
  ∀ b1 b2 c1 c2,
    b1 ∈ mBodies w → b2 ∈ mBodies w → b1 ≠ b2 →
    c1 ∈ shapes w b1 → c2 ∈ shapes w b2 →
    ∃ r, r ∈ mPairs w
         ∧ linked c1 b1 (pairs w r) (c2, b2)
         ∧ ∀ r', r' ∈ mPairs w →
             touches (pairs w r') c1 → touches (pairs w r') c2 → r' = r.
Proof.
  intros Hfresh Hok w b1 b2 c1 c2 H1 H2 Hne Hc1 Hc2.
  assert (Hfull : Full w) by (apply run_Full; [by apply Fresh_Full|done]).
  destruct (full_complete w Hfull b1 b2 c1 c2) as (r & Hr & Hlk); try done.
  exists r. split; [done|]. split; [done|].
  intros r' Hr' Ht1 Ht2.
  assert (Hc : c1 ≠ c2).
  { intros ->. apply Hne.
    by apply (shapes_inj w b1 b2 c2 (inv_scene w (full_inv w Hfull))). }
  apply (HashOk_key_inj w); [apply Hfull|done|done|].
  rewrite (linked_ukey _ _ _ _ Hlk). simpl. unfold ukey. apply id_eq.
  unfold touches in Ht1, Ht2. destruct Ht1 as [<-|<-], Ht2 as [<-|<-]; tauto.
Qed.

Lemma registry_complete_witness :
  let w := example_world in
  ∃ r, r ∈ mPairs w
       ∧ linked 8 1 (pairs w r) (5, 2)
       ∧ ∀ r', r' ∈ mPairs w →
           touches (pairs w r') 8 → touches (pairs w r') 5 → r' = r.
Proof.
  apply (registry_complete Example.world0 example_ops world0_Fresh example_ops_ok
           1 2 8 5); [in_list|in_list|done|in_list|in_list].
Defined.

(** X8 (hash index): after any such sequence, [mPairsHash] maps a key to
    a pair exactly when the pair is maintained and the key is the
    identifier of its two shapes. *)
Theorem hash_index_exact (w0 : World) (ops : list Op) :
  Fresh w0 → opsOk ops w0 →
  let w := run ops w0 in
  ∀ k r, mPairsHash w !! k = Some r
         ↔ r ∈ mPairs w ∧ Pair.__id (Pair.a (pairs w r)) (Pair.b (pairs w r)) = k.
Proof.
  intros Hfresh Hok w.
  assert (Hfull : Full w) by (apply run_Full; [by apply Fresh_Full|done]).
  apply (bk_hash w (full_book w Hfull)).
Qed.

Lemma hash_index_exact_witness :
  let w := example_world in
  mPairsHash w !! (5, 8) = Some 0
  ↔ 0 ∈ mPairs w ∧ Pair.__id (Pair.a (pairs w 0)) (Pair.b (pairs w 0)) = (5, 8).
Proof.
  apply (hash_index_exact Example.world0 example_ops world0_Fresh example_ops_ok
           (5, 8) 0).
Defined.

(** X9 (hash lookup by shapes): after any such sequence, looking up the
    identifier of two shapes of two different active bodies in
    [mPairsHash], with the shapes in either order, finds the maintained
    pair that links them. *)
Theorem hash_finds_pair_of_shapes (w0 : World) (ops : list Op) :
  Fresh w0 → opsOk ops w0 →
  let w := run ops w0 in
  ∀ b1 b2 c1 c2,
    b1 ∈ mBodies w → b2 ∈ mBodies w → b1 ≠ b2 →
    c1 ∈ shapes w b1 → c2 ∈ shapes w b2 →
    ∃ r, mPairsHash w !! Pair.__id c1 c2 = Some r
         ∧ mPairsHash w !! Pair.__id c2 c1 = Some r
         ∧ r ∈ mPairs w
         ∧ linked c1 b1 (pairs w r) (c2, b2).
Proof.
  intros Hfresh Hok w b1 b2 c1 c2 H1 H2 Hne Hc1 Hc2.
  assert (Hfull : Full w) by (apply run_Full; [by apply Fresh_Full|done]).
  destruct (full_complete w Hfull b1 b2 c1 c2) as (r & Hr & Hlk); try done.
  assert (Hk : mPairsHash w !! Pair.__id c1 c2 = Some r).
  { apply (bk_hash w (full_book w Hfull)). split; [done|].
    by rewrite (linked_ukey _ _ _ _ Hlk). }
  exists r. split; [done|]. split; [by rewrite id_comm|]. done.
Qed.

Lemma hash_finds_pair_of_shapes_witness :
  let w := example_world in
  ∃ r, mPairsHash w !! Pair.__id 8 5 = Some r
       ∧ mPairsHash w !! Pair.__id 5 8 = Some r
       ∧ r ∈ mPairs w
       ∧ linked 8 1 (pairs w r) (5, 2).
Proof.
  apply (hash_finds_pair_of_shapes Example.world0 example_ops world0_Fresh
           example_ops_ok 1 2 8 5); [in_list|in_list|done|in_list|in_list].
Defined.

(** X10 (pair lists of the bodies): after any such sequence, the pair
    list of every body, active or not, holds exactly the maintained pairs
    the body is an end of, each once. *)
Theorem body_pair_lists_exact (w0 : World) (ops : list Op) :
  Fresh w0 → opsOk ops w0 →
  let w := run ops w0 in
  ∀ body,
    NoDup (RigidBody.mPairs (bodies w body))
    ∧ ∀ r, r ∈ RigidBody.mPairs (bodies w body)
           ↔ r ∈ mPairs w
             ∧ (Pair.bodyA (pairs w r) = body ∨ Pair.bodyB (pairs w r) = body).
Proof.
  intros Hfresh Hok w.
  assert (Hfull : Full w) by (apply run_Full; [by apply Fresh_Full|done]).
  apply (bk_lists w (full_book w Hfull)).
Qed.

Lemma body_pair_lists_exact_witness :
  let w := example_world in
  NoDup (RigidBody.mPairs (bodies w 1))
  ∧ ∀ r, r ∈ RigidBody.mPairs (bodies w 1)
         ↔ r ∈ mPairs w
           ∧ (Pair.bodyA (pairs w r) = 1 ∨ Pair.bodyB (pairs w r) = 1).
Proof.
  apply (body_pair_lists_exact Example.world0 example_ops world0_Fresh example_ops_ok 1).
Defined.

(** X11 (pair classes): after any such sequence, every maintained pair is
    of the class that lines 306-312 choose for the classes of its two
    shapes, and in a pair of a box and a circle the box is shape [a]. *)
Theorem pair_classes_canonical (w0 : World) (ops : list Op) :
  Fresh w0 → opsOk ops w0 →
  let w := run ops w0 in
  ∀ r, r ∈ mPairs w →
    let p := pairs w r in
    let ca := Collider.cls (colliders w (Pair.a p)) in
    let cb := Collider.cls (colliders w (Pair.b p)) in
    Pair.constructor p = pairClassOf ca cb
    ∧ (ca = CircleCollider → cb = CircleCollider).
Proof.
  intros Hfresh Hok w r Hr.
  assert (Hfull : Full w) by (apply run_Full; [by apply Fresh_Full|done]).
  by apply (bk_class w (full_book w Hfull)).
Qed.

Lemma pair_classes_canonical_witness :
  let w := example_world in
  let p := pairs w 0 in
  let ca := Collider.cls (colliders w (Pair.a p)) in
  let cb := Collider.cls (colliders w (Pair.b p)) in
  Pair.constructor p = pairClassOf ca cb
  ∧ (ca = CircleCollider → cb = CircleCollider).
Proof.
  apply (pair_classes_canonical Example.world0 example_ops world0_Fresh example_ops_ok 0).
  in_list.
Defined.

(** X12 (pools): after any such sequence, a released pair waits in the
    pool of its own class, in one pool and once, is not maintained, and
    every pair object there is has a reference below [nextPair]. *)
Theorem pool_discipline (w0 : World) (ops : list Op) :
  Fresh w0 → opsOk ops w0 →
  let w := run ops w0 in
  NoDup (mPairs w ++ poolRefs (pool w))
  ∧ (∀ r, r ∈ mPairs w ++ poolRefs (pool w) → r < nextPair w)
  ∧ ∀ k r, r ∈ pool w k → Pair.constructor (pairs w r) = k ∧ r ∉ mPairs w.
Proof.
  intros Hfresh Hok w.
  assert (Hfull : Full w) by (apply run_Full; [by apply Fresh_Full|done]).
  destruct (bk_pool w (full_book w Hfull)) as [Hnd Hlt].
  split; [done|]. split; [done|]. intros k r Hr.
  split; [by apply (bk_class w (full_book w Hfull))|].
  intros Hin. unfold allRefs in Hnd. apply NoDup_app in Hnd as (_ & Hd & _).
  apply (Hd r Hin). by eapply poolRefs_elem.
Qed.

Lemma pool_discipline_witness :
  let w := example_world in
  NoDup (mPairs w ++ poolRefs (pool w))
  ∧ (∀ r, r ∈ mPairs w ++ poolRefs (pool w) → r < nextPair w)
  ∧ ∀ k r, r ∈ pool w k → Pair.constructor (pairs w r) = k ∧ r ∉ mPairs w.
Proof.
  apply (pool_discipline Example.world0 example_ops world0_Fresh example_ops_ok).
Defined.

(** X13 (inactive bodies): after any such sequence, a body that is not
    active has an empty pair list and is an end of no maintained pair. *)
Theorem inactive_body_has_no_pairs (w0 : World) (ops : list Op) (body : BodyRef) :
  Fresh w0 → opsOk ops w0 →
  let w := run ops w0 in
  body ∉ mBodies w →
  RigidBody.mPairs (bodies w body) = []
  ∧ ∀ r, r ∈ mPairs w →
      Pair.bodyA (pairs w r) ≠ body ∧ Pair.bodyB (pairs w r) ≠ body.
Proof.
  intros Hfresh Hok w Hb.
  assert (Hfull : Full w) by (apply run_Full; [by apply Fresh_Full|done]).
  split; [by apply Full_inactive_list|].
  intros r Hr. pose proof (Full_inactive w body r Hfull Hb Hr) as Hni.
  unfold involves in Hni. tauto.
Qed.

Lemma inactive_body_has_no_pairs_witness :
  let w := example_world in
  RigidBody.mPairs (bodies w 3) = []
  ∧ ∀ r, r ∈ mPairs w →
      Pair.bodyA (pairs w r) ≠ 3 ∧ Pair.bodyB (pairs w r) ≠ 3.
Proof.
  apply (inactive_body_has_no_pairs Example.world0 example_ops 3 world0_Fresh
           example_ops_ok).
  not_in_list.
Defined.

(** X14 (a body that comes and goes): after any such sequence, adding a
    body that is not active and removing it again restores the list of
    active bodies, the list of maintained pairs and the hash index, and
    leaves every maintained pair object as it was. *)
Theorem addBody_removeBody_round_trip (w0 : World) (ops : list Op) (body : BodyRef) :
  Fresh w0 → opsOk ops w0 →
  let w := run ops w0 in
  body ∉ mBodies w →
  let w' := __removeBody body (__addBody body w) in
  mBodies w' = mBodies w
  ∧ mPairs w' = mPairs w
  ∧ mPairsHash w' = mPairsHash w
  ∧ ∀ r, r ∈ mPairs w → pairs w' r = pairs w r.
Proof.
  intros Hfresh Hok w Hb.
  assert (Hfull : Full w) by (apply run_Full; [by apply Fresh_Full|done]).
  pose proof (bk_pool w (full_book w Hfull)) as Hpool.
  destruct (addBody_grown w body Hpool) as (HmB1 & rs & Hm1 & Hp1 & Hi1).
  pose proof (addBody_Full w body Hfull Hb) as Hfull1.
  set (w1 := __addBody body w) in *.
  assert (Hb1 : body ∈ mBodies w1).
  { rewrite HmB1. apply elem_of_app. right. left. }
  pose proof (removeBody_Full w1 body Hfull1 Hb1) as Hfull2.
  pose proof (bk_pool w1 (full_book w1 Hfull1)) as Hpool1.
  assert (Hrem : mBodies (__removeBody body w1) = mBodies w
                 ∧ pairs (__removeBody body w1) = pairs w1
                 ∧ mPairs (__removeBody body w1)
                   = filter (λ r, clearOf (shapes w1 body) (pairs w1 r)) (mPairs w1)).
  { unfold __removeBody. rewrite removeBody_shapes_fold.
    destruct (removePairs_loop_filter (shapes w1 body) w1 Hpool1) as (_ & Hp & Hm).
    pose proof (removePairs_fold_mBodies (shapes w1 body) w1 Hpool1) as HmB.
    set (w2 := fold_left _ (shapes w1 body) w1) in *.
    split; [|done]. simpl. rewrite HmB, HmB1. by apply splice_indexOf_last. }
  destruct Hrem as (HmB2 & Hp2 & Hm2). intros w'. subst w'.
  set (w' := __removeBody body w1) in *.
  assert (Hm' : mPairs w' = mPairs w).
  { rewrite Hm2, Hm1, filter_app.
    rewrite (filter_all _ (mPairs w)), (filter_none _ rs); [by rewrite app_nil_r| |].
    - intros r Hr Hcl.
      apply (Full_clearOf w1 body r Hfull1 Hb1) in Hcl.
      + by apply Hcl, Hi1.
      + rewrite Hm1. apply elem_of_app. by right.
    - intros r Hr. apply (Full_clearOf w1 body r Hfull1 Hb1).
      + rewrite Hm1. apply elem_of_app. by left.
      + rewrite Hp1 by done. by apply Full_inactive. }
  assert (Hp' : ∀ r, r ∈ mPairs w → pairs w' r = pairs w r).
  { intros r Hr. rewrite Hp2. by apply Hp1. }
  split; [done|]. split; [done|]. split; [|done].
  apply map_eq. intros k. apply option_eq. intros r.
  rewrite (bk_hash w' (full_book w' Hfull2) k r), (bk_hash w (full_book w Hfull) k r), Hm'.
  split; intros [Hr Hk]; (split; [done|]); [by rewrite <- Hp'|by rewrite Hp'].
Qed.

Lemma addBody_removeBody_round_trip_witness :
  let w := example_world in
  let w' := __removeBody 3 (__addBody 3 w) in
  mBodies w' = mBodies w
  ∧ mPairs w' = mPairs w
  ∧ mPairsHash w' = mPairsHash w
  ∧ ∀ r, r ∈ mPairs w → pairs w' r = pairs w r.
Proof.
  apply (addBody_removeBody_round_trip Example.world0 example_ops 3 world0_Fresh
           example_ops_ok).
  not_in_list.
Defined.

(** X15 ([__removePairs] twice): with the pools in order, a second call
    of [__removePairs] with the same argument changes nothing at all. *)
Theorem removePairs_idempotent (collider : jsval) (w : World) :
  PoolWf w →
  __removePairs collider (__removePairs collider w) = __removePairs collider w.
Proof.
  intros Hpool.
  destruct (removePairs_Removed collider w Hpool) as (_ & _ & Hp & Hm).
  unfold __removePairs at 1. apply removePairs_loop_nothing.
  intros r. rewrite Hm, Hp. by intros [Hst _]%list_elem_of_filter.
Qed.

Lemma removePairs_idempotent_witness :
  __removePairs (JCollider 8) (__removePairs (JCollider 8) example_world)
  = __removePairs (JCollider 8) example_world.
Proof.
  apply removePairs_idempotent. apply (bk_pool _ (full_book _ example_Full)).
Defined.

(** X16 ([__addPairs]): with the pools in order, [__addPairs(collider,
    fromBody)] appends one pair for every shape of every other active body,
    in the order of [mBodies], each linking the collider and [fromBody]
    with that shape and its body; it leaves the maintained pairs there
    were and the list of active bodies as they are. *)
Theorem addPairs_one_pair_per_target (c : ColliderRef) (from : BodyRef) (w : World) :
  PoolWf w →
  let w' := __addPairs c from w in
  mBodies w' = mBodies w
  ∧ ∃ rs, mPairs w' = mPairs w ++ rs
          ∧ (∀ r, r ∈ mPairs w → pairs w' r = pairs w r)
          ∧ Forall2 (λ r t, linked c from (pairs w' r) t) rs (targets w from).
Proof.
  intros Hpool w'.
  destruct (addPairs_Added c from w Hpool) as ((HmB & _) & _ & _ & rs & Hm & Hp & Hl).
  split; [done|]. by exists rs.
Qed.

Lemma addPairs_one_pair_per_target_witness :
  let w := example_world in
  let w' := __addPairs 7 3 w in
  mBodies w' = mBodies w
  ∧ ∃ rs, mPairs w' = mPairs w ++ rs
          ∧ (∀ r, r ∈ mPairs w → pairs w' r = pairs w r)
          ∧ Forall2 (λ r t, linked 7 3 (pairs w' r) t) rs (targets w 3).
Proof.
  apply (addPairs_one_pair_per_target 7 3 example_world).
  apply (bk_pool _ (full_book _ example_Full)).
Defined.
(** X17 ([inCollision] in either order): when the pair lists of two
    bodies hold exactly the maintained pairs they are an end of,
    [inCollision] returns [true] exactly when some maintained pair in
    collision connects the two bodies, and it returns the same for the
    bodies in the other order. *)
Theorem inCollision_symmetric (w : World) (bodyA bodyB : BodyRef) (cb cb' : bool) :
  (∀ r, r ∈ RigidBody.mPairs (bodies w bodyA)
        ↔ r ∈ mPairs w ∧ involves (pairs w r) bodyA) →
  (∀ r, r ∈ RigidBody.mPairs (bodies w bodyB)
        ↔ r ∈ mPairs w ∧ involves (pairs w r) bodyB) →
  (fst (inCollision bodyA bodyB cb w) = true
   ↔ ∃ r, r ∈ mPairs w ∧ collidingMatch w bodyA bodyB r)
  ∧ fst (inCollision bodyA bodyB cb w) = fst (inCollision bodyB bodyA cb' w).
Proof.
  intros HA HB.
  assert (Hgen : ∀ x y c,
    (∀ r, r ∈ RigidBody.mPairs (bodies w x) ↔ r ∈ mPairs w ∧ involves (pairs w r) x) →
    (fst (inCollision x y c w) = true ↔ ∃ r, r ∈ mPairs w ∧ collidingMatch w x y r)).
  { intros x y c Hx. unfold inCollision.
    destruct (inCollision_loop_spec w x y c (RigidBody.mPairs (bodies w x))) as (H1 & _).
    rewrite H1. split; intros (r & Hr & Hc); exists r; (split; [|done]).
    - by apply Hx in Hr as [? _].
    - apply Hx. split; [done|]. destruct Hc as (_ & [(? & _)|(_ & ?)]); [by left|by right]. }
  split; [by apply Hgen|].
  assert (Hsym : ∀ r, collidingMatch w bodyA bodyB r ↔ collidingMatch w bodyB bodyA r).
  { intros r. unfold collidingMatch, connects. tauto. }
  pose proof (Hgen bodyA bodyB cb HA) as H1.
  pose proof (Hgen bodyB bodyA cb' HB) as H2.
  destruct (fst (inCollision bodyA bodyB cb w)), (fst (inCollision bodyB bodyA cb' w));
    try done.
  - destruct H1 as [H1 _]. destruct (H1 eq_refl) as (r & Hr & Hc).
    symmetry. apply H2. exists r. split; [done|]. by apply Hsym.
  - destruct H2 as [H2 _]. destruct (H2 eq_refl) as (r & Hr & Hc).
    apply H1. exists r. split; [done|]. by apply Hsym.
Qed.

Ltac eval_list_in H :=
  match type of H with
  | ?x ∈ ?l => let l' := eval vm_compute in l in change (x ∈ l') in H
  end.

Lemma inCollision_symmetric_witness :
  let w := Scenario.two_bodies_colliding in
  (fst (inCollision 1 2 true w) = true
   ↔ ∃ r, r ∈ mPairs w ∧ collidingMatch w 1 2 r)
  ∧ fst (inCollision 1 2 true w) = fst (inCollision 2 1 false w).
Proof.
  apply (inCollision_symmetric Scenario.two_bodies_colliding 1 2 true false).
  - intros r. split.
    + intros Hr. assert (r = 0) as ->.
      { eval_list_in Hr. by apply list_elem_of_singleton in Hr. }
      split; [in_list|]. right. reflexivity.
    + intros [Hr _]. assert (r = 0) as ->.
      { eval_list_in Hr. by apply list_elem_of_singleton in Hr. }
      in_list.
  - intros r. split.
    + intros Hr. assert (r = 0) as ->.
      { eval_list_in Hr. by apply list_elem_of_singleton in Hr. }
      split; [in_list|]. left. reflexivity.
    + intros [Hr _]. assert (r = 0) as ->.
      { eval_list_in Hr. by apply list_elem_of_singleton in Hr. }
      in_list.
Defined.

(** ** Children added and removed *)

Lemma addBody_gameObjects (w : World) (b : BodyRef) :
  PoolWf w → gameObjects (__addBody b w) = gameObjects w.
Proof.
  intros Hpool. unfold __addBody.
  set (w0 := set_body_mPairs b [] w).
  assert (Hs0 : sameScene w w0) by apply set_body_mPairs_sameScene.
  rewrite addBody_shapes_fold by (destruct Hs0 as (_ & _ & Hf); apply Hf).
  assert (Hpool0 : PoolWf w0) by by apply (PoolWf_same w).
  destruct (addPairs_loop_grown b (shapes w b) w0 Hpool0) as (_ & Hs & _).
  simpl. by destruct Hs as (_ & -> & _).
Qed.

Lemma removeBody_scene (w : World) (b : BodyRef) :
  PoolWf w →
  gameObjects (__removeBody b w) = gameObjects w
  ∧ mBodies (__removeBody b w) = JS.splice1 (JS.indexOf (mBodies w) b) (mBodies w).
Proof.
  intros Hpool. unfold __removeBody. rewrite removeBody_shapes_fold.
  pose proof (removePairs_fold_mBodies (shapes w b) w Hpool) as HmB.
  assert (Hgo : ∀ cs w, PoolWf w →
    gameObjects (fold_left (λ w0 c, __removePairs (JCollider c) w0) cs w) = gameObjects w).
  { clear. intros cs. induction cs as [|c cs IH]; intros w Hpool; [done|]. simpl.
    destruct (removePairs_Removed (JCollider c) w Hpool) as ((_ & Hg & _) & Hpool' & _).
    by rewrite IH. }
  simpl. rewrite HmB. split; [by apply Hgo|done].
Qed.

Lemma bodiesOf_same (w w' : World) (visited : list GameObjectRef) :
  gameObjects w' = gameObjects w → bodiesOf w' visited = bodiesOf w visited.
Proof. unfold bodiesOf. by intros ->. Qed.

(** X18 ([onChildrenAdded]): in a registry in order, when the traversal
    visits every object once and none of their bodies is active,
    [onChildrenAdded] is the sequence of [__addBody] operations for the
    bodies of the visited objects, and the scene graph may issue each of
    them. *)
Theorem children_added_as_operations (visited : list GameObjectRef) (w : World) :
  Inv w → NoDup visited →
  (∀ g body, g ∈ visited → GameObject.rigidBody (gameObjects w g) = Some body →
             body ∉ mBodies w) →
  let ops := AddBody <$> bodiesOf w visited in
  onChildrenAdded visited w = run ops w ∧ opsOk ops w.
Proof.
  revert w. induction visited as [|g vs IH]; intros w Hinv Hnd Hnew; [done|].
  apply list.NoDup_cons in Hnd as [Hg Hnd].
  unfold onChildrenAdded, bodiesOf. simpl. unfold childAdded at 2.
  destruct (GameObject.rigidBody (gameObjects w g)) as [body|] eqn:Hb; simpl.
  - assert (Hok : body ∉ mBodies w) by (apply (Hnew g); [left|done]).
    pose proof (addBody_gameObjects w body (inv_pool w Hinv)) as Hgo.
    destruct (addBody_grown w body (inv_pool w Hinv)) as (HmB & _).
    destruct (IH (__addBody body w)) as [Heq Hops]; [by apply addBody_Inv|done| |].
    { intros g' b' Hg' Hb'. rewrite Hgo in Hb'. rewrite HmB.
      apply not_elem_of_app. split; [by apply (Hnew g'); [right|]|].
      apply not_elem_of_cons. split; [|apply not_elem_of_nil].
      intros ->. apply Hg.
      pose proof (wf_body_of_object w (inv_scene w Hinv)) as Hwf.
      by rewrite <- (Hwf g body Hb), (Hwf g' body Hb'). }
    rewrite (bodiesOf_same w (__addBody body w) vs Hgo) in Heq, Hops. done.
  - apply IH; try done. intros g' b' Hg'. apply Hnew. by right.
Qed.

Lemma children_added_as_operations_witness :
  let w := example_world in
  let ops := AddBody <$> bodiesOf w [6; 7; 8] in
  onChildrenAdded [6; 7; 8] w = run ops w ∧ opsOk ops w.
Proof.
  apply (children_added_as_operations [6; 7; 8] example_world).
  - apply example_Full.
  - apply (bool_decide_unpack _). by vm_compute.
  - intros g body Hg. revert body.
    apply elem_of_cons in Hg as [->|Hg]; [|apply elem_of_cons in Hg as [->|Hg]];
      [| |apply list_elem_of_singleton in Hg as ->];
      intros body; vm_compute; intros [= <-];
      repeat (apply not_elem_of_cons; split; [done|]); apply not_elem_of_nil.
Defined.

(** X19 ([onChildrenRemoved]): in a registry in order, when the traversal
    visits every object once and all of their bodies are active,
    [onChildrenRemoved] is the sequence of [__removeBody] operations for
    the bodies of the visited objects, and the scene graph may issue each
    of them. *)
Theorem children_removed_as_operations (visited : list GameObjectRef) (w : World) :
  Inv w → NoDup visited →
  (∀ g body, g ∈ visited → GameObject.rigidBody (gameObjects w g) = Some body →
             body ∈ mBodies w) →
  let ops := RemoveBody <$> bodiesOf w visited in
  onChildrenRemoved visited w = run ops w ∧ opsOk ops w.
Proof.
  revert w. induction visited as [|g vs IH]; intros w Hinv Hnd Hold; [done|].
  apply list.NoDup_cons in Hnd as [Hg Hnd].
  unfold onChildrenRemoved, bodiesOf. simpl. unfold childRemoved at 2.
  destruct (GameObject.rigidBody (gameObjects w g)) as [body|] eqn:Hb; simpl.
  - assert (Hok : body ∈ mBodies w) by (apply (Hold g); [left|done]).
    destruct (removeBody_scene w body (inv_pool w Hinv)) as [Hgo HmB].
    destruct (splice_indexOf (mBodies w) body (inv_bodies w Hinv) Hok) as [_ Hel].
    destruct (IH (__removeBody body w)) as [Heq Hops]; [by apply removeBody_Inv|done| |].
    { intros g' b' Hg' Hb'. rewrite Hgo in Hb'. rewrite HmB. apply Hel.
      split; [by apply (Hold g'); [right|]|].
      intros ->. apply Hg.
      pose proof (wf_body_of_object w (inv_scene w Hinv)) as Hwf.
      by rewrite <- (Hwf g body Hb), (Hwf g' body Hb'). }
    rewrite (bodiesOf_same w (__removeBody body w) vs Hgo) in Heq, Hops. done.
  - apply IH; try done. intros g' b' Hg'. apply Hold. by right.
Qed.

Lemma children_removed_as_operations_witness :
  let w := example_world in
  let ops := RemoveBody <$> bodiesOf w [2; 3; 4] in
  onChildrenRemoved [2; 3; 4] w = run ops w ∧ opsOk ops w.
Proof.
  apply (children_removed_as_operations [2; 3; 4] example_world).
  - apply example_Full.
  - apply (bool_decide_unpack _). by vm_compute.
  - intros g body Hg. revert body.
    apply elem_of_cons in Hg as [->|Hg]; [|apply elem_of_cons in Hg as [->|Hg]];
      [| |apply list_elem_of_singleton in Hg as ->];
      intros body; vm_compute; intros [= <-]; repeat first [ by left | right ].
Defined.

(** X20 ([__removeBody] of a body that is not active): after any sequence
    of operations the scene graph may issue on a newly constructed world,
    [__removeBody] called with a body that is not active removes no
    maintained pair and drops the last body of [mBodies]: [indexOf] gives
    [-1] and [splice(-1, 1)] counts from the end. *)
Theorem untracked_remove_drops_last_body (w0 : World) (ops : list Op) (body : BodyRef) :
  Fresh w0 → opsOk ops w0 →
  let w := run ops w0 in
  body ∉ mBodies w →
  let w' := __removeBody body w in
  mBodies w' = removelast (mBodies w) ∧ mPairs w' = mPairs w.
Proof.
  intros Hfresh Hok w Hb w'.
  assert (Hfull : Full w) by (apply run_Full; [by apply Fresh_Full|done]).
  pose proof (bk_pool w (full_book w Hfull)) as Hpool.
  split; [by apply removeBody_untracked|].
  unfold w', __removeBody. rewrite removeBody_shapes_fold.
  destruct (removePairs_loop_filter (shapes w body) w Hpool) as (_ & _ & Hm).
  simpl. rewrite Hm. apply filter_all.
  intros r Hr. apply Forall_forall. intros c Hc. apply stays_collider.
  pose proof (inv_scene w (full_inv w Hfull)) as Hwf.
  pose proof (inv_links w (full_inv w Hfull)) as Hl. rewrite Forall_forall in Hl.
  destruct (Hl (pairs w r)) as (HA & HB & _ & HSa & HSb); [apply live_elem; eauto|].
  intros [Ht|Ht]; apply Hb.
  - rewrite Ht in HSa. by rewrite (shapes_inj w body _ c Hwf Hc HSa).
  - rewrite Ht in HSb. by rewrite (shapes_inj w body _ c Hwf Hc HSb).
Qed.

Lemma untracked_remove_drops_last_body_witness :
  let w := example_world in
  let w' := __removeBody 3 w in
  mBodies w' = removelast (mBodies w) ∧ mPairs w' = mPairs w.
Proof.
  apply (untracked_remove_drops_last_body Example.world0 example_ops 3 world0_Fresh
           example_ops_ok).
  not_in_list.
Defined.
